(** * The generic SQL driver of the kine revision log

    A shallow embedding of [pkg/kine/drivers/generic/generic.go]: the
    statement set that implements Create / Update / Delete / Compact on the
    single [kine] table, the retry loops of [query] and [execute], the
    connection bootstrap of [Open], and the small configuration getters;
    then the read path (List, After, Count, CurrentRevision), the gap rows
    of [Fill], [DeleteRevision], and the helpers [q] and [Stripped] that
    shape the statement texts.

    The table is a finite map from the primary key [id] to the remaining
    columns.  The SQL engine itself is not part of the package: it is
    represented by a connection state that holds the table, the
    auto-increment counter, a schedule of the faults the engine is going to
    raise, and the trace of the calls it has received. *)

From Stdlib Require Import ZArith String Ascii List Lia Bool.
From Stdlib Require Decimal DecimalString DecimalZ DecimalPos.
From stdpp Require Import gmap strings list fin_maps sorting.

Local Open Scope Z_scope.

(** ** Strings *)

Module GoStrings.

(** [strings.HasSuffix(s, suffix)]:
    [len(s) >= len(suffix) && s[len(s)-len(suffix):] == suffix]. *)
Definition HasSuffix (s suffix : string) : bool :=
  (String.length suffix <=? String.length s)%nat
  && String.eqb
       (substring (String.length s - String.length suffix)
                  (String.length suffix) s)
       suffix.

(** The slice expression [s[lo:hi]] for [lo <= hi <= len(s)]. *)
Definition slice (s : string) (lo hi : nat) : string :=
  substring lo (hi - lo) s.

End GoStrings.

(** ** Durations

    [time.Duration] is a signed 64-bit count of nanoseconds. *)

Module Duration.
Definition Nanosecond : Z := 1.
Definition Second : Z := 1000000000 * Nanosecond.
Definition Minute : Z := 60 * Second.
End Duration.

(** ** Errors *)

(** The error values the package handles.  [ErrDriver] stands for an error
    raised by [database/sql] or the engine behind it; [ErrWrap] is
    [fmt.Errorf("<op> (try: %d): %w", retryCount, err)]; [ErrCtx] is
    [ctx.Err()]; [ErrMsg] is an error built from a fixed message. *)
Inductive error : Type :=
| ErrDriver (code : string)
| ErrWrap (op : string) (try : Z) (cause : error)
| ErrCtx
| ErrMsg (msg : string).

(** [errors.Unwrap] iterated to the root of the [%w] chain. *)
Fixpoint root_cause (e : error) : error :=
  match e with
  | ErrWrap _ _ cause => root_cause cause
  | _ => e
  end.

Definition maxRetries : Z := 500.

(** The part of [type Generic struct] that the modelled methods read. *)
Record Generic := mkGeneric {
  LockWrites : bool;
  Retry : option (error -> bool);
  TranslateErr : option (error -> error);
  CompactInterval : Z;
  PollInterval : Z;
  WatchQueryTimeout : Z
}.

(** The loop guard [d.Retry == nil || !d.Retry(err)], negated: does the
    loop go round again after [err]? *)
Definition retryable (d : Generic) (err : error) : bool :=
  match Retry d with
  | None => false
  | Some f => f err
  end.

(** The deferred block of [Create] and [Update]:
    [if d.TranslateErr != nil { err = d.TranslateErr(err) }]. *)
Definition translate (d : Generic) (err : error) : error :=
  match TranslateErr d with
  | None => err
  | Some f => f err
  end.

(** ** Prefix ranges and configuration getters *)

Definition getPrefixRange (prefix : string) : string * string :=
  let start := prefix in
  let end_ :=
    if GoStrings.HasSuffix prefix "/"
    then GoStrings.slice prefix 0 (String.length prefix - 1) +:+ "0"
    else prefix +:+ String (ascii_of_nat 1) EmptyString in
  (start, end_).

Definition GetCompactInterval (d : Generic) : Z :=
  let v := CompactInterval d in
  if 0 <? v then v else 5 * Duration.Minute.

Definition GetWatchQueryTimeout (d : Generic) : Z :=
  let v := WatchQueryTimeout d in
  if 5 * Duration.Second <=? v then v else 20 * Duration.Second.

Definition GetPollInterval (d : Generic) : Z :=
  let v := PollInterval d in
  if 0 <? v then v else Duration.Second.

(** ** The kine table *)

(** One row of [kine] without its primary key.  The integer columns are
    kept as integers, as the statements compare them with [0] and [1]. *)
Record Row := mkRow {
  name : string;
  created : Z;
  deleted : Z;
  create_revision : Z;
  prev_revision : Z;
  lease : Z;
  value : option string;
  old_value : option string
}.

(** The name of the marker row that holds the compact revision. *)
Definition compact_rev_key : string := "compact_rev_key".

(** The SQL aggregate [MAX(e)] over the rows of a table: [None] is the
    [NULL] that [MAX] yields over no rows. *)
Definition sql_max (e : Z -> Row -> Z) (m : gmap Z Row) : option Z :=
  map_fold
    (fun i r acc =>
       Some (match acc with None => e i r | Some a => Z.max (e i r) a end))
    None m.

(** [... FROM kine WHERE name = ?]. *)
Definition where_name (key : string) (m : gmap Z Row) : gmap Z Row :=
  filter (fun ir => name ir.2 = key) m.

(** [SELECT MAX(id) FROM kine WHERE name = ?]. *)
Definition max_id_of (key : string) (m : gmap Z Row) : option Z :=
  sql_max (fun i _ => i) (where_name key m).

(** [SELECT MAX(id) AS id, deleted FROM kine WHERE name = ?]: the engine
    takes the bare columns from the row that holds the maximum.  As [id] is
    the primary key, that row is found by lookup. *)
Definition max_row_of (key : string) (m : gmap Z Row) : option (Z * Row) :=
  match max_id_of key m with
  | None => None
  | Some i => match m !! i with
              | None => None
              | Some r => Some (i, r)
              end
  end.

(** Modelled from the spec: the schema of the table is not part of the
    package; the spec gives [id] as a "monotonically-increasing 64-bit
    integer, unique, assigned by the SQL engine".  The table comes with the
    counter [seq] of the greatest id ever handed out, and a new row gets an
    id above both the counter and every id in the table. *)
Record DB := mkDB {
  kine : gmap Z Row;
  seq : Z
}.

Definition next_id (d : DB) : Z :=
  Z.max (seq d) (default 0 (sql_max (fun i _ => i) (kine d))) + 1.

(** [INSERT INTO kine(name, ...)] of one row: the affected-row count and
    the id of the new row come back with the new table. *)
Definition insert_row (r : Row) (d : DB) : DB * (Z * Z) :=
  let i := next_id d in
  (mkDB (<[i := r]> (kine d)) i, (1, i)).

(** An [INSERT ... SELECT] whose [SELECT] is empty. *)
Definition insert_none (d : DB) : DB * (Z * Z) := (d, (0, seq d)).

(** [CASE WHEN kine.created THEN id ELSE create_revision END]. *)
Definition carry_create_revision (i : Z) (r : Row) : Z :=
  if created r =? 0 then create_revision r else i.

(** The statements of the package.  [CompactPrevSQL] and
    [CompactTombstoneSQL] are the two [DELETE]s written inline in
    [tryCompact]; the others are the fields of [Generic] that [Open] fills
    in.  The arguments are the statement's [?] parameters in order. *)
Inductive Stmt : Type :=
| CreateSQL (key : string) (ttl : Z) (val : string) (key' : string)
| UpdateSQL (key : string) (ttl : Z) (val : string) (key' : string) (preRev : Z)
| DeleteSQL (key : string) (revision : Z)
| DeleteRevSQL (revision : Z)
| CompactPrevSQL (start end_ : Z)
| CompactTombstoneSQL (start end_ : Z)
| UpdateCompactSQL (end_ : Z).

(** [SELECT prev_revision FROM kine WHERE name != 'compact_rev_key'
    AND created = 0 AND prev_revision != 0 AND ? < id AND id <= ?]. *)
Definition compact_prevs (start end_ : Z) (m : gmap Z Row) : gset Z :=
  list_to_set
    ((fun ir : Z * Row => prev_revision ir.2)
       <$> map_to_list
             (filter (fun ir : Z * Row =>
                        name ir.2 <> compact_rev_key /\ created ir.2 = 0
                        /\ prev_revision ir.2 <> 0
                        /\ start < ir.1 /\ ir.1 <= end_) m)).

(** [SET prev_revision = max(prev_revision, ?)]. *)
Definition advance_marker (end_ : Z) (r : Row) : Row :=
  mkRow (name r) (created r) (deleted r) (create_revision r)
        (Z.max (prev_revision r) end_) (lease r) (value r) (old_value r).

Definition deleted_count (m m' : gmap Z Row) : Z := Z.of_nat (size m - size m').

(** What a statement does to the table, with the affected-row count and
    the last insert id the engine reports. *)
Definition run_stmt (s : Stmt) (d : DB) : DB * (Z * Z) :=
  let m := kine d in
  match s with
  | CreateSQL key ttl val key' =>
      (* FROM (SELECT MAX(id) AS id, deleted FROM kine WHERE name = ?) maxkv
         WHERE maxkv.deleted = 1 OR id IS NULL *)
      match max_row_of key' m with
      | None => insert_row (mkRow key 1 0 0 0 ttl (Some val) None) d
      | Some (i, r) =>
          if deleted r =? 1
          then insert_row (mkRow key 1 0 0 i ttl (Some val) None) d
          else insert_none d
      end
  | UpdateSQL key ttl val key' preRev =>
      (* FROM kine WHERE id = (SELECT MAX(id) FROM kine WHERE name = ?)
         AND deleted = 0 AND id = ? *)
      match max_row_of key' m with
      | None => insert_none d
      | Some (i, r) =>
          if (deleted r =? 0) && (i =? preRev)
          then insert_row
                 (mkRow key 0 0 (carry_create_revision i r) i ttl (Some val) (value r)) d
          else insert_none d
      end
  | DeleteSQL key revision =>
      match max_row_of key m with
      | None => insert_none d
      | Some (i, r) =>
          if (deleted r =? 0) && (i =? revision)
          then insert_row
                 (mkRow (name r) 0 1 (carry_create_revision i r) i (lease r) None (value r)) d
          else insert_none d
      end
  | DeleteRevSQL revision =>
      let m' := delete revision m in
      (mkDB m' (seq d), (deleted_count m m', seq d))
  | CompactPrevSQL start end_ =>
      let m' := filter (fun ir : Z * Row => ir.1 ∉ compact_prevs start end_ m) m in
      (mkDB m' (seq d), (deleted_count m m', seq d))
  | CompactTombstoneSQL start end_ =>
      let m' := filter (fun ir : Z * Row =>
                          ~ (deleted ir.2 = 1 /\ start < ir.1 /\ ir.1 <= end_)) m in
      (mkDB m' (seq d), (deleted_count m m', seq d))
  | UpdateCompactSQL end_ =>
      let m' := (fun r => if decide (name r = compact_rev_key)
                          then advance_marker end_ r else r) <$> m in
      (mkDB m' (seq d),
       (Z.of_nat (size (where_name compact_rev_key m)), seq d))
  end.

(** The queries [GetCompactRevision] and [CurrentRevision] issue. *)
Inductive Query : Type :=
| revisionIntervalSQL
| revSQL.

(** A result set: rows of nullable integer columns. *)
Definition run_query (q : Query) (d : DB) : list (list (option Z)) :=
  match q with
  | revisionIntervalSQL =>
      [[sql_max (fun _ r => prev_revision r) (where_name compact_rev_key (kine d));
        sql_max (fun i _ => i) (kine d)]]
  | revSQL => [[sql_max (fun i _ => i) (kine d)]]
  end.

(** ** The connection *)

(** [sql.Result]: each accessor returns a value or an error. *)
Record Result := mkResult {
  RowsAffected : error + Z;
  LastInsertId : error + Z
}.

(** A fault the engine raises at one call: the call itself fails and has
    no effect, or the statement runs and an accessor of its result fails. *)
Inductive fault : Type :=
| FaultCall (e : error)
| FaultRowsAffected (e : error)
| FaultLastInsertId (e : error).

(** The calls the package makes on [d.DB] and on a transaction. *)
Inductive Call : Type :=
| CallExec (s : Stmt)
| CallQuery (q : Query)
| CallBegin
| CallTxExec (s : Stmt)
| CallCommit
| CallRollback.

(** The state behind [d.DB]: the database, the snapshot an open
    transaction would roll back to, the faults still to come (one entry is
    consumed by each call, [None] and the end of the list mean success),
    and the calls received so far, oldest first. *)
Record Conn := mkConn {
  db : DB;
  tx_saved : option DB;
  faults : list (option fault);
  trace : list Call
}.

Definition call_fault (c : Conn) : option error :=
  match faults c with
  | Some (FaultCall e) :: _ => Some e
  | _ => None
  end.

Definition result_of (c : Conn) (r : Z * Z) : Result :=
  match faults c with
  | Some (FaultRowsAffected e) :: _ => mkResult (inl e) (inr r.2)
  | Some (FaultLastInsertId e) :: _ => mkResult (inr r.1) (inl e)
  | _ => mkResult (inr r.1) (inr r.2)
  end.

(** [d.DB.ExecContext(ctx, query, args...)]. *)
Definition ExecContext (s : Stmt) (c : Conn) : (error + Result) * Conn :=
  let tr := trace c ++ [CallExec s] in
  match call_fault c with
  | Some e => (inl e, mkConn (db c) (tx_saved c) (tail (faults c)) tr)
  | None =>
      let (d', r) := run_stmt s (db c) in
      (inr (result_of c r), mkConn d' (tx_saved c) (tail (faults c)) tr)
  end.

(** [d.DB.QueryContext(ctx, query, args...)]. *)
Definition QueryContext (q : Query) (c : Conn)
  : (error + list (list (option Z))) * Conn :=
  let c' := mkConn (db c) (tx_saved c) (tail (faults c)) (trace c ++ [CallQuery q]) in
  match call_fault c with
  | Some e => (inl e, c')
  | None => (inr (run_query q (db c)), c')
  end.

(** [d.DB.BeginTx(ctx, nil)]. *)
Definition BeginTx (c : Conn) : option error * Conn :=
  let tr := trace c ++ [CallBegin] in
  match call_fault c with
  | Some e => (Some e, mkConn (db c) (tx_saved c) (tail (faults c)) tr)
  | None => (None, mkConn (db c) (Some (db c)) (tail (faults c)) tr)
  end.

(** [tx.ExecContext(ctx, query, args...)]; the result is not read. *)
Definition TxExecContext (s : Stmt) (c : Conn) : option error * Conn :=
  let tr := trace c ++ [CallTxExec s] in
  match call_fault c with
  | Some e => (Some e, mkConn (db c) (tx_saved c) (tail (faults c)) tr)
  | None => (None, mkConn (run_stmt s (db c)).1 (tx_saved c) (tail (faults c)) tr)
  end.

(** [tx.Commit()]: the transaction is over either way; a failed commit
    leaves the database as it was when the transaction began. *)
Definition Commit (c : Conn) : option error * Conn :=
  let tr := trace c ++ [CallCommit] in
  match call_fault c with
  | Some e => (Some e, mkConn (default (db c) (tx_saved c)) None (tail (faults c)) tr)
  | None => (None, mkConn (db c) None (tail (faults c)) tr)
  end.

(** [tx.Rollback()]: restores the snapshot of an open transaction; on a
    transaction that is over it only reports [sql.ErrTxDone], which
    [tryCompact] logs and drops. *)
Definition Rollback (c : Conn) : Conn :=
  mkConn (default (db c) (tx_saved c)) None (faults c) (trace c ++ [CallRollback]).

(** ** The retry loops *)

(** The loop of [query] and of [execute]:
    [for ; retryCount < maxRetries; retryCount++ {
       r, err = call(); if err == nil { break };
       if d.Retry == nil || !d.Retry(err) { break } }].
    [fuel] bounds the recursion; [last] is the pair [(r, err)] as the
    previous iteration left it. *)
Fixpoint retry_loop {A : Type} (d : Generic)
    (call : Conn -> (error + A) * Conn)
    (fuel : nat) (retryCount : Z) (last : option A * option error) (c : Conn)
  : (option A * option error) * Z * Conn :=
  match fuel with
  | O => (last, retryCount, c)
  | S fuel' =>
      if retryCount <? maxRetries then
        match call c with
        | (inr r, c') => ((Some r, None), retryCount, c')
        | (inl err, c') =>
            if retryable d err
            then retry_loop d call fuel' (retryCount + 1) (None, Some err) c'
            else ((None, Some err), retryCount, c')
        end
      else (last, retryCount, c)
  end.

(** The deferred [err = fmt.Errorf("<op> (try: %d): %w", retryCount, err)]. *)
Definition annotate (op : string) (retryCount : Z) (err : option error) : option error :=
  match err with
  | None => None
  | Some e => Some (ErrWrap op retryCount e)
  end.

Definition query (d : Generic) (q : Query) (c : Conn)
  : (option (list (list (option Z))) * option error) * Conn :=
  let '((rows, err), retryCount, c') :=
    retry_loop d (QueryContext q) (Z.to_nat maxRetries) 0 (None, None) c in
  ((rows, annotate "query" retryCount err), c').

Definition execute (d : Generic) (s : Stmt) (c : Conn)
  : (option Result * option error) * Conn :=
  let '((result, err), retryCount, c') :=
    retry_loop d (ExecContext s) (Z.to_nat maxRetries) 0 (None, None) c in
  ((result, annotate "exec" retryCount err), c').

Arguments query : simpl never.
Arguments execute : simpl never.

(** ** Create, Update, Delete *)

(** The three operations return [(rev, ok, err)].  [execute] leaves
    [result] nil only together with an error (its loop runs at least once),
    so the branch for a nil [result] without an error is never taken. *)

Definition Create (d : Generic) (key : string) (val : string) (ttl : Z) (c : Conn)
  : (Z * bool * option error) * Conn :=
  (* defer: if err != nil { if d.TranslateErr != nil { err = d.TranslateErr(err) } } *)
  let deferred (r : Z * bool * option error) :=
    let '(rev, succeeded, err) := r in
    (rev, succeeded,
     match err with None => None | Some e => Some (translate d e) end) in
  let '((result, err), c') := execute d (CreateSQL key ttl val key) c in
  (deferred
     match err, result with
     | Some err, _ => (0, false, Some err)
     | None, None => (0, false, None)
     | None, Some result =>
         match RowsAffected result with
         | inl err => (0, false, Some err)
         | inr insertCount =>
             if insertCount =? 0 then (0, false, None)
             else match LastInsertId result with
                  | inl err => (0, true, Some err)
                  | inr rev => (rev, true, None)
                  end
         end
     end, c').

Definition Update (d : Generic) (key : string) (val : string) (preRev ttl : Z) (c : Conn)
  : (Z * bool * option error) * Conn :=
  (* defer: if err != nil { if d.TranslateErr != nil { err = d.TranslateErr(err) } } *)
  let deferred (r : Z * bool * option error) :=
    let '(rev, updated, err) := r in
    (rev, updated,
     match err with None => None | Some e => Some (translate d e) end) in
  let '((result, err), c') := execute d (UpdateSQL key ttl val key preRev) c in
  (deferred
     match err, result with
     | Some err, _ => (0, false, Some err)
     | None, None => (0, false, None)
     | None, Some result =>
         match RowsAffected result with
         | inl err => (0, false, Some err)
         | inr insertCount =>
             if insertCount =? 0 then (0, false, None)
             else match LastInsertId result with
                  | inl err => (0, true, Some err)
                  | inr rev => (rev, true, None)
                  end
         end
     end, c').

Definition Delete (d : Generic) (key : string) (revision : Z) (c : Conn)
  : (Z * bool * option error) * Conn :=
  (* the deferred block only records [err], [rev] and [deleted] on the span *)
  let '((result, err), c') := execute d (DeleteSQL key revision) c in
  (match err, result with
   | Some err, _ => (0, false, Some err)
   | None, None => (0, false, None)
   | None, Some result =>
       match RowsAffected result with
       | inl err => (0, false, Some err)
       | inr insertCount =>
           if insertCount =? 0 then (0, false, None)
           else match LastInsertId result with
                | inl err => (0, true, Some err)
                | inr rev => (rev, true, None)
                end
       end
   end, c').

(** ** Compaction *)

(** [GetCompactRevision]: one row of two nullable integers is scanned into
    two [sql.NullInt64], whose [Int64] is [0] for [NULL]. *)
Definition GetCompactRevision (d : Generic) (c : Conn)
  : (Z * Z * option error) * Conn :=
  let '((rows, err), c') := query d revisionIntervalSQL c in
  (match err with
   | Some err => (0, 0, Some err)
   | None =>
       match default [] rows with
       | [] =>
           (0, 0, Some (ErrMsg
              "cannot get compact revision: aggregate query returned no rows"))
       | [compact; target] :: _ => (default 0 compact, default 0 target, None)
       | _ :: _ => (0, 0, Some (ErrMsg "sql: wrong number of destination arguments in Scan"))
       end
   end, c').

(** [tryCompact]: the three statements inside one transaction.  The
    deferred [tx.Rollback()] runs on every path once [BeginTx] succeeded. *)
Definition tryCompact (d : Generic) (start end_ : Z) (c : Conn) : option error * Conn :=
  match BeginTx c with
  | (Some err, c0) => (Some err, c0)
  | (None, c0) =>
      let deferred (r : option error * Conn) := (r.1, Rollback r.2) in
      deferred
        match TxExecContext (CompactPrevSQL start end_) c0 with
        | (Some err, c1) => (Some err, c1)
        | (None, c1) =>
            match TxExecContext (CompactTombstoneSQL start end_) c1 with
            | (Some err, c2) => (Some err, c2)
            | (None, c2) =>
                match TxExecContext (UpdateCompactSQL end_) c2 with
                | (Some err, c3) => (Some err, c3)
                | (None, c3) => Commit c3
                end
            end
        end
  end.

(** The loop of [Compact]:
    [for retryCount := 0; retryCount < maxRetries; retryCount++ {
       err = d.tryCompact(ctx, compactStart, revision)
       if err == nil || d.Retry == nil || !d.Retry(err) { break } }]. *)
Fixpoint compact_loop (d : Generic) (compactStart revision : Z)
    (fuel : nat) (retryCount : Z) (err : option error) (c : Conn)
  : option error * Conn :=
  match fuel with
  | O => (err, c)
  | S fuel' =>
      if retryCount <? maxRetries then
        match tryCompact d compactStart revision c with
        | (None, c') => (None, c')
        | (Some e, c') =>
            if retryable d e
            then compact_loop d compactStart revision fuel' (retryCount + 1) (Some e) c'
            else (Some e, c')
        end
      else (err, c)
  end.

Definition Compact (d : Generic) (revision : Z) (c : Conn) : option error * Conn :=
  let '((compactStart, currentRevision, err), c') := GetCompactRevision d c in
  match err with
  | Some err => (Some err, c')
  | None =>
      if compactStart >=? revision then (None, c') (* Nothing to compact. *)
      else
        let revision := if revision >? currentRevision then currentRevision else revision in
        compact_loop d compactStart revision (Z.to_nat maxRetries) 0 None c'
  end.

(** ** Opening the pool *)

(** What [database/sql] keeps for a [*sql.DB]. *)
Record SqlDB := mkSqlDB {
  maxIdleConns : Z;
  maxOpenConns : Z;
  connMaxLifetime : Z;
  connMaxIdleTime : Z
}.

Record ConnectionPoolConfig := mkConnectionPoolConfig {
  MaxIdle : Z;
  MaxOpen : Z;
  MaxLifetime : Z;
  MaxIdleTime : Z
}.

Definition defaultMaxIdleConns : Z := 2.

(** A call either returns or panics. *)
Inductive outcome (A : Type) : Type :=
| Returns (a : A)
| Panics (reason : string).
Arguments Returns {A} a.
Arguments Panics {A} reason.

Definition nil_dereference : string :=
  "invalid memory address or nil pointer dereference".

(** [configureConnectionPooling(connPoolConfig, db)]: the configuration is
    normalised in place, then the four setters are called on [db]; a
    setter called on a nil [*sql.DB] dereferences it. *)
Definition configureConnectionPooling (connPoolConfig : ConnectionPoolConfig)
    (db : option SqlDB) : outcome (ConnectionPoolConfig * SqlDB) :=
  let maxIdle :=
    if MaxIdle connPoolConfig <? 0 then 0
    else if MaxIdle connPoolConfig =? 0 then defaultMaxIdleConns
    else MaxIdle connPoolConfig in
  let connPoolConfig :=
    mkConnectionPoolConfig maxIdle (MaxOpen connPoolConfig)
      (MaxLifetime connPoolConfig) (MaxIdleTime connPoolConfig) in
  match db with
  | None => Panics nil_dereference
  | Some _ =>
      Returns (connPoolConfig,
               mkSqlDB (MaxIdle connPoolConfig) (MaxOpen connPoolConfig)
                 (MaxLifetime connPoolConfig) (MaxIdleTime connPoolConfig))
  end.

(** What [Open] meets outside the package: the result of the [i]-th call
    of [sql.Open], of the [j]-th [Ping] on the handle it gave, and whether
    the [select] of iteration [i] finds [ctx.Done()] ready. *)
Record Env := mkEnv {
  sql_Open : nat -> option error;
  db_Ping : nat -> nat -> option error;
  ctx_Done : nat -> bool
}.

(** The ping loop [for i := 0; i < 3; i++] of [openAndTest]; [j] counts up,
    [fuel] counts down. *)
Fixpoint ping_loop (env : Env) (i : nat) (fuel j : nat) : option error :=
  match fuel with
  | O => None
  | S fuel' =>
      match db_Ping env i j with
      | Some err => Some err
      | None => ping_loop env i fuel' (S j)
      end
  end.

(** [openAndTest], at the [i]-th call. *)
Definition openAndTest (env : Env) (i : nat) : option SqlDB * option error :=
  match sql_Open env i with
  | Some err => (None, Some err)
  | None =>
      match ping_loop env i 3 0 with
      | Some err => (None, Some err)
      | None => (Some (mkSqlDB defaultMaxIdleConns 0 0 0), None)
      end
  end.

(** The loop [for i := 0; i < 300; i++] of [Open]: [inl] is the early
    [return nil, ctx.Err()], [inr] the pair [(db, err)] the loop ends with. *)
Fixpoint open_loop (env : Env) (fuel i : nat) (last : option SqlDB * option error)
  : (option SqlDB * option error) + (option SqlDB * option error) :=
  match fuel with
  | O => inr last
  | S fuel' =>
      let (db, err) := openAndTest env i in
      match err with
      | None => inr (db, err)
      | Some _ =>
          if ctx_Done env i then inl (None, Some ErrCtx)
          else open_loop env fuel' (S i) (db, err)
      end
  end.

(** [Open]: the value returned for [*Generic] is the configured pool. *)
Definition Open (env : Env) (connPoolConfig : ConnectionPoolConfig)
  : outcome (option SqlDB * option error) :=
  match open_loop env 300 0 (None, None) with
  | inl early => Returns early
  | inr (db, err) =>
      match configureConnectionPooling connPoolConfig db with
      | Panics reason => Panics reason
      | Returns (_, db') => Returns (Some db', err)
      end
  end.

(** ** Notions of the specification *)

(** No row exists for the key. *)
Definition no_row (m : gmap Z Row) (key : string) : Prop :=
  forall i r, m !! i = Some r -> name r <> key.

(** [r], with id [i], is the row with the greatest id for the key. *)
Definition latest_row (m : gmap Z Row) (key : string) (i : Z) (r : Row) : Prop :=
  m !! i = Some r /\ name r = key /\
  forall j r', m !! j = Some r' -> name r' = key -> j <= i.

(** The key has a live row, and its id is [i]. *)
Definition live_at (m : gmap Z Row) (key : string) (i : Z) : Prop :=
  exists r, latest_row m key i r /\ deleted r = 0.

(** The engine raises no fault from here on. *)
Definition fault_free (c : Conn) : Prop := faults c = [].

(** The error of the call that would be the [i]-th from now, if the calls
    before it fail. *)
Definition fault_at (c : Conn) (i : nat) : option error :=
  match faults c !! i with
  | Some (Some (FaultCall e)) => Some e
  | _ => None
  end.

(** The connection after a call that failed: one fault consumed, one call
    recorded, the database untouched. *)
Definition after_failure (ev : Call) (c : Conn) : Conn :=
  mkConn (db c) (tx_saved c) (tail (faults c)) (trace c ++ [ev]).

(** The connection after [n] failed calls in a row. *)
Definition after_failures (ev : Call) (n : nat) (c : Conn) : Conn :=
  Nat.iter n (after_failure ev) c.

(** The pluggable predicate of the driver classifies [e] as retryable: a
    predicate is set in the field [Retry], and it returns true on [e]. *)
Definition Retry_accepts (d : Generic) (e : error) : Prop :=
  exists f, Retry d = Some f /\ f e = true.

(** The error [e] is not to be retried: no predicate is set, or the
    predicate returns false on [e]. *)
Definition Retry_rejects (d : Generic) (e : error) : Prop :=
  Retry d = None \/ exists f, Retry d = Some f /\ f e = false.

(** How one run of a retry loop went, under a classification of the
    errors into accepted and rejected ones, read off the faults the
    connection held ([c]) and the calls it has recorded ([c']): the call
    [ev] was issued [attempts] times and nothing else was; every attempt
    but the last failed with an accepted error; the last one either
    succeeded, or failed with a rejected error and is annotated with the
    number of the attempts before it, or was the last the bound allows and
    is annotated with [maxRetries]. *)
Definition retry_run_by (accepts rejects : error -> Prop) (ev : Call) (op : string)
    (c c' : Conn) (err : option error) : Prop :=
  exists attempts : nat,
    (1 <= attempts)%nat /\ Z.of_nat attempts <= maxRetries /\
    trace c' = trace c ++ repeat ev attempts /\
    (forall i, (i < attempts - 1)%nat ->
               exists e, fault_at c i = Some e /\ accepts e) /\
    match err with
    | None => fault_at c (attempts - 1) = None
    | Some err =>
        exists e, fault_at c (attempts - 1) = Some e /\
          ((rejects e /\
            err = ErrWrap op (Z.of_nat attempts - 1) e)
           \/ (accepts e /\ Z.of_nat attempts = maxRetries /\
               err = ErrWrap op maxRetries e))
    end.

(** The run of a retry loop of the driver [d]: the errors are classified
    by the predicate in its field [Retry]. *)
Definition retry_run (d : Generic) (ev : Call) (op : string)
    (c c' : Conn) (err : option error) : Prop :=
  retry_run_by (Retry_accepts d) (Retry_rejects d) ev op c c' err.

(** ** Outcomes of the write operations *)

(** The tail the three operations share, after [execute] returned. *)
Definition finish_op (r : option Result * option error) : Z * bool * option error :=
  match r.2, r.1 with
  | Some err, _ => (0, false, Some err)
  | None, None => (0, false, None)
  | None, Some result =>
      match RowsAffected result with
      | inl err => (0, false, Some err)
      | inr insertCount =>
          if insertCount =? 0 then (0, false, None)
          else match LastInsertId result with
               | inl err => (0, true, Some err)
               | inr rev => (rev, true, None)
               end
      end
  end.

(** What the operation returns when the statement ran and its result was
    read without a fault. *)
Definition clean_result (r : Z * Z) : Z * bool * option error :=
  if r.1 =? 0 then (0, false, None) else (r.2, true, None).

Definition translate_result (d : Generic) (r : Z * bool * option error)
  : Z * bool * option error :=
  (r.1.1, r.1.2, match r.2 with None => None | Some e => Some (translate d e) end).

(** The error [e] is a fault of the engine as the operation passes it on:
    a failed call annotated by [execute], or a failed accessor as it is. *)
Definition from_fault (c : Conn) (e : error) : Prop :=
  (exists e0 k, Some (FaultCall e0) ∈ faults c /\ e = ErrWrap "exec" k e0)
  \/ (exists e0, (Some (FaultRowsAffected e0) ∈ faults c
                  \/ Some (FaultLastInsertId e0) ∈ faults c) /\ e = e0).

(** An operation that found nothing to insert: the database is as before,
    the revision is [0] and [ok] is false; the error is nil unless the
    engine raised a fault, which is passed on through [tr]. *)
Definition miss_outcome (tr : error -> error) (c : Conn)
    (out : (Z * bool * option error) * Conn) : Prop :=
  db out.2 = db c /\ out.1.1 = (0, false) /\
  (out.1.2 = None \/ exists e, from_fault c e /\ out.1.2 = Some (tr e)) /\
  (fault_free c -> out.1.2 = None).


Definition set_TranslateErr (d : Generic) (t : option (error -> error)) : Generic :=
  mkGeneric (LockWrites d) (Retry d) t (CompactInterval d) (PollInterval d)
            (WatchQueryTimeout d).

(** ** Compaction, in the words of the specification *)

(** The row with id [i] is referenced as [prev_revision] by a row of the
    window [(start, end_]] that is not the marker, was not a create and has
    a previous revision. *)
Definition superseded (start end_ : Z) (m : gmap Z Row) (i : Z) : Prop :=
  exists j r, m !! j = Some r /\ start < j /\ j <= end_ /\
              name r <> compact_rev_key /\ created r = 0 /\
              prev_revision r <> 0 /\ prev_revision r = i.

(** The row [r] with id [i] is a tombstone of the window. *)
Definition tombstone_in (start end_ : Z) (i : Z) (r : Row) : Prop :=
  deleted r = 1 /\ start < i /\ i <= end_.

(** [r'] is the marker row [r] after step (c): its [prev_revision] is
    [max(prev_revision, end_)], every other column is as it was. *)
Definition marker_raised (end_ : Z) (r r' : Row) : Prop :=
  prev_revision r' = Z.max (prev_revision r) end_
  /\ name r' = name r /\ created r' = created r /\ deleted r' = deleted r
  /\ create_revision r' = create_revision r /\ lease r' = lease r
  /\ value r' = value r /\ old_value r' = old_value r.

(** [m'] is [m] after one compaction pass over the window, in the words of
    the specification: (a) the superseded rows and (b) the tombstones of
    the window are gone; (c) a marker row that remains has its
    [prev_revision] set to [max(prev_revision, end_)]; every other row is
    as it was, and no row is new. *)
Definition compaction_pass (start end_ : Z) (m m' : gmap Z Row) : Prop :=
  forall i,
    match m !! i with
    | None => m' !! i = None
    | Some r =>
        ((superseded start end_ m i \/ tombstone_in start end_ i r) ->
         m' !! i = None)
        /\ (~ (superseded start end_ m i \/ tombstone_in start end_ i r) ->
            if decide (name r = compact_rev_key)
            then exists r', m' !! i = Some r' /\ marker_raised end_ r r'
            else m' !! i = Some r)
    end.

(** The same, with the marker row written as the update of
    [UpdateCompactSQL] computes it; the form the proofs work with. *)
Definition compaction_of (start end_ : Z) (m m' : gmap Z Row) : Prop :=
  forall i,
    match m !! i with
    | None => m' !! i = None
    | Some r =>
        ((superseded start end_ m i \/ tombstone_in start end_ i r) ->
         m' !! i = None)
        /\ (~ (superseded start end_ m i \/ tombstone_in start end_ i r) ->
            m' !! i = Some (if decide (name r = compact_rev_key)
                            then advance_marker end_ r else r))
    end.

(** The calls of one committed pass. *)
Definition committed_pass (start end_ : Z) : list Call :=
  [CallBegin; CallTxExec (CompactPrevSQL start end_);
   CallTxExec (CompactTombstoneSQL start end_);
   CallTxExec (UpdateCompactSQL end_); CallCommit; CallRollback].

(** The loop of [Compact], try by try, under a classification of the
    errors.  [compact_tries_by accepts rejects d start end_ k n c out]:
    entered with [retryCount = k] on the connection [c], the loop runs the
    transaction [n] times and ends with [out].  A try that commits, or
    fails with a rejected error, ends the loop; a failure with an accepted
    error leads to another try as long as the count stays below
    [maxRetries], and ends the loop otherwise. *)
Inductive compact_tries_by (accepts rejects : error -> Prop)
    (d : Generic) (start end_ : Z)
  : Z -> nat -> Conn -> option error * Conn -> Prop :=
| tries_commit k c c' :
    tryCompact d start end_ c = (None, c') ->
    compact_tries_by accepts rejects d start end_ k 1 c (None, c')
| tries_give_up k c e c' :
    tryCompact d start end_ c = (Some e, c') ->
    rejects e ->
    compact_tries_by accepts rejects d start end_ k 1 c (Some e, c')
| tries_exhausted k c e c' :
    tryCompact d start end_ c = (Some e, c') ->
    accepts e ->
    k + 1 = maxRetries ->
    compact_tries_by accepts rejects d start end_ k 1 c (Some e, c')
| tries_again k n c e c' out :
    tryCompact d start end_ c = (Some e, c') ->
    accepts e ->
    k + 1 < maxRetries ->
    compact_tries_by accepts rejects d start end_ (k + 1) n c' out ->
    compact_tries_by accepts rejects d start end_ k (S n) c out.

(** The tries of [Compact] on the driver [d]: the errors are classified by
    the predicate in its field [Retry]. *)
Definition compact_tries (d : Generic) (start end_ : Z)
    (k : Z) (n : nat) (c : Conn) (out : option error * Conn) : Prop :=
  compact_tries_by (Retry_accepts d) (Retry_rejects d) d start end_ k n c out.

(** The compact revision: the marker row's [prev_revision] ([0] without a
    marker row). *)
Definition compact_revision (m : gmap Z Row) : Z :=
  default 0 (sql_max (fun _ r => prev_revision r) (where_name compact_rev_key m)).

(** The current revision: [MAX(id)] ([0] for the empty table). *)
Definition current_revision (m : gmap Z Row) : Z :=
  default 0 (sql_max (fun i _ => i) m).

(** ** The watch query timeout, in the words of the specification *)

(** The timeout in the words of the specification: the configured value
    "subject to a minimum of 5 seconds", and the default of 20 seconds when
    nothing is configured. *)
Definition timeout_with_minimum (configured : Z) : Z :=
  if configured =? 0 then 20 * Duration.Second
  else Z.max configured (5 * Duration.Second).

Definition with_WatchQueryTimeout (v : Z) : Generic :=
  mkGeneric false None None 0 0 v.

(** ** The scenario of the specification *)

Definition d0 : Generic := mkGeneric false None None 0 0 0.

Definition c_empty : Conn := mkConn (mkDB ∅ 0) None [] [].

(** [Create("foo", "1")], [Update("foo", "2", 1)], [Delete("foo", 2)],
    [Create("foo", "x")], each on the state the one before left. *)
Definition after_create : Conn := (Create d0 "foo" "1" 0 c_empty).2.
Definition after_update : Conn := (Update d0 "foo" "2" 1 0 after_create).2.
Definition after_delete : Conn := (Delete d0 "foo" 2 after_update).2.
Definition after_recreate : Conn := (Create d0 "foo" "x" 0 after_delete).2.

(** The row the second [Create] stores. *)
Definition recreated_row : Row := mkRow "foo" 1 0 0 3 0 (Some "x") None.

(** An engine that is down: [sql.Open] fails every time, the context is
    never cancelled. *)
Definition env_down : Env :=
  mkEnv (fun _ => Some (ErrDriver "connection refused")) (fun _ _ => None)
        (fun _ => false).

Definition pool_defaults : ConnectionPoolConfig := mkConnectionPoolConfig 0 0 0 0.

(** A table compacted up to its current revision [4], on a connection
    whose second call (the [BeginTx]) is going to fail. *)
Definition marker_row : Row := mkRow compact_rev_key 0 0 0 4 0 None None.

Definition c_compacted : Conn :=
  mkConn (mkDB (<[1 := marker_row]> (<[4 := recreated_row]> ∅)) 4) None
         [None; Some (FaultCall (ErrDriver "disk I/O error"))] [].

(** The same table on a connection without faults. *)
Definition c_compacted_sound : Conn :=
  mkConn (mkDB (<[1 := marker_row]> (<[4 := recreated_row]> ∅)) 4) None [] [].


(** A predicate that accepts every error, and an engine that is busy for
    good. *)
Definition d_retry_all : Generic := mkGeneric false (Some (fun _ => true)) None 0 0 0.

Definition c_busy : Conn :=
  mkConn (mkDB ∅ 0) None (repeat (Some (FaultCall (ErrDriver "database is locked"))) 600) [].

Definition c_broken : Conn :=
  mkConn (mkDB ∅ 0) None [Some (FaultCall (ErrDriver "no such table"))] [].

(** The scenario after the second [Create], on a connection that answers
    the first call and is locked at the second. *)
Definition c_locked_once : Conn :=
  mkConn (db after_recreate) None
         [None; Some (FaultCall (ErrDriver "database is locked"))] [].

(** Two keys under one prefix. *)
Definition after_two : Conn :=
  (Create d0 "/a/y" "2" 0 (Create d0 "/a/x" "1" 0 c_empty).2).2.

(** ** Notions for the log as a whole *)

(** [m'] is [m], or [m] with one row more, under an id above every id of
    [m]. *)
Definition appended (m m' : gmap Z Row) : Prop :=
  m' = m
  \/ exists i r, (forall j x, m !! j = Some x -> j < i) /\ m' = <[i := r]> m.

(** Every row that compaction would follow back (not the marker, not a
    create, with a previous revision) points to a lower id, and the row
    under that id, if it is still there, has the same name. *)
Definition linked (m : gmap Z Row) : Prop :=
  forall j r, m !! j = Some r ->
    name r <> compact_rev_key -> created r = 0 -> prev_revision r <> 0 ->
    prev_revision r < j
    /\ forall p, m !! prev_revision r = Some p -> name p = name r.

(** The row [Update] inserts over the live row [prev] with id [preRev]. *)
Definition updated_row (key val : string) (ttl preRev : Z) (prev : Row) : Row :=
  mkRow key 0 0 (carry_create_revision preRev prev) preRev ttl (Some val) (value prev).

(** The tombstone [Delete] inserts over the live row [prev] with id
    [revision]. *)
Definition tombstone_row (revision : Z) (prev : Row) : Row :=
  mkRow (name prev) 0 1 (carry_create_revision revision prev) revision (lease prev)
        None (value prev).

(** [m'] has only rows of [m], under the same ids and names, and the rows
    that are not the marker are unchanged. *)
Definition shrunk (m m' : gmap Z Row) : Prop :=
  forall i r', m' !! i = Some r' ->
    exists r, m !! i = Some r /\ name r' = name r
              /\ (name r <> compact_rev_key -> r' = r).

(** ** The read path *)

(** [name >= start AND name < end_], on byte strings. *)
Definition in_range (start end_ n : string) : bool :=
  String.leb start n && String.ltb n end_.

(** The optional [AND mkv.id <= ?] of [listSQL]. *)
Definition up_to (revision : option Z) (i : Z) : bool :=
  match revision with
  | None => true
  | Some rev => i <=? rev
  end.

(** The name range of [AfterSQLPrefix], absent in [AfterSQL]. *)
Definition in_name_range (range : option (string * string)) (n : string) : bool :=
  match range with
  | None => true
  | Some (start, end_) => in_range start end_ n
  end.

(** [SELECT MAX(mkv.id) AS id FROM kine mkv WHERE ... GROUP BY mkv.name]
    over the rows [f] that pass the [WHERE]: for every name that occurs,
    the greatest id under that name. *)
Definition group_max_ids (f : gmap Z Row) : gset Z :=
  list_to_set (omap (fun ir : Z * Row => max_id_of (name ir.2) f) (map_to_list f)).

(** [ORDER BY name ASC, id ASC]. *)
Definition by_name_id (a b : Z * Row) : Prop :=
  String.ltb (name a.2) (name b.2) = true
  \/ (name a.2 = name b.2 /\ a.1 <= b.1).

#[global] Instance by_name_id_dec (a b : Z * Row) : Decision (by_name_id a b).
Proof. unfold by_name_id. apply _. Defined.

(** [ORDER BY id ASC]. *)
Definition by_id (a b : Z * Row) : Prop := a.1 <= b.1.

#[global] Instance by_id_dec (a b : Z * Row) : Decision (by_id a b).
Proof. unfold by_id. apply _. Defined.

(** The [LIMIT ?] that is appended when [limit > 0]. *)
Definition sql_limit {A : Type} (limit : option Z) (rows : list A) : list A :=
  match limit with
  | None => rows
  | Some n => take (Z.to_nat n) rows
  end.

(** [listSQL] and [revisionAfterSQL]: the rows of [kine] whose id is the
    greatest of their name among the rows in the name range (and, with a
    revision, with [id <= revision]); tombstones only with
    [includeDeleted]; ordered by name. *)
Definition list_rows (start end_ : string) (revision : option Z)
    (includeDeleted : bool) (m : gmap Z Row) : list (Z * Row) :=
  let f := filter (fun ir : Z * Row =>
                     in_range start end_ (name ir.2) = true
                     /\ up_to revision ir.1 = true) m in
  let joined := filter (fun ir : Z * Row => ir.1 ∈ group_max_ids f) m in
  let shown := filter (fun ir : Z * Row =>
                         deleted ir.2 = 0 \/ includeDeleted = true) joined in
  merge_sort by_name_id (map_to_list shown).

(** [AfterSQLPrefix] and [AfterSQL]: the rows with [id > rev] (in the name
    range, when there is one), ordered by id. *)
Definition after_rows (range : option (string * string)) (rev : Z)
    (m : gmap Z Row) : list (Z * Row) :=
  merge_sort by_id
    (map_to_list
       (filter (fun ir : Z * Row =>
                  rev < ir.1 /\ in_name_range range (name ir.2) = true) m)).

(** The statements of the read path that return rows of [kine], with
    their parameters; [limit] is the parameter of the appended [LIMIT ?]. *)
Inductive RowsQuery : Type :=
| GetCurrentSQL (start end_ : string) (includeDeleted : bool) (limit : option Z)
| ListRevisionStartSQL (start end_ : string) (revision : Z) (includeDeleted : bool)
    (limit : option Z)
| GetRevisionAfterSQL (start end_ : string) (revision : Z) (includeDeleted : bool)
    (limit : option Z)
| AfterSQLPrefix (start end_ : string) (rev : Z) (limit : option Z)
| AfterSQL (rev : Z) (limit : option Z).

Definition run_rows_query (q : RowsQuery) (d : DB) : list (Z * Row) :=
  match q with
  | GetCurrentSQL start end_ includeDeleted limit =>
      sql_limit limit (list_rows start end_ None includeDeleted (kine d))
  | ListRevisionStartSQL start end_ revision includeDeleted limit =>
      sql_limit limit (list_rows start end_ (Some revision) includeDeleted (kine d))
  | GetRevisionAfterSQL start end_ revision includeDeleted limit =>
      sql_limit limit (list_rows start end_ (Some revision) includeDeleted (kine d))
  | AfterSQLPrefix start end_ rev limit =>
      sql_limit limit (after_rows (Some (start, end_)) rev (kine d))
  | AfterSQL rev limit => sql_limit limit (after_rows None rev (kine d))
  end.

(** [CountCurrentSQL] and [CountRevisionSQL]:
    [SELECT (revSQL), COUNT(...) FROM (listSQL) c], one row. *)
Inductive CountQuery : Type :=
| CountCurrentSQL (start end_ : string) (includeDeleted : bool)
| CountRevisionSQL (start end_ : string) (revision : Z) (includeDeleted : bool).

Definition run_count_query (q : CountQuery) (d : DB) : list (option Z * Z) :=
  match q with
  | CountCurrentSQL start end_ includeDeleted =>
      [(sql_max (fun i _ => i) (kine d),
        Z.of_nat (length (list_rows start end_ None includeDeleted (kine d))))]
  | CountRevisionSQL start end_ revision includeDeleted =>
      [(sql_max (fun i _ => i) (kine d),
        Z.of_nat (length (list_rows start end_ (Some revision) includeDeleted (kine d))))]
  end.

(** [d.DB.QueryContext] at a statement of the read path, [run] being what
    the statement computes.  These calls consume a fault like the others;
    they are not entered in [trace]. *)
Definition ReadContext {A : Type} (run : DB -> A) (c : Conn) : (error + A) * Conn :=
  let c' := mkConn (db c) (tx_saved c) (tail (faults c)) (trace c) in
  match call_fault c with
  | Some e => (inl e, c')
  | None => (inr (run (db c)), c')
  end.

(** [d.query] at a statement of the read path: the same loop and the same
    annotation as [query]. *)
Definition query_read {A : Type} (d : Generic) (run : DB -> A) (c : Conn)
  : (option A * option error) * Conn :=
  let '((rows, err), retryCount, c') :=
    retry_loop d (ReadContext run) (Z.to_nat maxRetries) 0 (None, None) c in
  ((rows, annotate "query" retryCount err), c').

Arguments query_read : simpl never.

Definition x01 : string := String (ascii_of_nat 1) EmptyString.

Definition ListCurrent (d : Generic) (prefix startKey : string) (limit : Z)
    (includeDeleted : bool) (c : Conn)
  : (option (list (Z * Row)) * option error) * Conn :=
  let (start, end_) := getPrefixRange prefix in
  let start := if String.eqb startKey "" then start else startKey +:+ x01 in
  if limit >? 0
  then query_read d (run_rows_query (GetCurrentSQL start end_ includeDeleted (Some limit))) c
  else query_read d (run_rows_query (GetCurrentSQL start end_ includeDeleted None)) c.

Definition List (d : Generic) (prefix startKey : string) (limit revision : Z)
    (includeDeleted : bool) (c : Conn)
  : (option (list (Z * Row)) * option error) * Conn :=
  let (start, end_) := getPrefixRange prefix in
  if String.eqb startKey "" then
    if limit >? 0
    then query_read d (run_rows_query
           (ListRevisionStartSQL start end_ revision includeDeleted (Some limit))) c
    else query_read d (run_rows_query
           (ListRevisionStartSQL start end_ revision includeDeleted None)) c
  else
    if limit >? 0
    then query_read d (run_rows_query
           (GetRevisionAfterSQL (startKey +:+ x01) end_ revision includeDeleted
              (Some limit))) c
    else query_read d (run_rows_query
           (GetRevisionAfterSQL (startKey +:+ x01) end_ revision includeDeleted None)) c.

Definition AfterPrefix (d : Generic) (prefix : string) (rev limit : Z) (c : Conn)
  : (option (list (Z * Row)) * option error) * Conn :=
  let (start, end_) := getPrefixRange prefix in
  if limit >? 0
  then query_read d (run_rows_query (AfterSQLPrefix start end_ rev (Some limit))) c
  else query_read d (run_rows_query (AfterSQLPrefix start end_ rev None)) c.

Definition After (d : Generic) (rev limit : Z) (c : Conn)
  : (option (list (Z * Row)) * option error) * Conn :=
  if limit >? 0
  then query_read d (run_rows_query (AfterSQL rev (Some limit))) c
  else query_read d (run_rows_query (AfterSQL rev None)) c.

Definition ErrNoRows : error := ErrMsg "sql: no rows in result set".

(** The scan of [CountCurrent] and [Count]: [rev] is a [sql.NullInt64]. *)
Definition scan_count (rows : option (list (option Z * Z))) (err : option error)
  : Z * Z * option error :=
  match err with
  | Some err => (0, 0, Some err)
  | None =>
      match default [] rows with
      | [] => (0, 0, Some ErrNoRows)
      | (rev, id) :: _ => (default 0 rev, id, None)
      end
  end.

Definition CountCurrent (d : Generic) (prefix startKey : string) (c : Conn)
  : (Z * Z * option error) * Conn :=
  let (start, end_) := getPrefixRange prefix in
  let start := if String.eqb startKey "" then start else startKey +:+ x01 in
  let '((rows, err), c') :=
    query_read d (run_count_query (CountCurrentSQL start end_ false)) c in
  (scan_count rows err, c').

Definition Count (d : Generic) (prefix startKey : string) (revision : Z) (c : Conn)
  : (Z * Z * option error) * Conn :=
  let (start, end_) := getPrefixRange prefix in
  let start := if String.eqb startKey "" then start else startKey +:+ x01 in
  let '((rows, err), c') :=
    query_read d (run_count_query (CountRevisionSQL start end_ revision false)) c in
  (scan_count rows err, c').

(** [CurrentRevision]: [MAX(id)] is scanned into a plain [int64], which
    [database/sql] refuses for [NULL]. *)
Definition CurrentRevision (d : Generic) (c : Conn) : (Z * option error) * Conn :=
  let '((rows, err), c') := query d revSQL c in
  (match err with
   | Some err => (0, Some err)
   | None =>
       match default [] rows with
       | [] =>
           (0, Some (ErrMsg
              "can't get current revision: aggregate query returned empty set"))
       | [Some id] :: _ => (id, None)
       | [None] :: _ =>
           (0, Some (ErrMsg "sql: Scan error: converting NULL to int64 is unsupported"))
       | _ :: _ => (0, Some (ErrMsg "sql: wrong number of destination arguments in Scan"))
       end
   end, c').

(** [DeleteRevision]. *)
Definition DeleteRevision (d : Generic) (revision : Z) (c : Conn) : option error * Conn :=
  let '((_, err), c') := execute d (DeleteRevSQL revision) c in
  (err, c').

(** ** Notions for the read path *)

(** The row [r] with id [i] is what a read of the name range at a revision
    shows for its name: it is in the table, its name is in the range, it
    is the row with the greatest id of its name among those at or below the
    revision, and it is not a tombstone unless tombstones were asked for. *)
Definition visible_at (start end_ : string) (revision : option Z)
    (includeDeleted : bool) (m : gmap Z Row) (i : Z) (r : Row) : Prop :=
  m !! i = Some r
  /\ in_range start end_ (name r) = true
  /\ up_to revision i = true
  /\ (forall j x, m !! j = Some x -> name x = name r ->
                  up_to revision j = true -> j <= i)
  /\ (deleted r = 0 \/ includeDeleted = true).

(** Strictly ascending names, strictly ascending ids. *)
Definition name_lt (a b : Z * Row) : Prop := String.ltb (name a.2) (name b.2) = true.

Definition id_lt (a b : Z * Row) : Prop := a.1 < b.1.

(** The start of the range [ListCurrent], [List], [CountCurrent] and
    [Count] read: the start of the prefix range, or just past [startKey]. *)
Definition read_start (prefix startKey : string) : string :=
  if String.eqb startKey "" then (getPrefixRange prefix).1 else startKey +:+ x01.

(** ** Statement texts *)

(** [Stripped.String]: the newlines are removed, then every run of tabs
    and spaces ([regexp "[\t ]+"]) is replaced by one space.  [in_run]
    tells whether the byte before was part of a run. *)
Definition is_blank (c : ascii) : bool := Ascii.eqb c "009" || Ascii.eqb c " ".

Fixpoint remove_newlines (s : string) : string :=
  match s with
  | EmptyString => EmptyString
  | String c rest =>
      if Ascii.eqb c "010" then remove_newlines rest
      else String c (remove_newlines rest)
  end.

Fixpoint collapse_blanks (in_run : bool) (s : string) : string :=
  match s with
  | EmptyString => EmptyString
  | String c rest =>
      if is_blank c
      then if in_run then collapse_blanks true rest
           else String " " (collapse_blanks true rest)
      else String c (collapse_blanks false rest)
  end.

Definition Stripped_String (s : string) : string :=
  collapse_blanks false (remove_newlines s).

(** [strconv.Itoa], and the [%d] of [fmt.Sprintf]. *)
Definition Itoa (n : Z) : string := DecimalString.NilZero.string_of_int (Z.to_int n).

(** [regex.ReplaceAllStringFunc(sql, func)] of [q], for the regexp [\?]:
    [n] is the counter the closure increments before it prints it. *)
Fixpoint q_replace (param : string) (numbered : bool) (n : Z) (sql : string) : string :=
  match sql with
  | EmptyString => EmptyString
  | String c rest =>
      if Ascii.eqb c "?"
      then if numbered
           then param +:+ Itoa (n + 1) +:+ q_replace param numbered (n + 1) rest
           else param +:+ q_replace param numbered n rest
      else String c (q_replace param numbered n rest)
  end.

Definition q (sql param : string) (numbered : bool) : string :=
  if String.eqb param "?" && negb numbered then sql
  else q_replace param numbered 0 sql.

(** The number of [?] in a text. *)
Fixpoint count_marks (s : string) : Z :=
  match s with
  | EmptyString => 0
  | String c rest => (if Ascii.eqb c "?" then 1 else 0) + count_marks rest
  end.

(** A text without newline and tab in which no two spaces are adjacent;
    [after_space] tells whether the byte before was a space. *)
Fixpoint single_spaced (after_space : bool) (s : string) : bool :=
  match s with
  | EmptyString => true
  | String c rest =>
      if Ascii.eqb c "010" || Ascii.eqb c "009" then false
      else if Ascii.eqb c " " then negb after_space && single_spaced true rest
      else single_spaced false rest
  end.

(** ** Gap rows *)

(** [fmt.Sprintf("gap-%d", revision)]. *)
Definition fill_name (revision : Z) : string := "gap-" +:+ Itoa revision.

(** The row [Fill] hands to [FillSQL]:
    [revision, "gap-<revision>", 0, 1, 0, 0, 0, nil, nil]. *)
Definition fill_row (revision : Z) : Row :=
  mkRow (fill_name revision) 0 1 0 0 0 None None.

(** [IsFill]: [strings.HasPrefix(key, "gap-")]. *)
Definition IsFill (key : string) : bool := String.prefix "gap-" key.

(** Modelled from the spec: [FillSQL] inserts under an explicit id; ids
    are unique, and the spec gives the collision with an existing row as a
    constraint violation.  The counter follows an explicit id above it. *)
Definition ErrConstraint : error := ErrDriver "UNIQUE constraint failed: kine.id".

Definition filled (revision : Z) (d : DB) : DB :=
  mkDB (<[revision := fill_row revision]> (kine d)) (Z.max (seq d) revision).

Definition run_fill (revision : Z) (d : DB) : error + DB * (Z * Z) :=
  match kine d !! revision with
  | Some _ => inl ErrConstraint
  | None => inr (filled revision d, (1, revision))
  end.

(** [d.DB.ExecContext] at [FillSQL].  The call consumes a fault like the
    others; it is not entered in [trace]. *)
Definition FillContext (revision : Z) (c : Conn) : (error + Result) * Conn :=
  let c' := mkConn (db c) (tx_saved c) (tail (faults c)) (trace c) in
  match call_fault c with
  | Some e => (inl e, c')
  | None =>
      match run_fill revision (db c) with
      | inl e => (inl e, c')
      | inr (d', r) =>
          (inr (result_of c r), mkConn d' (tx_saved c) (tail (faults c)) (trace c))
      end
  end.

(** [Fill]: [d.execute] at [FillSQL], the result dropped. *)
Definition Fill (d : Generic) (revision : Z) (c : Conn) : option error * Conn :=
  let '((_, err), retryCount, c') :=
    retry_loop d (FillContext revision) (Z.to_nat maxRetries) 0 (None, None) c in
  (annotate "exec" retryCount err, c').

(** ** Notions for the connection bootstrap *)

(** The idle-connection count [configureConnectionPooling] settles on. *)
Definition normal_MaxIdle (n : Z) : Z :=
  if n <? 0 then 0 else if n =? 0 then defaultMaxIdleConns else n.

(** The first [k] attempts of [Open] fail and none finds the context
    done. *)
Definition attempts_fail (env : Env) (k : nat) : Prop :=
  forall j, (j < k)%nat -> (openAndTest env j).2 <> None /\ ctx_Done env j = false.

(** An engine that comes up at the third attempt, after a refused
    connection and a failed ping. *)
Definition env_slow : Env :=
  mkEnv (fun i => if (i =? 0)%nat then Some (ErrDriver "connection refused") else None)
        (fun i j => if ((i =? 1) && (j =? 2))%nat then Some (ErrDriver "bad connection")
                    else None)
        (fun _ => false).

(** * Facts about the table *)

Lemma sql_max_spec (e : Z -> Row -> Z) (m : gmap Z Row) :
  match sql_max e m with
  | None => m = ∅
  | Some a =>
      (exists i r, m !! i = Some r /\ e i r = a)
      /\ forall i r, m !! i = Some r -> e i r <= a
  end.
Proof.
  unfold sql_max.
  apply (map_fold_weak_ind
           (fun b m => match b with
                       | None => m = ∅
                       | Some a =>
                           (exists i r, m !! i = Some r /\ e i r = a)
                           /\ forall i r, m !! i = Some r -> e i r <= a
                       end)).
  - reflexivity.
  - intros i x m' acc Hi IH. split.
    + destruct acc as [a|].
      * destruct IH as [(j & r & Hj & Hr) _].
        destruct (Z.max_spec (e i x) a) as [[_ ->]|[_ ->]].
        -- exists j, r. split; [|exact Hr].
           rewrite lookup_insert_ne; [exact Hj|]. intros ->. congruence.
        -- exists i, x. now rewrite lookup_insert_eq.
      * exists i, x. now rewrite lookup_insert_eq.
    + intros j r Hj. destruct (decide (i = j)) as [->|Hne].
      * rewrite lookup_insert_eq in Hj. injection Hj as <-.
        destruct acc; lia.
      * rewrite lookup_insert_ne in Hj by exact Hne.
        destruct acc as [a|].
        -- destruct IH as [_ IH]. specialize (IH j r Hj). lia.
        -- subst m'. rewrite lookup_empty in Hj. discriminate.
Qed.

Lemma where_name_lookup (key : string) (m : gmap Z Row) (i : Z) (r : Row) :
  where_name key m !! i = Some r <-> m !! i = Some r /\ name r = key.
Proof. unfold where_name. rewrite map_lookup_filter_Some. simpl. tauto. Qed.

Lemma max_row_of_Some (key : string) (m : gmap Z Row) (i : Z) (r : Row) :
  max_row_of key m = Some (i, r) <-> latest_row m key i r.
Proof.
  unfold max_row_of, max_id_of, latest_row.
  pose proof (sql_max_spec (fun i _ => i) (where_name key m)) as H.
  destruct (sql_max _ _) as [a|].
  - destruct H as [(j & x & Hj & <-) Hmax].
    apply where_name_lookup in Hj as [Hj Hn]. rewrite Hj. split.
    + intros [= <- <-]. repeat split; [exact Hj|exact Hn|].
      intros j' r' Hj' Hn'. apply (Hmax j' r'). now apply where_name_lookup.
    + intros (Hi & Hni & Hle).
      assert (i <= j) by (apply (Hmax i r); now apply where_name_lookup).
      assert (j <= i) by (apply (Hle j x); assumption).
      assert (i = j) as -> by lia. congruence.
  - split; [discriminate|]. intros (Hi & Hni & _).
    assert (where_name key m !! i = Some r) as Hw by now apply where_name_lookup.
    rewrite H, lookup_empty in Hw. discriminate.
Qed.

Lemma max_row_of_None (key : string) (m : gmap Z Row) :
  max_row_of key m = None <-> no_row m key.
Proof.
  split.
  - intros Hnone i r Hi Hn.
    pose proof (sql_max_spec (fun i _ => i) (where_name key m)) as H.
    unfold max_row_of, max_id_of in Hnone.
    destruct (sql_max _ _) as [a|].
    + destruct H as [(j & x & Hj & <-) _].
      apply where_name_lookup in Hj as [Hj _]. rewrite Hj in Hnone. discriminate.
    + assert (where_name key m !! i = Some r) as Hw by now apply where_name_lookup.
      rewrite H, lookup_empty in Hw. discriminate.
  - intros Hno. destruct (max_row_of key m) as [[i r]|] eqn:E; [|reflexivity].
    apply max_row_of_Some in E as (Hi & Hn & _). now destruct (Hno i r Hi).
Qed.

Lemma latest_row_unique (m : gmap Z Row) (key : string) (i j : Z) (r r' : Row) :
  latest_row m key i r -> latest_row m key j r' -> i = j /\ r = r'.
Proof.
  intros H1 H2. apply max_row_of_Some in H1, H2. split; congruence.
Qed.

Lemma next_id_fresh (d : DB) (i : Z) (r : Row) :
  kine d !! i = Some r -> i < next_id d.
Proof.
  intros Hi. unfold next_id.
  pose proof (sql_max_spec (fun i _ => i) (kine d)) as H.
  destruct (sql_max _ _) as [a|]; simpl.
  - destruct H as [_ H]. specialize (H i r Hi). simpl in H. lia.
  - rewrite H, lookup_empty in Hi. discriminate.
Qed.

Lemma next_id_None (d : DB) : kine d !! next_id d = None.
Proof.
  destruct (kine d !! next_id d) as [r|] eqn:E; [|reflexivity].
  apply next_id_fresh in E. lia.
Qed.

Lemma next_id_seq (d : DB) : seq d < next_id d.
Proof. unfold next_id. lia. Qed.

(** * Facts about the retry loop *)

Lemma fault_at_0 (c : Conn) : fault_at c 0 = call_fault c.
Proof.
  unfold fault_at, call_fault. destruct (faults c) as [|[[e|e|e]|] fs]; reflexivity.
Qed.

Lemma fault_at_after_failure (ev : Call) (c : Conn) (i : nat) :
  fault_at (after_failure ev c) i = fault_at c (S i).
Proof.
  unfold fault_at, after_failure; simpl. destruct (faults c); reflexivity.
Qed.

Lemma after_failures_S (ev : Call) (n : nat) (c : Conn) :
  after_failures ev (S n) c = after_failures ev n (after_failure ev c).
Proof.
  unfold after_failures. induction n as [|n IH]; [reflexivity|].
  change (Nat.iter (S (S n)) (after_failure ev) c)
    with (after_failure ev (Nat.iter (S n) (after_failure ev) c)).
  now rewrite IH.
Qed.

Lemma after_failures_db (ev : Call) (n : nat) (c : Conn) :
  db (after_failures ev n c) = db c /\
  tx_saved (after_failures ev n c) = tx_saved c /\
  trace (after_failures ev n c) = trace c ++ repeat ev n /\
  faults (after_failures ev n c) = drop n (faults c).
Proof.
  induction n as [|n IH]; simpl.
  - now rewrite app_nil_r, drop_0.
  - destruct IH as (-> & -> & -> & ->). repeat split.
    + rewrite <- app_assoc. f_equal.
      symmetry. apply (repeat_cons n ev).
    + clear. generalize (faults c) as fs. induction n as [|n IHn]; intros fs.
      * reflexivity.
      * destruct fs as [|f fs]; [reflexivity|]. apply (IHn fs).
Qed.

Lemma fault_at_after_failures (ev : Call) (n : nat) (c : Conn) :
  call_fault (after_failures ev n c) = fault_at c n.
Proof.
  revert c. induction n as [|n IH]; intros c.
  - symmetry. apply fault_at_0.
  - rewrite after_failures_S, IH. apply fault_at_after_failure.
Qed.

(** A run under one classification is a run under every weaker one. *)
Lemma retry_run_by_weaken (accepts rejects accepts' rejects' : error -> Prop)
    (ev : Call) (op : string) (c c' : Conn) (err : option error) :
  (forall e, accepts e -> accepts' e) ->
  (forall e, rejects e -> rejects' e) ->
  retry_run_by accepts rejects ev op c c' err ->
  retry_run_by accepts' rejects' ev op c c' err.
Proof.
  intros Ha Hr (n & Hn1 & Hn2 & Ht & Hpre & Hlast).
  exists n. split; [exact Hn1|]. split; [exact Hn2|]. split; [exact Ht|]. split.
  - intros i Hi. destruct (Hpre i Hi) as (e & He & Hacc). exists e. auto.
  - destruct err as [err|]; [|exact Hlast].
    destruct Hlast as (e & He & [[Hrej ->]|(Hacc & Hmax & ->)]); exists e;
      (split; [exact He|]); [left|right]; auto.
Qed.

Section RetryLoop.

Context {A : Type} (d : Generic) (call : Conn -> (error + A) * Conn) (ev : Call).

Hypothesis call_fails :
  forall c e, call_fault c = Some e -> call c = (inl e, after_failure ev c).
Hypothesis call_succeeds :
  forall c, call_fault c = None -> exists r c', call c = (inr r, c').

(** The loop makes [n] attempts that fail with a retryable error, then one
    more that decides the result. *)
Lemma retry_loop_run (fuel : nat) (k : Z) (last : option A * option error) (c : Conn) :
  0 <= k < maxRetries -> maxRetries - k <= Z.of_nat fuel ->
  exists n : nat,
    k + Z.of_nat n < maxRetries /\
    (forall i, (i < n)%nat -> exists e, fault_at c i = Some e /\ retryable d e = true) /\
    ((exists r c', fault_at c n = None /\
                   call (after_failures ev n c) = (inr r, c') /\
                   retry_loop d call fuel k last c = ((Some r, None), k + Z.of_nat n, c'))
     \/ (exists e, fault_at c n = Some e /\ retryable d e = false /\
                   retry_loop d call fuel k last c
                   = ((None, Some e), k + Z.of_nat n, after_failures ev (S n) c))
     \/ (exists e, fault_at c n = Some e /\ retryable d e = true /\
                   k + Z.of_nat n + 1 = maxRetries /\
                   retry_loop d call fuel k last c
                   = ((None, Some e), maxRetries, after_failures ev (S n) c))).
Proof.
  revert k last c. induction fuel as [|fuel IH]; intros k last c Hk Hfuel.
  - simpl in Hfuel. lia.
  - simpl. destruct (Z.ltb_spec k maxRetries) as [_|?]; [|lia].
    destruct (call_fault c) as [e|] eqn:Hf.
    + rewrite (call_fails c e Hf).
      destruct (retryable d e) eqn:Hr.
      * destruct (Z.eq_dec (k + 1) maxRetries) as [Hlast|Hmore].
        -- exists 0%nat. split; [lia|]. split; [intros i Hi; lia|].
           right; right. exists e. rewrite fault_at_0. repeat split; try assumption.
           ++ lia.
           ++ destruct fuel as [|fuel']; simpl.
              ** now rewrite Hlast.
              ** destruct (Z.ltb_spec (k + 1) maxRetries) as [?|_]; [lia|].
                 now rewrite Hlast.
        -- destruct (IH (k + 1) (None, Some e) (after_failure ev c)) as (n & Hn & Hpre & Hres);
             [lia|lia|].
           exists (S n). split; [lia|]. split.
           ++ intros [|i] Hi.
              ** exists e. now rewrite fault_at_0.
              ** rewrite <- fault_at_after_failure with (ev := ev). apply Hpre. lia.
           ++ rewrite !after_failures_S.
              rewrite <- !fault_at_after_failure with (ev := ev).
              replace (k + Z.of_nat (S n)) with (k + 1 + Z.of_nat n) by lia.
              exact Hres.
      * exists 0%nat. split; [lia|]. split; [intros i Hi; lia|].
        right; left. exists e. rewrite fault_at_0, Z.add_0_r. now repeat split.
    + destruct (call_succeeds c Hf) as (r & c' & Hc).
      exists 0%nat. split; [lia|]. split; [intros i Hi; lia|].
      left. exists r, c'. rewrite fault_at_0, Z.add_0_r. simpl. rewrite Hc. now repeat split.
Qed.

Hypothesis call_recorded :
  forall c r c', call c = (inr r, c') -> trace c' = trace c ++ [ev].

Lemma repeat_snoc (n : nat) : repeat ev n ++ [ev] = repeat ev (S n).
Proof. symmetry. apply (repeat_cons n ev). Qed.

Lemma retry_loop_retry_run (op : string) (c : Conn) :
  let '((r, err), k, c') :=
    retry_loop d call (Z.to_nat maxRetries) 0 (None, None) c in
  retry_run_by (fun e => retryable d e = true) (fun e => retryable d e = false)
    ev op c c' (annotate op k err).
Proof.
  destruct (retry_loop_run (Z.to_nat maxRetries) 0 (None, None) c)
    as (n & Hn & Hpre & Hres); [unfold maxRetries; lia|unfold maxRetries; lia|].
  assert (forall i, (i < S n - 1)%nat ->
                    exists e, fault_at c i = Some e /\ retryable d e = true) as Hpre'.
  { intros i Hi. apply Hpre. lia. }
  assert (S n - 1 = n)%nat as Hsn by lia.
  destruct Hres as [(r & c' & Hf & Hc & ->)|[(e & Hf & Hr & ->)|(e & Hf & Hr & Hk & ->)]];
    exists (S n); (split; [lia|]); (split; [lia|]); (split; [|split; [exact Hpre'|]]).
  - rewrite (call_recorded _ _ _ Hc).
    destruct (after_failures_db ev n c) as (_ & _ & -> & _).
    now rewrite <- app_assoc, repeat_snoc.
  - unfold annotate. now rewrite Hsn.
  - now destruct (after_failures_db ev (S n) c) as (_ & _ & -> & _).
  - unfold annotate. rewrite Hsn. exists e. split; [exact Hf|]. left. split; [exact Hr|].
    f_equal. lia.
  - now destruct (after_failures_db ev (S n) c) as (_ & _ & -> & _).
  - unfold annotate. rewrite Hsn. exists e. split; [exact Hf|]. right.
    repeat split; [exact Hr|lia].
Qed.

End RetryLoop.

Lemma QueryContext_fails (q : Query) (c : Conn) (e : error) :
  call_fault c = Some e -> QueryContext q c = (inl e, after_failure (CallQuery q) c).
Proof. intros H. unfold QueryContext. now rewrite H. Qed.

Lemma QueryContext_succeeds (q : Query) (c : Conn) :
  call_fault c = None ->
  exists r c', QueryContext q c = (inr r, c').
Proof. intros H. unfold QueryContext. rewrite H. eauto. Qed.

Lemma QueryContext_recorded (q : Query) (c : Conn) r (c' : Conn) :
  QueryContext q c = (inr r, c') -> trace c' = trace c ++ [CallQuery q].
Proof.
  unfold QueryContext. destruct (call_fault c); intros [= <- <-]; reflexivity.
Qed.

Lemma ExecContext_fails (s : Stmt) (c : Conn) (e : error) :
  call_fault c = Some e -> ExecContext s c = (inl e, after_failure (CallExec s) c).
Proof. intros H. unfold ExecContext. now rewrite H. Qed.

Lemma ExecContext_succeeds (s : Stmt) (c : Conn) :
  call_fault c = None ->
  exists r c', ExecContext s c = (inr r, c').
Proof.
  intros H. unfold ExecContext. rewrite H. destruct (run_stmt s (db c)). eauto.
Qed.

Lemma ExecContext_recorded (s : Stmt) (c : Conn) r (c' : Conn) :
  ExecContext s c = (inr r, c') -> trace c' = trace c ++ [CallExec s].
Proof.
  unfold ExecContext. destruct (call_fault c); [discriminate|].
  destruct (run_stmt s (db c)). intros [= <- <-]; reflexivity.
Qed.

Lemma query_retry_run (d : Generic) (q : Query) (c : Conn) :
  retry_run_by (fun e => retryable d e = true) (fun e => retryable d e = false)
    (CallQuery q) "query" c (query d q c).2 (query d q c).1.2.
Proof.
  pose proof (retry_loop_retry_run d (QueryContext q) (CallQuery q)
                (QueryContext_fails q) (QueryContext_succeeds q)
                (QueryContext_recorded q) "query" c) as H.
  unfold query. destruct (retry_loop _ _ _ _ _ _) as [[[rows err] k] c']. exact H.
Qed.

Lemma execute_retry_run (d : Generic) (s : Stmt) (c : Conn) :
  retry_run_by (fun e => retryable d e = true) (fun e => retryable d e = false)
    (CallExec s) "exec" c (execute d s c).2 (execute d s c).1.2.
Proof.
  pose proof (retry_loop_retry_run d (ExecContext s) (CallExec s)
                (ExecContext_fails s) (ExecContext_succeeds s)
                (ExecContext_recorded s) "exec" c) as H.
  unfold execute. destruct (retry_loop _ _ _ _ _ _) as [[[rows err] k] c']. exact H.
Qed.

(** * Facts about the three write operations *)

Lemma Delete_unfold (d : Generic) (key : string) (revision : Z) (c : Conn) :
  Delete d key revision c
  = (finish_op (execute d (DeleteSQL key revision) c).1,
     (execute d (DeleteSQL key revision) c).2).
Proof.
  unfold Delete, finish_op.
  destruct (execute d (DeleteSQL key revision) c) as [[res [e|]] c']; reflexivity.
Qed.

Lemma Create_unfold (d : Generic) (key val : string) (ttl : Z) (c : Conn) :
  Create d key val ttl c
  = (translate_result d (finish_op (execute d (CreateSQL key ttl val key) c).1),
     (execute d (CreateSQL key ttl val key) c).2).
Proof.
  unfold Create, finish_op, translate_result.
  destruct (execute d (CreateSQL key ttl val key) c) as [[res [e|]] c']; simpl;
    [reflexivity|].
  destruct res as [[[e|n] l]|]; simpl; try reflexivity.
  destruct (n =? 0); [reflexivity|]. destruct l; reflexivity.
Qed.

Lemma Update_unfold (d : Generic) (key val : string) (preRev ttl : Z) (c : Conn) :
  Update d key val preRev ttl c
  = (translate_result d (finish_op (execute d (UpdateSQL key ttl val key preRev) c).1),
     (execute d (UpdateSQL key ttl val key preRev) c).2).
Proof.
  unfold Update, finish_op, translate_result.
  destruct (execute d (UpdateSQL key ttl val key preRev) c) as [[res [e|]] c']; simpl;
    [reflexivity|].
  destruct res as [[[e|n] l]|]; simpl; try reflexivity.
  destruct (n =? 0); [reflexivity|]. destruct l; reflexivity.
Qed.

Lemma fault_at_elem (c : Conn) (n : nat) (e : error) :
  fault_at c n = Some e -> Some (FaultCall e) ∈ faults c.
Proof.
  unfold fault_at. destruct (faults c !! n) as [[[e'|e'|e']|]|] eqn:E; try discriminate.
  intros [= ->]. apply list_elem_of_lookup. eauto.
Qed.

Lemma head_drop_elem {X : Type} (l : list X) (n : nat) (x : X) (rest : list X) :
  drop n l = x :: rest -> x ∈ l.
Proof.
  intros H. apply list_elem_of_lookup. exists n.
  rewrite <- (Nat.add_0_r n), <- lookup_drop, H. reflexivity.
Qed.

(** The four ways an operation can go, with where its error came from. *)
Lemma op_cases (d : Generic) (s : Stmt) (c : Conn) :
  let out := execute d s c in
  let r := run_stmt s (db c) in
  (db out.2 = db c /\
   exists e0 k, Some (FaultCall e0) ∈ faults c /\
                finish_op out.1 = (0, false, Some (ErrWrap "exec" k e0)))
  \/ (db out.2 = r.1 /\
      exists e0, Some (FaultRowsAffected e0) ∈ faults c /\
                 finish_op out.1 = (0, false, Some e0))
  \/ (db out.2 = r.1 /\ r.2.1 <> 0 /\
      exists e0, Some (FaultLastInsertId e0) ∈ faults c /\
                 finish_op out.1 = (0, true, Some e0))
  \/ (db out.2 = r.1 /\ finish_op out.1 = clean_result r.2).
Proof.
  intros out r. subst out. unfold execute.
  destruct (retry_loop_run d (ExecContext s) (CallExec s)
              (ExecContext_fails s) (ExecContext_succeeds s)
              (Z.to_nat maxRetries) 0 (None, None) c)
    as (n & Hn & _ & Hres); [unfold maxRetries; lia|unfold maxRetries; lia|].
  destruct Hres as [(res & c' & Hf & Hc & ->)|[(e & Hf & Hr & ->)|(e & Hf & Hr & Hk & ->)]].
  - right. simpl.
    destruct (after_failures_db (CallExec s) n c) as (Hdb & _ & _ & Hfs).
    unfold ExecContext in Hc. rewrite fault_at_after_failures, Hf, Hdb in Hc.
    fold r in Hc. destruct r as [d' [cnt i]] eqn:Er. injection Hc as <- <-. simpl.
    unfold result_of, finish_op, clean_result. rewrite Hfs. simpl.
    destruct (drop n (faults c)) as [|[[e|e|e]|] rest] eqn:Ed; simpl.
    + right; right. split; [reflexivity|]. now destruct (cnt =? 0).
    + right; right. split; [reflexivity|]. now destruct (cnt =? 0).
    + left. split; [reflexivity|]. exists e. split; [|reflexivity].
      eapply head_drop_elem; eassumption.
    + destruct (cnt =? 0) eqn:Ec.
      * right; right. now split.
      * right; left. split; [reflexivity|]. split; [now apply Z.eqb_neq|].
        exists e. split; [|reflexivity]. eapply head_drop_elem; eassumption.
    + right; right. split; [reflexivity|]. now destruct (cnt =? 0).
  - left. simpl. split; [apply (after_failures_db (CallExec s) (S n) c)|].
    exists e, (0 + Z.of_nat n). split; [now apply fault_at_elem with n|reflexivity].
  - left. simpl. split; [apply (after_failures_db (CallExec s) (S n) c)|].
    exists e, maxRetries. split; [now apply fault_at_elem with n|reflexivity].
Qed.

Lemma op_fault_free (d : Generic) (s : Stmt) (c : Conn) :
  fault_free c ->
  db (execute d s c).2 = (run_stmt s (db c)).1 /\
  finish_op (execute d s c).1 = clean_result (run_stmt s (db c)).2.
Proof.
  intros Hff. unfold fault_free in Hff.
  destruct (op_cases d s c) as [(_ & e & k & Hin & _)|[(_ & e & Hin & _)|[(_ & _ & e & Hin & _)|H]]];
    try (rewrite Hff in Hin; now apply elem_of_nil in Hin).
  exact H.
Qed.

Lemma op_no_error (d : Generic) (s : Stmt) (c : Conn) :
  (finish_op (execute d s c).1).2 = None ->
  db (execute d s c).2 = (run_stmt s (db c)).1 /\
  finish_op (execute d s c).1 = clean_result (run_stmt s (db c)).2.
Proof.
  intros Hnone.
  destruct (op_cases d s c)
    as [(_ & e & k & _ & H)|[(_ & e & _ & H)|[(_ & _ & e & _ & H)|H]]];
    try (rewrite H in Hnone; discriminate).
  exact H.
Qed.

Lemma translate_result_no_error (d : Generic) (r : Z * bool * option error) :
  (translate_result d r).2 = None -> r.2 = None /\ translate_result d r = r.
Proof.
  destruct r as [[rev ok] [e|]]; simpl; [discriminate|]. intros _. now split.
Qed.

Lemma insert_fresh_ne (m : gmap Z Row) (i : Z) (r : Row) :
  m !! i = None -> <[i := r]> m <> m.
Proof.
  intros Hi Heq. apply (f_equal (fun x => x !! i)) in Heq.
  rewrite lookup_insert_eq in Heq. congruence.
Qed.

(** ** Create *)

(** C1.  Whenever [Create] returns without an error: if the key has no row,
    or the row with its greatest id is a tombstone ([deleted = 1]), the
    table gains exactly one row, stored under the returned revision, with
    [created = 1] and [deleted = 0], and [succeeded] is true; conversely the
    table gains such a row only in that situation; and when the key's
    latest row is live nothing is inserted and [succeeded] is false. *)
Theorem Create_inserts_iff_no_live_row
    (d : Generic) (key val : string) (ttl : Z) (c c' : Conn)
    (rev : Z) (succeeded : bool) :
  Create d key val ttl c = ((rev, succeeded, None), c') ->
  let m := kine (db c) in
  let m' := kine (db c') in
  let creatable :=
    no_row m key \/ exists i r, latest_row m key i r /\ deleted r = 1 in
  (creatable ->
   exists r, m !! rev = None /\ m' = <[rev := r]> m /\
             name r = key /\ created r = 1 /\ deleted r = 0 /\
             succeeded = true)
  /\ ((exists i r, m !! i = None /\ m' = <[i := r]> m /\
                   created r = 1 /\ deleted r = 0) -> creatable)
  /\ ((exists i, live_at m key i) -> m' = m /\ rev = 0 /\ succeeded = false).
Proof.
  intros Hc m m' creatable. rewrite Create_unfold in Hc.
  assert (translate_result d
            (finish_op (execute d (CreateSQL key ttl val key) c).1)
          = (rev, succeeded, None)) as Hres by congruence.
  assert ((execute d (CreateSQL key ttl val key) c).2 = c') as Hc' by congruence.
  clear Hc.
  assert ((translate_result d
             (finish_op (execute d (CreateSQL key ttl val key) c).1)).2 = None)
    as Hnone by now rewrite Hres.
  apply translate_result_no_error in Hnone as [Hnone Hid].
  rewrite Hid in Hres. clear Hid.
  destruct (op_no_error d _ c Hnone) as [Hdb Hclean].
  rewrite Hclean in Hres. rewrite Hc' in Hdb. clear Hclean Hnone Hc'.
  subst m m' creatable. rewrite Hdb. clear Hdb. simpl in *.
  destruct (max_row_of key (kine (db c))) as [[j r0]|] eqn:Emax.
  - apply max_row_of_Some in Emax.
    destruct (Z.eqb_spec (deleted r0) 1) as [Hdel|Hdel].
    + unfold clean_result in Hres; simpl in Hres. injection Hres as <- <-.
      split; [|split].
      * intros _. eexists. split; [apply next_id_None|]. repeat split.
      * intros _. right. eauto.
      * intros (i & r & Hlive & Hzero).
        destruct (latest_row_unique _ _ _ _ _ _ Emax Hlive) as [_ <-]. lia.
    + unfold clean_result in Hres; simpl in Hres. injection Hres as <- <-.
      split; [|split].
      * intros [Hno|(i & r & Hl & Hd)].
        -- destruct Emax as (Hj & Hn & _). now destruct (Hno j r0 Hj).
        -- destruct (latest_row_unique _ _ _ _ _ _ Emax Hl) as [_ <-]. contradiction.
      * intros (i & r & Hi & Heq & _). symmetry in Heq.
        now apply insert_fresh_ne in Heq.
      * intros _. repeat split.
  - apply max_row_of_None in Emax.
    unfold clean_result in Hres; simpl in Hres. injection Hres as <- <-.
    split; [|split].
    + intros _. eexists. split; [apply next_id_None|]. repeat split.
    + intros _. now left.
    + intros (i & r & (Hi & Hn & _) & _). now destruct (Emax i r Hi).
Qed.

(** ** Compare-and-swap misses *)

Lemma op_error_from_fault (d : Generic) (s : Stmt) (c : Conn) (e : error) :
  (finish_op (execute d s c).1).2 = Some e -> from_fault c e.
Proof.
  intros He. unfold from_fault.
  destruct (op_cases d s c)
    as [(_ & e0 & k & Hin & H)|[(_ & e0 & Hin & H)|[(_ & _ & e0 & Hin & H)|[_ H]]]];
    rewrite H in He; simpl in He.
  - injection He as <-. left. eauto.
  - injection He as <-. right. eauto.
  - injection He as <-. right. eauto.
  - unfold clean_result in He. destruct (_ =? 0); discriminate.
Qed.

Lemma op_miss (d : Generic) (s : Stmt) (c : Conn) (tr : error -> error)
    (res : Z * bool * option error) :
  run_stmt s (db c) = insert_none (db c) ->
  res.1 = (finish_op (execute d s c).1).1 ->
  res.2 = match (finish_op (execute d s c).1).2 with
          | None => None
          | Some e => Some (tr e)
          end ->
  miss_outcome tr c (res, (execute d s c).2).
Proof.
  intros Hrun H1 H2. unfold miss_outcome. cbn [fst snd]. rewrite H1, H2. clear H1 H2 res.
  pose proof (op_error_from_fault d s c) as Hfrom.
  pose proof (op_fault_free d s c) as Hff.
  pose proof (op_cases d s c) as Hcases. cbv zeta in Hcases.
  rewrite Hrun in Hff, Hcases.
  generalize dependent (execute d s c). intros out Hfrom Hff Hcases.
  unfold insert_none, clean_result in Hff, Hcases. cbn [fst snd] in Hff, Hcases.
  assert (db out.2 = db c /\
          ((finish_op out.1 = (0, false, None))
           \/ exists e, finish_op out.1 = (0, false, Some e)))
    as [Hdb Hres].
  { destruct Hcases
      as [(Hdb & e0 & k & _ & H)|[(Hdb & e0 & _ & H)|[(Hdb & Hcnt & _)|[Hdb H]]]].
    - split; [exact Hdb|right; eauto].
    - split; [exact Hdb|right; eauto].
    - contradiction.
    - split; [exact Hdb|now left]. }
  split; [exact Hdb|].
  destruct Hres as [H|[e H]].
  - rewrite H. cbn [fst snd]. split; [reflexivity|]. split; [now left|]. intros _. reflexivity.
  - specialize (Hfrom e). rewrite H in Hfrom, Hff |- *. cbn [fst snd] in *.
    split; [reflexivity|]. split.
    + right. exists e. split; [now apply Hfrom|reflexivity].
    + intros F. destruct (Hff F) as [_ Hcl]. discriminate.
Qed.

Lemma CreateSQL_miss (key val : string) (ttl : Z) (d : DB) :
  (exists i, live_at (kine d) key i) ->
  run_stmt (CreateSQL key ttl val key) d = insert_none d.
Proof.
  intros (i & r & Hl & Hd). apply max_row_of_Some in Hl. simpl. rewrite Hl.
  destruct (Z.eqb_spec (deleted r) 1); [lia|reflexivity].
Qed.

Lemma UpdateSQL_miss (key val : string) (ttl preRev : Z) (d : DB) :
  ~ live_at (kine d) key preRev ->
  run_stmt (UpdateSQL key ttl val key preRev) d = insert_none d.
Proof.
  intros Hnot. simpl.
  destruct (max_row_of key (kine d)) as [[i r]|] eqn:E; [|reflexivity].
  destruct (Z.eqb_spec (deleted r) 0) as [Hd|]; [|reflexivity].
  destruct (Z.eqb_spec i preRev) as [->|]; [|reflexivity].
  destruct Hnot. exists r. split; [now apply max_row_of_Some|exact Hd].
Qed.

Lemma DeleteSQL_miss (key : string) (revision : Z) (d : DB) :
  ~ live_at (kine d) key revision ->
  run_stmt (DeleteSQL key revision) d = insert_none d.
Proof.
  intros Hnot. simpl.
  destruct (max_row_of key (kine d)) as [[i r]|] eqn:E; [|reflexivity].
  destruct (Z.eqb_spec (deleted r) 0) as [Hd|]; [|reflexivity].
  destruct (Z.eqb_spec i revision) as [->|]; [|reflexivity].
  destruct Hnot. exists r. split; [now apply max_row_of_Some|exact Hd].
Qed.



(** ** Error translation *)

Lemma retry_loop_ext {A : Type} (d d' : Generic)
    (call : Conn -> (error + A) * Conn) (fuel : nat) (k : Z)
    (last : option A * option error) (c : Conn) :
  Retry d = Retry d' ->
  retry_loop d call fuel k last c = retry_loop d' call fuel k last c.
Proof.
  intros HR. revert k last c. induction fuel as [|fuel IH]; intros k last c; simpl.
  - reflexivity.
  - destruct (k <? maxRetries); [|reflexivity].
    destruct (call c) as [[e|r] c']; [|reflexivity].
    unfold retryable. rewrite HR.
    destruct (Retry d') as [f|]; [|reflexivity].
    destruct (f e); [apply IH|reflexivity].
Qed.

Lemma op_error_translated (d : Generic) (s : Stmt) (c : Conn) (e : error) :
  (translate_result d (finish_op (execute d s c).1)).2 = Some e ->
  exists e0, from_fault c e0 /\ e = translate d e0 /\
             forall f, TranslateErr d = Some f -> e = f e0.
Proof.
  unfold translate_result. cbn [snd].
  destruct ((finish_op (execute d s c).1).2) as [e0|] eqn:E; [|discriminate].
  intros [= <-]. exists e0. split; [now apply op_error_from_fault with d s|].
  split; [reflexivity|]. intros f Hf. unfold translate. now rewrite Hf.
Qed.

(** C10.  An error returned by [Delete] is the engine's fault as [execute]
    or the result accessor handed it over, whatever [TranslateErr] is set
    to: [Delete] returns the same with any other [TranslateErr].  An error
    returned by [Create] or [Update] is such a fault passed through
    [TranslateErr] when that is set. *)
Theorem Delete_does_not_translate_errors
    (d : Generic) (key val : string) (ttl revision : Z) (c : Conn) :
  (forall e, (Delete d key revision c).1.2 = Some e -> from_fault c e)
  /\ (forall t, Delete (set_TranslateErr d t) key revision c
                = Delete d key revision c)
  /\ (forall e, (Create d key val ttl c).1.2 = Some e ->
                exists e0, from_fault c e0 /\ e = translate d e0 /\
                           forall f, TranslateErr d = Some f -> e = f e0)
  /\ (forall e, (Update d key val revision ttl c).1.2 = Some e ->
                exists e0, from_fault c e0 /\ e = translate d e0 /\
                           forall f, TranslateErr d = Some f -> e = f e0).
Proof.
  split; [|split; [|split]].
  - intros e. rewrite Delete_unfold. cbn [fst snd]. apply op_error_from_fault.
  - intros t. unfold Delete, execute.
    now rewrite (retry_loop_ext (set_TranslateErr d t) d).
  - intros e. rewrite Create_unfold. cbn [fst snd]. apply op_error_translated.
  - intros e. rewrite Update_unfold. cbn [fst snd]. apply op_error_translated.
Qed.

(** ** Re-creating a deleted key *)

Lemma insert_row_latest (d : DB) (r : Row) :
  latest_row (kine (insert_row r d).1) (name r) (next_id d) r.
Proof.
  unfold latest_row. simpl. split; [apply lookup_insert_eq|]. split; [reflexivity|].
  intros j r' Hj _. destruct (decide (next_id d = j)) as [<-|Hne]; [lia|].
  rewrite lookup_insert_ne in Hj by exact Hne.
  apply next_id_fresh in Hj. lia.
Qed.

Lemma clean_result_ok (r : Z * Z) (rev : Z) :
  clean_result r = (rev, true, None) -> r.1 <> 0 /\ rev = r.2.
Proof.
  unfold clean_result. destruct (Z.eqb_spec r.1 0); [discriminate|].
  intros [= <-]. now split.
Qed.

(** C7, as the code has it.  A successful [Create] stores, under the
    revision it returns, a row with [created = 1] and [create_revision = 0],
    the literal [CreateSQL] writes, whatever the table held before; so does
    a [Create] that re-creates a key after a successful [Delete], be it
    right after it or later.  The row's own id is not its
    [create_revision]. *)
Theorem recreate_after_delete_row
    (d : Generic) (key val : string) (ttl : Z) (c1 c2 : Conn) (rev2 : Z) :
  Create d key val ttl c1 = ((rev2, true, None), c2) ->
  exists r, kine (db c2) !! rev2 = Some r /\ name r = key /\
            created r = 1 /\ deleted r = 0 /\ create_revision r = 0.
Proof.
  intros HC. rewrite Create_unfold in HC.
  assert (translate_result d (finish_op (execute d (CreateSQL key ttl val key) c1).1)
          = (rev2, true, None)) as HCres by congruence.
  assert ((execute d (CreateSQL key ttl val key) c1).2 = c2) as HCc by congruence.
  clear HC.
  assert ((translate_result d
             (finish_op (execute d (CreateSQL key ttl val key) c1).1)).2 = None)
    as Hnone by now rewrite HCres.
  apply translate_result_no_error in Hnone as [Hnone Hid].
  rewrite Hid in HCres. clear Hid.
  destruct (op_no_error d _ c1 Hnone) as [Hdb2 Hcl2].
  rewrite HCres in Hcl2. rewrite HCc in Hdb2. symmetry in Hcl2.
  apply clean_result_ok in Hcl2 as [Hcnt2 Hrev2].
  rewrite Hdb2, Hrev2. clear Hdb2 Hrev2. cbn [run_stmt] in *.
  destruct (max_row_of key (kine (db c1))) as [[i r]|];
    [destruct (deleted r =? 1)|]; cbn in Hcnt2 |- *;
    try (now destruct Hcnt2);
    (eexists; split; [apply lookup_insert_eq|]; cbn; auto).
Qed.

(** * Compaction *)

Lemma compact_prevs_spec (start end_ : Z) (m : gmap Z Row) (i : Z) :
  i ∈ compact_prevs start end_ m <-> superseded start end_ m i.
Proof.
  unfold compact_prevs, superseded.
  rewrite elem_of_list_to_set, list_elem_of_fmap. split.
  - intros ([j r] & -> & Hin). apply elem_of_map_to_list in Hin.
    apply map_lookup_filter_Some in Hin as [Hj (Hn & Hc & Hp & Hs & He)].
    simpl in *. exists j, r. auto 10.
  - intros (j & r & Hj & Hs & He & Hn & Hc & Hp & <-).
    exists (j, r). split; [reflexivity|].
    apply elem_of_map_to_list, map_lookup_filter_Some. simpl. auto 10.
Qed.

(** The three statements, run one after the other, make one compaction. *)
Lemma compaction_statements (start end_ : Z) (d : DB) :
  let d1 := (run_stmt (CompactPrevSQL start end_) d).1 in
  let d2 := (run_stmt (CompactTombstoneSQL start end_) d1).1 in
  let d3 := (run_stmt (UpdateCompactSQL end_) d2).1 in
  compaction_of start end_ (kine d) (kine d3) /\ seq d3 = seq d.
Proof.
  simpl. split; [|reflexivity]. intros i.
  rewrite lookup_fmap.
  destruct (kine d !! i) as [r|] eqn:Hi.
  - split.
    + intros Hgone.
      match goal with |- _ <$> ?x = None => assert (x = None) as ->; [|reflexivity] end.
      apply map_lookup_filter_None. right. intros r' Hr' Hkeep. simpl in *.
      apply map_lookup_filter_Some in Hr' as [Hr' Hnot]. simpl in Hnot.
      assert (r' = r) as -> by congruence.
      destruct Hgone as [Hs|Ht].
      * now apply compact_prevs_spec in Hs.
      * now apply Hkeep.
    + intros Hstay.
      match goal with |- _ <$> ?x = _ => assert (x = Some r) as ->; [|reflexivity] end.
      apply map_lookup_filter_Some. simpl. split.
      * apply map_lookup_filter_Some. simpl. split; [exact Hi|].
        intros Hs. apply Hstay. left. now apply compact_prevs_spec.
      * intros Ht. apply Hstay. now right.
  - match goal with |- _ <$> ?x = None => assert (x = None) as ->; [|reflexivity] end.
    apply map_lookup_filter_None. left.
    apply map_lookup_filter_None. now left.
Qed.

Lemma BeginTx_inv (c c0 : Conn) (r : option error) :
  BeginTx c = (r, c0) ->
  db c0 = db c /\ faults c0 = tail (faults c) /\ trace c0 = trace c ++ [CallBegin]
  /\ match r with
     | None => tx_saved c0 = Some (db c)
     | Some _ => faults c <> []
     end.
Proof.
  unfold BeginTx, call_fault.
  destruct (faults c) as [|[[e|e|e]|] fs]; intros [= <- <-]; simpl; auto.
Qed.

Lemma TxExecContext_inv (s : Stmt) (c c' : Conn) (r : option error) :
  TxExecContext s c = (r, c') ->
  tx_saved c' = tx_saved c /\ faults c' = tail (faults c)
  /\ trace c' = trace c ++ [CallTxExec s]
  /\ match r with
     | None => db c' = (run_stmt s (db c)).1
     | Some _ => faults c <> []
     end.
Proof.
  unfold TxExecContext, call_fault.
  destruct (faults c) as [|[[e|e|e]|] fs]; intros [= <- <-]; simpl; auto.
Qed.

Lemma Commit_inv (c c' : Conn) (r : option error) :
  Commit c = (r, c') ->
  tx_saved c' = None /\ trace c' = trace c ++ [CallCommit]
  /\ match r with
     | None => db c' = db c
     | Some _ => db c' = default (db c) (tx_saved c) /\ faults c <> []
     end.
Proof.
  unfold Commit, call_fault.
  destruct (faults c) as [|[[e|e|e]|] fs]; intros [= <- <-]; simpl; auto.
Qed.

Lemma tryCompact_pass (d : Generic) (start end_ : Z) (c : Conn) :
  let out := tryCompact d start end_ c in
  (out.1 = None ->
   compaction_of start end_ (kine (db c)) (kine (db out.2))
   /\ seq (db out.2) = seq (db c)
   /\ trace out.2 = trace c ++ committed_pass start end_)
  /\ (out.1 <> None -> db out.2 = db c)
  /\ (fault_free c -> out.1 = None).
Proof.
  intros out. subst out. unfold tryCompact.
  destruct (BeginTx c) as [[e|] c0] eqn:E0;
    apply BeginTx_inv in E0 as (Hdb0 & Hf0 & Ht0 & H0).
  { cbn [fst snd]. split; [discriminate|]. split; [intros _; exact Hdb0|].
    intros Hff. now destruct H0. }
  cbv zeta.
  destruct (TxExecContext (CompactPrevSQL start end_) c0) as [[e|] c1] eqn:E1;
    apply TxExecContext_inv in E1 as (Hs1 & Hf1 & Ht1 & H1).
  { cbn [fst snd Rollback db]. rewrite Hs1, H0. cbn [default].
    split; [discriminate|]. split; [reflexivity|].
    intros Hff. unfold fault_free in Hff. rewrite Hf0, Hff in H1. now destruct H1. }
  destruct (TxExecContext (CompactTombstoneSQL start end_) c1) as [[e|] c2] eqn:E2;
    apply TxExecContext_inv in E2 as (Hs2 & Hf2 & Ht2 & H2).
  { cbn [fst snd Rollback db]. rewrite Hs2, Hs1, H0. cbn [default].
    split; [discriminate|]. split; [reflexivity|].
    intros Hff. unfold fault_free in Hff. rewrite Hf1, Hf0, Hff in H2. now destruct H2. }
  destruct (TxExecContext (UpdateCompactSQL end_) c2) as [[e|] c3] eqn:E3;
    apply TxExecContext_inv in E3 as (Hs3 & Hf3 & Ht3 & H3).
  { cbn [fst snd Rollback db]. rewrite Hs3, Hs2, Hs1, H0. cbn [default].
    split; [discriminate|]. split; [reflexivity|].
    intros Hff. unfold fault_free in Hff.
    rewrite Hf2, Hf1, Hf0, Hff in H3. now destruct H3. }
  destruct (Commit c3) as [[e|] c4] eqn:E4;
    apply Commit_inv in E4 as (Hs4 & Ht4 & H4).
  { destruct H4 as [Hdb4 Hne]. cbn [fst snd Rollback db]. rewrite Hs4. cbn [default].
    rewrite Hdb4, Hs3, Hs2, Hs1, H0. cbn [default].
    split; [discriminate|]. split; [reflexivity|].
    intros Hff. unfold fault_free in Hff.
    rewrite Hf3, Hf2, Hf1, Hf0, Hff in Hne. now destruct Hne. }
  cbn [fst snd Rollback db trace]. rewrite Hs4. cbn [default].
  split; [|split; [intros H; now destruct H|reflexivity]].
  intros _. rewrite H4, H3, H2, H1, Hdb0.
  destruct (compaction_statements start end_ (db c)) as [Hc Hs].
  split; [exact Hc|]. split; [exact Hs|].
  rewrite Ht4, Ht3, Ht2, Ht1, Ht0. unfold committed_pass.
  rewrite <- !app_assoc. reflexivity.
Qed.

(** From the form the proofs work with to the words of the specification,
    given that the update of the marker does what step (c) says. *)
Lemma compaction_of_pass (start end_ : Z) (m m' : gmap Z Row) :
  (forall r, marker_raised end_ r (advance_marker end_ r)) ->
  compaction_of start end_ m m' -> compaction_pass start end_ m m'.
Proof.
  intros Hraised H i. specialize (H i). destruct (m !! i) as [r|]; [|exact H].
  destruct H as [Hgone Hkept]. split; [exact Hgone|].
  intros Hnot. specialize (Hkept Hnot).
  destruct (decide (name r = compact_rev_key)); [|exact Hkept].
  exists (advance_marker end_ r). split; [exact Hkept|apply Hraised].
Qed.

(** C3.  One pass of [tryCompact] over [(start, end_]].  If it returns
    nil, the table is the compaction of the old one: (a) the rows
    referenced as [prev_revision] from the window and (b) the tombstones
    of the window are deleted, (c) the marker row has its [prev_revision]
    set to [max(prev_revision, end_)] and its other columns as before,
    nothing else changes; and the calls made are one [BeginTx], the three
    statements in order, and one [Commit].  If it returns an error, the
    database is exactly as before.  Without a fault it returns nil. *)
Theorem tryCompact_is_one_atomic_pass (d : Generic) (start end_ : Z) (c : Conn) :
  let out := tryCompact d start end_ c in
  (out.1 = None ->
   compaction_pass start end_ (kine (db c)) (kine (db out.2))
   /\ seq (db out.2) = seq (db c)
   /\ trace out.2 = trace c ++ committed_pass start end_)
  /\ (out.1 <> None -> db out.2 = db c)
  /\ (fault_free c -> out.1 = None).
Proof.
  destruct (tryCompact_pass d start end_ c) as (Hok & Herr & Hff). cbv zeta.
  split; [|split; [exact Herr|exact Hff]].
  intros H. destruct (Hok H) as (Hc & Hs & Ht).
  split; [|split; [exact Hs|exact Ht]].
  apply compaction_of_pass; [|exact Hc].
  intros r. unfold marker_raised, advance_marker. cbn.
  split; [reflexivity|]. now repeat split.
Qed.

(** ** The loop of Compact *)

Lemma compact_loop_tries (d : Generic) (start end_ : Z)
    (fuel : nat) (k : Z) (err : option error) (c : Conn) :
  0 <= k < maxRetries -> maxRetries - k <= Z.of_nat fuel ->
  exists n, (1 <= n)%nat /\ k + Z.of_nat n <= maxRetries /\
            compact_tries_by (fun e => retryable d e = true)
              (fun e => retryable d e = false) d start end_ k n c
              (compact_loop d start end_ fuel k err c).
Proof.
  revert k err c. induction fuel as [|fuel IH]; intros k err c Hk Hfuel.
  - simpl in Hfuel. lia.
  - simpl. destruct (Z.ltb_spec k maxRetries) as [_|?]; [|lia].
    destruct (tryCompact d start end_ c) as [[e|] c'] eqn:E.
    + destruct (retryable d e) eqn:Hr.
      * destruct (Z.eq_dec (k + 1) maxRetries) as [Hlast|Hmore].
        -- exists 1%nat. split; [lia|]. split; [lia|].
           replace (compact_loop d start end_ fuel (k + 1) (Some e) c') with (Some e, c').
           ++ now apply tries_exhausted.
           ++ destruct fuel as [|fuel']; simpl; [reflexivity|].
              destruct (Z.ltb_spec (k + 1) maxRetries); [lia|reflexivity].
        -- destruct (IH (k + 1) (Some e) c') as (n & Hn1 & Hn2 & Ht); [lia|lia|].
           exists (S n). split; [lia|]. split; [lia|].
           eapply tries_again; eauto. lia.
      * exists 1%nat. split; [lia|]. split; [lia|]. now apply tries_give_up.
    + exists 1%nat. split; [lia|]. split; [lia|]. now apply tries_commit.
Qed.

(** Failed tries leave the database alone, so the loop as a whole either
    commits one compaction or changes nothing. *)
Lemma compact_tries_by_weaken (accepts rejects accepts' rejects' : error -> Prop)
    (d : Generic) (start end_ : Z)
    (k : Z) (n : nat) (c : Conn) (out : option error * Conn) :
  (forall e, accepts e -> accepts' e) ->
  (forall e, rejects e -> rejects' e) ->
  compact_tries_by accepts rejects d start end_ k n c out ->
  compact_tries_by accepts' rejects' d start end_ k n c out.
Proof.
  intros Ha Hr. induction 1 as [k c c' E|k c e c' E Hj|k c e c' E Hj Hk
                                |k n c e c' out E Hj Hk Ht IH].
  - now apply tries_commit.
  - apply tries_give_up; auto.
  - apply tries_exhausted; auto.
  - eapply tries_again; eauto.
Qed.

Lemma compact_tries_db (accepts rejects : error -> Prop) (d : Generic) (start end_ : Z)
    (k : Z) (n : nat) (c : Conn) (out : option error * Conn) :
  compact_tries_by accepts rejects d start end_ k n c out ->
  (out.1 = None -> compaction_of start end_ (kine (db c)) (kine (db out.2)))
  /\ (out.1 <> None -> db out.2 = db c).
Proof.
  induction 1 as [k c c' E|k c e c' E Hr|k c e c' E Hr Hk|k n c e c' out E Hr Hk Ht IH];
    pose proof (tryCompact_pass d start end_ c) as HP; cbv zeta in HP;
    rewrite E in HP; cbn [fst snd] in *; destruct HP as (Hok & Herr & _).
  - split; [intros _; now apply Hok|intros H; now destruct H].
  - split; [discriminate|]. intros _. now apply Herr.
  - split; [discriminate|]. intros _. now apply Herr.
  - assert (db c' = db c) as Hdb by now apply Herr.
    rewrite Hdb in IH. exact IH.
Qed.

Lemma query_outcome (d : Generic) (q : Query) (c : Conn) :
  db (query d q c).2 = db c
  /\ ((query d q c).1.2 = None -> (query d q c).1.1 = Some (run_query q (db c))).
Proof.
  unfold query.
  destruct (retry_loop_run d (QueryContext q) (CallQuery q)
              (QueryContext_fails q) (QueryContext_succeeds q)
              (Z.to_nat maxRetries) 0 (None, None) c)
    as (n & Hn & _ & Hres); [unfold maxRetries; lia|unfold maxRetries; lia|].
  destruct (after_failures_db (CallQuery q) n c) as (Hdb & _ & _ & _).
  destruct (after_failures_db (CallQuery q) (S n) c) as (Hdb' & _ & _ & _).
  destruct Hres as [(res & c' & Hf & Hc & ->)|[(e & Hf & Hr & ->)|(e & Hf & Hr & Hk & ->)]];
    cbn [fst snd annotate].
  - unfold QueryContext in Hc. rewrite fault_at_after_failures, Hf in Hc.
    injection Hc as <- <-. cbn [db]. rewrite Hdb. now split.
  - split; [exact Hdb'|discriminate].
  - split; [exact Hdb'|discriminate].
Qed.

Lemma GetCompactRevision_ok (d : Generic) (c c1 : Conn) (compact current : Z) :
  GetCompactRevision d c = ((compact, current, None), c1) ->
  db c1 = db c
  /\ compact = compact_revision (kine (db c))
  /\ current = current_revision (kine (db c))
  /\ exists t, trace c1 = trace c ++ CallQuery revisionIntervalSQL :: t.
Proof.
  unfold GetCompactRevision.
  destruct (query_outcome d revisionIntervalSQL c) as [Hdb Hrows].
  pose proof (query_retry_run d revisionIntervalSQL c) as (n & Hn & _ & Ht & _).
  destruct (query d revisionIntervalSQL c) as [[rows [e|]] c']; cbn [fst snd] in *;
    [discriminate|].
  rewrite (Hrows eq_refl). cbn [default run_query].
  intros [= <- <- <-]. split; [exact Hdb|]. split; [reflexivity|]. split; [reflexivity|].
  destruct n as [|n]; [lia|]. exists (repeat (CallQuery revisionIntervalSQL) n).
  exact Ht.
Qed.

Lemma Compact_cases (d : Generic) (revision : Z) (c c1 : Conn) (compact current : Z) :
  GetCompactRevision d c = ((compact, current, None), c1) ->
  Compact d revision c
  = if compact >=? revision then (None, c1)
    else compact_loop d compact (Z.min revision current)
           (Z.to_nat maxRetries) 0 None c1.
Proof.
  intros H. unfold Compact. rewrite H.
  destruct (compact >=? revision); [reflexivity|].
  destruct (Z.gtb_spec revision current) as [Hgt|Hle].
  - now rewrite Z.min_r by lia.
  - now rewrite Z.min_l by lia.
Qed.

(** C4, as the code has it.  [Compact] first reads the compact revision
    and the current revision, without touching the database.  If the
    compact revision has reached the requested revision (the revision as
    requested, before it is clamped) it returns nil at once, and no row is
    modified.  Otherwise it runs the compaction transaction over
    [(compact, min(revision, current)]], again after each failure that the
    predicate in [Retry] accepts, [maxRetries] times at most, and returns
    what the last try returned: nil with the window compacted, or the
    error. *)
Theorem Compact_guard_clamp_retry
    (d : Generic) (revision : Z) (c c1 : Conn) (compact current : Z) :
  GetCompactRevision d c = ((compact, current, None), c1) ->
  let out := Compact d revision c in
  let target := Z.min revision current in
  (db c1 = db c
   /\ compact = compact_revision (kine (db c))
   /\ current = current_revision (kine (db c))
   /\ exists t, trace c1 = trace c ++ CallQuery revisionIntervalSQL :: t)
  /\ (revision <= compact -> out = (None, c1))
  /\ (compact < revision ->
      exists n : nat,
        (1 <= n)%nat /\ Z.of_nat n <= maxRetries
        /\ compact_tries d compact target 0 n c1 out
        /\ (out.1 = None ->
            compaction_pass compact target (kine (db c)) (kine (db out.2)))).
Proof.
  intros HG out target. subst out target.
  rewrite (Compact_cases d revision c c1 compact current HG).
  pose proof (GetCompactRevision_ok d c c1 compact current HG) as Hread.
  split; [exact Hread|]. destruct Hread as (Hdb & _).
  split.
  - intros Hle. destruct (Z.geb_spec compact revision); [reflexivity|lia].
  - intros Hlt. destruct (Z.geb_spec compact revision); [lia|].
    destruct (compact_loop_tries d compact (Z.min revision current)
                (Z.to_nat maxRetries) 0 None c1)
      as (n & Hn1 & Hn2 & Ht); [unfold maxRetries; lia|unfold maxRetries; lia|].
    exists n. split; [exact Hn1|]. split; [lia|]. split.
    + apply (compact_tries_by_weaken _ _ _ _ _ _ _ _ _ _ _) with (3 := Ht);
        intros e; unfold retryable, Retry_accepts, Retry_rejects;
        destruct (Retry d) as [f|]; intros Hf.
      * now exists f.
      * discriminate.
      * right. now exists f.
      * now left.
    + apply compact_tries_db in Ht as [Hok _]. rewrite Hdb in Hok.
      intros Hnone. apply compaction_of_pass; [|now apply Hok].
      intros r. unfold marker_raised, advance_marker. cbn.
      split; [reflexivity|]. now repeat split.
Qed.

(** * The retry loops of query and execute *)

(** C5, as the code has it.  [query] and [execute] issue their statement
    at least once and at most [maxRetries = 500] times, and nothing else in
    between.  Every attempt but the last failed with an error the
    predicate in [Retry] accepts; the first error it rejects (or any
    error, when no predicate is set) ends the loop.  The error returned
    wraps the last attempt's error together with the value of the retry
    counter, which is not the number of attempts: it is the number of
    attempts made before the last one ([0] when the first attempt fails
    for good), and [maxRetries] when the bound ended the loop. *)
Theorem query_execute_retry (d : Generic) (q : Query) (s : Stmt) (c : Conn) :
  maxRetries = 500
  /\ retry_run d (CallQuery q) "query" c (query d q c).2 (query d q c).1.2
  /\ retry_run d (CallExec s) "exec" c (execute d s c).2 (execute d s c).1.2.
Proof.
  assert (forall e, retryable d e = true -> Retry_accepts d e) as Hacc.
  { intros e. unfold retryable, Retry_accepts.
    destruct (Retry d) as [f|]; intros Hf; [now exists f|discriminate]. }
  assert (forall e, retryable d e = false -> Retry_rejects d e) as Hrej.
  { intros e. unfold retryable, Retry_rejects.
    destruct (Retry d) as [f|]; intros Hf; [right; now exists f|now left]. }
  split; [reflexivity|]. split.
  - exact (retry_run_by_weaken _ _ _ _ _ _ _ _ _ Hacc Hrej (query_retry_run d q c)).
  - exact (retry_run_by_weaken _ _ _ _ _ _ _ _ _ Hacc Hrej (execute_retry_run d s c)).
Qed.

(** * Prefix ranges *)

Lemma substring_all (s : string) : substring 0 (String.length s) s = s.
Proof. induction s as [|a s IH]; simpl; [reflexivity | now rewrite IH]. Qed.

Lemma length_append (s t : string) :
  String.length (s +:+ t) = (String.length s + String.length t)%nat.
Proof. induction s as [|a s IH]; simpl; [reflexivity | now rewrite IH]. Qed.

Lemma substring_append_l (s t : string) :
  substring 0 (String.length s) (s +:+ t) = s.
Proof. induction s as [|a s IH]; simpl; [now destruct t | now rewrite IH]. Qed.

Lemma substring_append_r (s t : string) :
  substring (String.length s) (String.length t) (s +:+ t) = t.
Proof. induction s as [|a s IH]; simpl; [apply substring_all | exact IH]. Qed.

Lemma HasSuffix_append (q suffix : string) :
  GoStrings.HasSuffix (q +:+ suffix) suffix = true.
Proof.
  unfold GoStrings.HasSuffix. rewrite length_append.
  apply andb_true_iff; split.
  - apply Nat.leb_le. lia.
  - replace (String.length q + String.length suffix - String.length suffix)%nat
      with (String.length q) by lia.
    rewrite substring_append_r. apply String.eqb_refl.
Qed.

Lemma HasSuffix_split (s suffix : string) :
  GoStrings.HasSuffix s suffix = true ->
  exists q, s = q +:+ suffix.
Proof.
  unfold GoStrings.HasSuffix. intros H.
  apply andb_true_iff in H as [Hlen Heq].
  apply Nat.leb_le in Hlen. apply String.eqb_eq in Heq.
  revert Hlen Heq. generalize (String.length suffix) as n. intros n.
  induction s as [|a s IH]; intros Hlen Heq; simpl in *.
  - exists EmptyString. destruct n; [|lia]. now rewrite <- Heq.
  - destruct (Nat.eq_dec n (S (String.length s))) as [->|Hne].
    + rewrite Nat.sub_diag in Heq. simpl in Heq. rewrite substring_all in Heq.
      exists EmptyString. now rewrite <- Heq.
    + replace (S (String.length s) - n)%nat with (S (String.length s - n)) in Heq by lia.
      simpl in Heq. destruct (IH ltac:(lia) Heq) as [q ->].
      exists (String a q). reflexivity.
Qed.

Lemma slice_append_l (q t : string) :
  GoStrings.slice (q +:+ t) 0 (String.length (q +:+ t) - String.length t) = q.
Proof.
  unfold GoStrings.slice. rewrite length_append, Nat.sub_0_r.
  replace (String.length q + String.length t - String.length t)%nat
    with (String.length q) by lia.
  apply substring_append_l.
Qed.

(** C6.  [getPrefixRange] returns the prefix itself as [start]; when the
    prefix ends with ["/"], [end] is the prefix with that last character
    replaced by ["0"]; otherwise [end] is the prefix followed by the byte
    [0x01].  So ["/"] gives the range from ["/"] to ["0"], and ["a"] the
    range from ["a"] to ["a\x01"]. *)
Theorem getPrefixRange_spec (P : string) :
  (getPrefixRange P).1 = P
  /\ (forall Q, P = Q +:+ "/" -> (getPrefixRange P).2 = Q +:+ "0")
  /\ ((forall Q, P <> Q +:+ "/") ->
      (getPrefixRange P).2 = P +:+ String (ascii_of_nat 1) EmptyString)
  /\ getPrefixRange "/" = ("/", "0")
  /\ getPrefixRange "a" = ("a", String "a" (String (ascii_of_nat 1) EmptyString)).
Proof.
  split; [reflexivity|]. split; [|split; [|split; reflexivity]].
  - intros Q ->. unfold getPrefixRange. cbn [snd].
    rewrite HasSuffix_append.
    change 1%nat with (String.length "/"). now rewrite slice_append_l.
  - intros Hno. unfold getPrefixRange. cbn [snd].
    destruct (GoStrings.HasSuffix P "/") eqn:E; [|reflexivity].
    apply HasSuffix_split in E as [Q ->]. now destruct (Hno Q).
Qed.

(** * The watch query timeout *)

(** A configured value of three seconds is not raised to the minimum: the
    getter answers with the default. *)
Lemma GetWatchQueryTimeout_below_minimum :
  GetWatchQueryTimeout (with_WatchQueryTimeout (3 * Duration.Second))
  = 20 * Duration.Second
  /\ timeout_with_minimum (3 * Duration.Second) = 5 * Duration.Second
  /\ GetWatchQueryTimeout (with_WatchQueryTimeout (3 * Duration.Second))
     <> timeout_with_minimum (WatchQueryTimeout (with_WatchQueryTimeout (3 * Duration.Second))).
Proof. repeat split. discriminate. Qed.

(** C8, as the code has it.  [GetWatchQueryTimeout] returns the configured
    [WatchQueryTimeout] when that is at least 5 seconds, and the default of
    20 seconds otherwise, be the value unset or below the minimum; what it
    returns is never below 5 seconds. *)
Theorem GetWatchQueryTimeout_spec (d : Generic) :
  (5 * Duration.Second <= WatchQueryTimeout d ->
   GetWatchQueryTimeout d = WatchQueryTimeout d)
  /\ (WatchQueryTimeout d < 5 * Duration.Second ->
      GetWatchQueryTimeout d = 20 * Duration.Second)
  /\ (WatchQueryTimeout d = 0 -> GetWatchQueryTimeout d = 20 * Duration.Second)
  /\ 5 * Duration.Second <= GetWatchQueryTimeout d.
Proof.
  unfold GetWatchQueryTimeout.
  destruct (Z.leb_spec (5 * Duration.Second) (WatchQueryTimeout d)) as [Hge|Hlt].
  - repeat split; try lia. intros H0. rewrite H0 in Hge.
    unfold Duration.Second, Duration.Nanosecond in Hge. lia.
  - repeat split; try lia. unfold Duration.Second, Duration.Nanosecond. lia.
Qed.

(** * Open *)

Lemma openAndTest_failed (env : Env) (i : nat) :
  (openAndTest env i).2 <> None -> (openAndTest env i).1 = None.
Proof.
  unfold openAndTest. destruct (sql_Open env i); [reflexivity|].
  destruct (ping_loop env i 3 0); [reflexivity|]. intros H. now destruct H.
Qed.

(** While every attempt fails, the loop either leaves through the
    [ctx.Done()] branch or ends with a nil handle and the last error. *)
Lemma open_loop_failing (env : Env) (fuel i : nat) (last : option SqlDB * option error) :
  (forall j, (i <= j < i + fuel)%nat -> (openAndTest env j).2 <> None) ->
  (0 < fuel)%nat ->
  match open_loop env fuel i last with
  | inl early =>
      early = (None, Some ErrCtx)
      /\ exists j, (i <= j < i + fuel)%nat /\ ctx_Done env j = true
  | inr (db, err) =>
      db = None /\ err <> None
      /\ forall j, (i <= j < i + fuel)%nat -> ctx_Done env j = false
  end.
Proof.
  revert i last. induction fuel as [|fuel IH]; intros i last Hfail Hpos; [lia|].
  simpl.
  pose proof (Hfail i ltac:(lia)) as Hi.
  pose proof (openAndTest_failed env i Hi) as Hnil.
  destruct (openAndTest env i) as [db [e|]]; simpl in *; [|now destruct Hi].
  destruct (ctx_Done env i) eqn:Hdone.
  - split; [reflexivity|]. exists i. split; [lia|exact Hdone].
  - destruct fuel as [|fuel].
    + simpl. split; [exact Hnil|]. split; [discriminate|].
      intros j Hj. assert (j = i) as -> by lia. exact Hdone.
    + specialize (IH (S i) (db, Some e)).
      destruct (open_loop env (S fuel) (S i) (db, Some e)) as [early|[db' err']].
      * destruct IH as (-> & j & Hj & Hd); [intros j Hj; apply Hfail; lia|lia|].
        split; [reflexivity|]. exists j. split; [lia|exact Hd].
      * destruct IH as (-> & Herr & Hnot); [intros j Hj; apply Hfail; lia|lia|].
        split; [reflexivity|]. split; [exact Herr|].
        intros j Hj. destruct (Nat.eq_dec j i) as [->|]; [exact Hdone|].
        apply Hnot. lia.
Qed.

(** C9.  When all 300 attempts to open and ping fail: if the context is
    never cancelled, the loop of [Open] ends with a nil handle and a
    non-nil error, [configureConnectionPooling] is called on that nil
    handle, and [Open] panics on the dereference instead of returning the
    error; and whenever [Open] does return, it is from the [ctx.Done()]
    branch, with [ctx.Err()]. *)
Theorem Open_all_attempts_fail (env : Env) (connPoolConfig : ConnectionPoolConfig) :
  (forall i, (i < 300)%nat -> (openAndTest env i).2 <> None) ->
  ((forall i, (i < 300)%nat -> ctx_Done env i = false) ->
   (exists err, open_loop env 300 0 (None, None) = inr (None, Some err))
   /\ configureConnectionPooling connPoolConfig None = Panics nil_dereference
   /\ Open env connPoolConfig = Panics nil_dereference)
  /\ (forall r, Open env connPoolConfig = Returns r ->
                r = (None, Some ErrCtx)
                /\ exists i, (i < 300)%nat /\ ctx_Done env i = true).
Proof.
  intros Hfail.
  pose proof (open_loop_failing env 300 0 (None, None)) as HL.
  unfold Open.
  destruct (open_loop env 300 0 (None, None)) as [early|[db err]].
  - destruct HL as (-> & j & Hj & Hd); [intros j Hj; apply Hfail; lia|lia|]. split.
    + intros Hnever. rewrite Hnever in Hd by lia. discriminate.
    + intros r [= <-]. split; [reflexivity|]. exists j. split; [lia|exact Hd].
  - destruct HL as (-> & Herr & _); [intros j Hj; apply Hfail; lia|lia|]. split.
    + intros _. destruct err as [e|]; [|now destruct Herr].
      split; [now exists e|]. split; reflexivity.
    + intros r. simpl. discriminate.
Qed.

(** * Witnesses and counterexamples *)

Lemma Create_witness :
  Create d0 "foo" "1" 0 c_empty = ((1, true, None), after_create)
  /\ exists r, kine (db after_create) = <[1 := r]> ∅
               /\ created r = 1 /\ deleted r = 0.
Proof.
  assert (Create d0 "foo" "1" 0 c_empty = ((1, true, None), after_create)) as H
    by (vm_compute; reflexivity).
  split; [exact H|].
  destruct (Create_inserts_iff_no_live_row _ _ _ _ _ _ _ _ H) as (Hins & _).
  destruct Hins as (r & _ & Hm & _ & Hc & Hd & _).
  { left. intros i r Hi. simpl in Hi. rewrite lookup_empty in Hi. discriminate. }
  exists r. split; [exact Hm|]. split; [exact Hc|exact Hd].
Defined.



Lemma recreate_witness :
  Delete d0 "foo" 2 after_update = ((3, true, None), after_delete)
  /\ Create d0 "foo" "x" 0 after_delete = ((4, true, None), after_recreate)
  /\ exists r, kine (db after_recreate) !! 4 = Some r
               /\ created r = 1 /\ create_revision r = 0.
Proof.
  assert (Delete d0 "foo" 2 after_update = ((3, true, None), after_delete)) as HD
    by (vm_compute; reflexivity).
  assert (Create d0 "foo" "x" 0 after_delete = ((4, true, None), after_recreate)) as HC
    by (vm_compute; reflexivity).
  split; [exact HD|]. split; [exact HC|].
  destruct (recreate_after_delete_row _ _ _ _ _ _ _ HC)
    as (r & Hr & _ & Hc & _ & Hcr).
  exists r. split; [exact Hr|]. split; [exact Hc|exact Hcr].
Defined.

(** The row stored when ["foo"] is re-created at revision 4 has
    [create_revision = 0], not 4. *)
Lemma recreated_create_revision_is_zero :
  Delete d0 "foo" 2 after_update = ((3, true, None), after_delete)
  /\ Create d0 "foo" "x" 0 after_delete = ((4, true, None), after_recreate)
  /\ kine (db after_recreate) !! 4 = Some recreated_row
  /\ created recreated_row = 1
  /\ create_revision recreated_row = 0
  /\ create_revision recreated_row <> 4.
Proof. repeat split; try (vm_compute; reflexivity). discriminate. Qed.

Lemma Open_witness :
  (forall i, (i < 300)%nat -> (openAndTest env_down i).2 <> None)
  /\ Open env_down pool_defaults = Panics nil_dereference.
Proof.
  assert (forall i, (i < 300)%nat -> (openAndTest env_down i).2 <> None) as H
    by (intros i _; simpl; discriminate).
  split; [exact H|].
  destruct (Open_all_attempts_fail env_down pool_defaults H) as [Hpanic _].
  apply Hpanic. intros i _. reflexivity.
Defined.

(** One attempt is made, and the error is annotated with [0]: the
    annotation is the zero-based counter, not the count of attempts. *)
Lemma first_failure_is_annotated_zero :
  trace (query d0 revSQL c_broken).2 = [CallQuery revSQL]
  /\ (query d0 revSQL c_broken).1.2
     = Some (ErrWrap "query" 0 (ErrDriver "no such table"))
  /\ trace (execute d0 (DeleteRevSQL 1) c_broken).2 = [CallExec (DeleteRevSQL 1)]
  /\ (execute d0 (DeleteRevSQL 1) c_broken).1.2
     = Some (ErrWrap "exec" 0 (ErrDriver "no such table"))
  /\ Z.of_nat (length (trace (query d0 revSQL c_broken).2)) <> 0.
Proof. repeat split; try (vm_compute; reflexivity). vm_compute. discriminate. Qed.

(** With the compact revision at the current revision [4], [Compact(10)]
    has [compact >= min(10, 4)], yet it does not return nil: it begins a
    transaction, and the failure of that comes back. *)
Lemma Compact_empty_window_not_skipped :
  (GetCompactRevision d0 c_compacted).1 = (4, 4, None)
  /\ 4 >= Z.min 10 4
  /\ (Compact d0 10 c_compacted).1
     = Some (ErrDriver "disk I/O error")
  /\ trace (Compact d0 10 c_compacted).2
     = [CallQuery revisionIntervalSQL; CallBegin]
  /\ trace (Compact d0 10 c_compacted_sound).2
     = CallQuery revisionIntervalSQL :: committed_pass 4 4.
Proof. repeat split; try (vm_compute; reflexivity). vm_compute. discriminate. Qed.

(** [Compact(3)] on the scenario, with a predicate that accepts every
    error and a connection that is locked when the first transaction
    begins: the first try fails at [BeginTx], the second one commits. *)
Lemma Compact_witness :
  GetCompactRevision d_retry_all c_locked_once
  = ((0, 4, None), (GetCompactRevision d_retry_all c_locked_once).2)
  /\ (Compact d_retry_all 3 c_locked_once).1 = None
  /\ trace (Compact d_retry_all 3 c_locked_once).2
     = [CallQuery revisionIntervalSQL; CallBegin] ++ committed_pass 0 3
  /\ compaction_pass 0 3 (kine (db c_locked_once))
       (kine (db (Compact d_retry_all 3 c_locked_once).2)).
Proof.
  assert (GetCompactRevision d_retry_all c_locked_once
          = ((0, 4, None), (GetCompactRevision d_retry_all c_locked_once).2)) as HG
    by (vm_compute; reflexivity).
  assert ((Compact d_retry_all 3 c_locked_once).1 = None) as HN
    by (vm_compute; reflexivity).
  split; [exact HG|]. split; [exact HN|]. split; [vm_compute; reflexivity|].
  destruct (Compact_guard_clamp_retry d_retry_all 3 _ _ _ _ HG) as (_ & _ & Hrun).
  destruct Hrun as (n & _ & _ & _ & Hok); [lia|].
  apply Hok. exact HN.
Defined.

(** * Examples *)

(** The first three end-to-end scenarios of the specification. *)
Example scenario_revisions :
  (Create d0 "foo" "1" 0 c_empty).1 = (1, true, None)
  /\ (Update d0 "foo" "2" 1 0 after_create).1 = (2, true, None)
  /\ (Update d0 "foo" "3" 1 0 after_update).1 = (0, false, None)
  /\ (Delete d0 "foo" 2 after_update).1 = (3, true, None)
  /\ (Create d0 "foo" "x" 0 after_delete).1 = (4, true, None).
Proof. repeat split; vm_compute; reflexivity. Qed.

(** The number in the annotation: [0] when the first try fails for good,
    [maxRetries] when every try failed with a retryable error, after 500
    calls. *)
Example query_annotation :
  (query d0 revSQL c_broken).1
  = (None, Some (ErrWrap "query" 0 (ErrDriver "no such table")))
  /\ (query d_retry_all revSQL c_busy).1
     = (None, Some (ErrWrap "query" 500 (ErrDriver "database is locked")))
  /\ trace (query d_retry_all revSQL c_busy).2 = repeat (CallQuery revSQL) 500.
Proof. repeat split; vm_compute; reflexivity. Qed.

(** [Compact(3)] on the scenario deletes rows 1 to 3 and leaves the
    re-created row. *)
Example scenario_compaction :
  (Compact d0 3 after_recreate).1 = None
  /\ map_to_list (kine (db (Compact d0 3 after_recreate).2)) = [(4, recreated_row)].
Proof. repeat split; vm_compute; reflexivity. Qed.

(** * More on the write operations *)

Lemma UpdateSQL_hit (key val : string) (ttl preRev : Z) (d : DB) (prev : Row) :
  latest_row (kine d) key preRev prev -> deleted prev = 0 ->
  run_stmt (UpdateSQL key ttl val key preRev) d
  = insert_row (updated_row key val ttl preRev prev) d.
Proof.
  intros Hl Hd. apply max_row_of_Some in Hl. simpl. rewrite Hl, Hd, !Z.eqb_refl.
  reflexivity.
Qed.

Lemma DeleteSQL_hit (key : string) (revision : Z) (d : DB) (prev : Row) :
  latest_row (kine d) key revision prev -> deleted prev = 0 ->
  run_stmt (DeleteSQL key revision) d = insert_row (tombstone_row revision prev) d.
Proof.
  intros Hl Hd. apply max_row_of_Some in Hl. simpl. rewrite Hl, Hd, !Z.eqb_refl.
  reflexivity.
Qed.

Lemma live_at_dec (m : gmap Z Row) (key : string) (i : Z) :
  live_at m key i \/ ~ live_at m key i.
Proof.
  destruct (max_row_of key m) as [[j r]|] eqn:E.
  - apply max_row_of_Some in E.
    destruct (Z.eq_dec j i) as [->|Hne]; [destruct (Z.eq_dec (deleted r) 0) as [Hd|Hd]|].
    + left. now exists r.
    + right. intros (r' & Hl & Hd'). destruct (latest_row_unique _ _ _ _ _ _ E Hl) as [_ <-].
      contradiction.
    + right. intros (r' & Hl & _). destruct (latest_row_unique _ _ _ _ _ _ E Hl) as [? _].
      contradiction.
  - right. intros (r' & Hl & _). apply max_row_of_Some in Hl. congruence.
Qed.

Lemma op_returned (d : Generic) (s : Stmt) (c : Conn) (rev : Z) (ok : bool) :
  finish_op (execute d s c).1 = (rev, ok, None) ->
  db (execute d s c).2 = (run_stmt s (db c)).1
  /\ clean_result (run_stmt s (db c)).2 = (rev, ok, None).
Proof.
  intros H. destruct (op_no_error d s c) as [Hdb Hcl]; [now rewrite H|].
  split; [exact Hdb|]. now rewrite <- Hcl.
Qed.

Lemma translated_returned (d : Generic) (r : Z * bool * option error) (rev : Z) (ok : bool) :
  translate_result d r = (rev, ok, None) -> r = (rev, ok, None).
Proof.
  intros H. destruct (translate_result_no_error d r) as [_ Hid]; [now rewrite H|].
  now rewrite <- Hid.
Qed.

Lemma clean_result_insert_none (d : DB) (rev : Z) (ok : bool) :
  clean_result (insert_none d).2 = (rev, ok, None) -> rev = 0 /\ ok = false.
Proof. unfold clean_result, insert_none. simpl. intros [= <- <-]. now split. Qed.

Lemma clean_result_insert_row (r : Row) (d : DB) (rev : Z) (ok : bool) :
  clean_result (insert_row r d).2 = (rev, ok, None) -> rev = next_id d /\ ok = true.
Proof. unfold clean_result, insert_row. simpl. intros [= <- <-]. now split. Qed.


(** X2.  Whenever [Delete] returns without an error, [deleted] tells
    whether [revision] was the id of the key's live row.  If it was, the
    table gains exactly one row, under the returned revision: a tombstone
    ([deleted = 1]) with the old row's name and lease, a NULL value, the old
    row's value as [old_value], [prev_revision = revision], and the
    carried-forward [create_revision]. *)
Theorem Delete_inserts_tombstone
    (d : Generic) (key : string) (revision : Z) (c c' : Conn)
    (rev : Z) (deleted_ : bool) :
  Delete d key revision c = ((rev, deleted_, None), c') ->
  (deleted_ = true <-> live_at (kine (db c)) key revision)
  /\ forall prev, latest_row (kine (db c)) key revision prev -> deleted prev = 0 ->
       kine (db c) !! rev = None /\ revision < rev
       /\ kine (db c') = <[rev := tombstone_row revision prev]> (kine (db c)).
Proof.
  intros HD. rewrite Delete_unfold in HD.
  assert (finish_op (execute d (DeleteSQL key revision) c).1 = (rev, deleted_, None))
    as Hres by congruence.
  assert ((execute d (DeleteSQL key revision) c).2 = c') as Hc' by congruence.
  clear HD. apply op_returned in Hres as [Hdb Hcl]. rewrite Hc' in Hdb. clear Hc'.
  destruct (live_at_dec (kine (db c)) key revision) as [(prev & Hl & Hd)|Hnot].
  - rewrite (DeleteSQL_hit key revision (db c) prev Hl Hd) in Hdb, Hcl.
    apply clean_result_insert_row in Hcl as [-> ->].
    split; [split; [intros _; now exists prev|reflexivity]|].
    intros prev' Hl' _. destruct (latest_row_unique _ _ _ _ _ _ Hl Hl') as [_ <-].
    split; [apply next_id_None|]. rewrite Hdb. split; [|reflexivity].
    destruct Hl as (Hp & _). now apply next_id_fresh in Hp.
  - rewrite (DeleteSQL_miss key revision (db c) Hnot) in Hdb, Hcl.
    apply clean_result_insert_none in Hcl as [-> ->].
    split; [split; [discriminate|intros H; now destruct Hnot]|].
    intros prev Hl Hd. destruct Hnot. now exists prev.
Qed.

Lemma CreateSQL_cases (key val : string) (ttl : Z) (d : DB) :
  run_stmt (CreateSQL key ttl val key) d = insert_none d
  \/ exists p, (p = 0 \/ exists x, kine d !! p = Some x /\ name x = key)
               /\ run_stmt (CreateSQL key ttl val key) d
                  = insert_row (mkRow key 1 0 0 p ttl (Some val) None) d.
Proof.
  simpl. destruct (max_row_of key (kine d)) as [[i r]|] eqn:E.
  - destruct (deleted r =? 1); [|now left]. right. exists i. split; [|reflexivity].
    apply max_row_of_Some in E as (Hi & Hn & _). right. now exists r.
  - right. exists 0. split; [now left|reflexivity].
Qed.

Lemma write_stmt_cases (key val : string) (ttl p : Z) (d : DB) :
  forall s, s = CreateSQL key ttl val key \/ s = UpdateSQL key ttl val key p
            \/ s = DeleteSQL key p ->
  run_stmt s d = insert_none d
  \/ exists r, run_stmt s d = insert_row r d /\ name r = key
               /\ (created r = 0 -> prev_revision r <> 0 ->
                   exists x, kine d !! prev_revision r = Some x /\ name x = key).
Proof.
  intros s [ -> | [ -> | -> ] ].
  - destruct (CreateSQL_cases key val ttl d) as [H|(q & Hq & H)]; [now left|].
    right. eexists. split; [exact H|]. split; [reflexivity|]. simpl. discriminate.
  - destruct (live_at_dec (kine d) key p) as [(prev & Hl & Hd)|Hnot].
    + right. eexists. split; [exact (UpdateSQL_hit key val ttl p d prev Hl Hd)|].
      split; [reflexivity|].
      simpl. intros _ _. exists prev. destruct Hl as (? & ? & _). now split.
    + left. now apply UpdateSQL_miss.
  - destruct (live_at_dec (kine d) key p) as [(prev & Hl & Hd)|Hnot].
    + right. eexists. split; [exact (DeleteSQL_hit key p d prev Hl Hd)|].
      destruct Hl as (Hp & Hn & _). split; [exact Hn|].
      simpl. intros _ _. exists prev. now split.
    + left. now apply DeleteSQL_miss.
Qed.

Lemma op_db_cases (d : Generic) (s : Stmt) (c : Conn) :
  db (execute d s c).2 = db c \/ db (execute d s c).2 = (run_stmt s (db c)).1.
Proof.
  destruct (op_cases d s c) as [(H & _)|[(H & _)|[(H & _)|(H & _)]]]; auto.
Qed.

Lemma insert_row_appended (r : Row) (d : DB) :
  appended (kine d) (kine (insert_row r d).1).
Proof.
  right. exists (next_id d), r. split; [|reflexivity].
  intros j x Hj. now apply next_id_fresh in Hj.
Qed.

Lemma write_appended (d : Generic) (key val : string) (ttl p : Z) (c : Conn) (s : Stmt) :
  s = CreateSQL key ttl val key \/ s = UpdateSQL key ttl val key p
  \/ s = DeleteSQL key p ->
  appended (kine (db c)) (kine (db (execute d s c).2)).
Proof.
  intros Hs. destruct (op_db_cases d s c) as [ -> | -> ]; [now left|].
  destruct (write_stmt_cases key val ttl p (db c) s Hs) as [ -> | (r & -> & _)].
  - now left.
  - apply insert_row_appended.
Qed.

(** X3.  The log is append-only under the three write operations: whatever
    they return, error or not, the table afterwards is the table before,
    or the table before with one more row under an id above all the ids it
    had; no existing row is changed or removed. *)
Theorem writes_are_append_only
    (d : Generic) (key val : string) (ttl revision : Z) (c : Conn) :
  appended (kine (db c)) (kine (db (Create d key val ttl c).2))
  /\ appended (kine (db c)) (kine (db (Update d key val revision ttl c).2))
  /\ appended (kine (db c)) (kine (db (Delete d key revision c).2))
  /\ forall m m' : gmap Z Row, appended m m' ->
       forall i r, m !! i = Some r -> m' !! i = Some r.
Proof.
  split; [|split; [|split]].
  - rewrite Create_unfold. cbn [snd]. apply (write_appended d key val ttl revision). auto.
  - rewrite Update_unfold. cbn [snd]. apply (write_appended d key val ttl revision). auto.
  - rewrite Delete_unfold. cbn [snd]. apply (write_appended d key val ttl revision). auto.
  - intros m m' [ -> | (j & x & Hfresh & ->)] i r Hi; [exact Hi|].
    rewrite lookup_insert_ne; [exact Hi|]. intros ->. apply Hfresh in Hi. lia.
Qed.

Lemma Create_miss_outcome (d : Generic) (key val : string) (ttl : Z) (c : Conn) :
  (exists i, live_at (kine (db c)) key i) ->
  miss_outcome (translate d) c (Create d key val ttl c).
Proof.
  intros H. rewrite Create_unfold.
  apply (op_miss d _ c (translate d)); [now apply CreateSQL_miss| |];
    now destruct (finish_op _) as [[rev ok] [e|]].
Qed.

Lemma Update_miss_outcome (d : Generic) (key val : string) (p ttl : Z) (c : Conn) :
  ~ live_at (kine (db c)) key p ->
  miss_outcome (translate d) c (Update d key val p ttl c).
Proof.
  intros H. rewrite Update_unfold.
  apply (op_miss d _ c (translate d)); [now apply UpdateSQL_miss| |];
    now destruct (finish_op _) as [[rev ok] [e|]].
Qed.

Lemma Delete_miss_outcome (d : Generic) (key : string) (p : Z) (c : Conn) :
  ~ live_at (kine (db c)) key p ->
  miss_outcome (fun e => e) c (Delete d key p c).
Proof.
  intros H. rewrite Delete_unfold.
  apply (op_miss d _ c (fun e => e)); [now apply DeleteSQL_miss| |];
    now destruct (finish_op _) as [[rev ok] [e|]].
Qed.

Lemma live_at_unique (m : gmap Z Row) (key : string) (i j : Z) :
  live_at m key i -> live_at m key j -> i = j.
Proof.
  intros (r & Hl & _) (r' & Hl' & _).
  now destruct (latest_row_unique _ _ _ _ _ _ Hl Hl').
Qed.

Lemma Create_returned (d : Generic) (key val : string) (ttl : Z) (c c1 : Conn) (rev : Z) :
  Create d key val ttl c = ((rev, true, None), c1) ->
  exists p, db c1 = (insert_row (mkRow key 1 0 0 p ttl (Some val) None) (db c)).1
            /\ rev = next_id (db c).
Proof.
  intros HC. rewrite Create_unfold in HC.
  assert (translate_result d
            (finish_op (execute d (CreateSQL key ttl val key) c).1)
          = (rev, true, None)) as Hres by congruence.
  assert ((execute d (CreateSQL key ttl val key) c).2 = c1) as Hc' by congruence.
  clear HC. apply translated_returned in Hres.
  apply op_returned in Hres as [Hdb Hcl]. rewrite Hc' in Hdb.
  destruct (CreateSQL_cases key val ttl (db c)) as [H|(p & _ & H)]; rewrite H in Hdb, Hcl.
  - apply clean_result_insert_none in Hcl as [_ ?]. discriminate.
  - apply clean_result_insert_row in Hcl as [-> _]. now exists p.
Qed.

Lemma Update_returned (d : Generic) (key val : string) (preRev ttl : Z)
    (c c1 : Conn) (rev : Z) :
  Update d key val preRev ttl c = ((rev, true, None), c1) ->
  exists prev, latest_row (kine (db c)) key preRev prev /\ deleted prev = 0
               /\ db c1 = (insert_row (updated_row key val ttl preRev prev) (db c)).1
               /\ rev = next_id (db c).
Proof.
  intros HU. rewrite Update_unfold in HU.
  assert (translate_result d
            (finish_op (execute d (UpdateSQL key ttl val key preRev) c).1)
          = (rev, true, None)) as Hres by congruence.
  assert ((execute d (UpdateSQL key ttl val key preRev) c).2 = c1) as Hc' by congruence.
  clear HU. apply translated_returned in Hres.
  apply op_returned in Hres as [Hdb Hcl]. rewrite Hc' in Hdb.
  destruct (live_at_dec (kine (db c)) key preRev) as [(prev & Hl & Hd)|Hnot].
  - rewrite (UpdateSQL_hit key val ttl preRev (db c) prev Hl Hd) in Hdb, Hcl.
    apply clean_result_insert_row in Hcl as [-> _]. now exists prev.
  - rewrite (UpdateSQL_miss key val ttl preRev (db c) Hnot) in Hcl.
    apply clean_result_insert_none in Hcl as [_ ?]. discriminate.
Qed.

Lemma Delete_returned (d : Generic) (key : string) (revision : Z)
    (c c1 : Conn) (rev : Z) :
  Delete d key revision c = ((rev, true, None), c1) ->
  exists prev, latest_row (kine (db c)) key revision prev /\ deleted prev = 0
               /\ db c1 = (insert_row (tombstone_row revision prev) (db c)).1
               /\ rev = next_id (db c).
Proof.
  intros HD. rewrite Delete_unfold in HD.
  assert (finish_op (execute d (DeleteSQL key revision) c).1 = (rev, true, None))
    as Hres by congruence.
  assert ((execute d (DeleteSQL key revision) c).2 = c1) as Hc' by congruence.
  clear HD. apply op_returned in Hres as [Hdb Hcl]. rewrite Hc' in Hdb.
  destruct (live_at_dec (kine (db c)) key revision) as [(prev & Hl & Hd)|Hnot].
  - rewrite (DeleteSQL_hit key revision (db c) prev Hl Hd) in Hdb, Hcl.
    apply clean_result_insert_row in Hcl as [-> _]. now exists prev.
  - rewrite (DeleteSQL_miss key revision (db c) Hnot) in Hcl.
    apply clean_result_insert_none in Hcl as [_ ?]. discriminate.
Qed.

(** X4.  After a successful [Create] or [Update] that returned [rev], the
    key is live exactly at [rev]: another [Create] of the key inserts
    nothing, and so does every [Update] or [Delete] that expects a revision
    other than [rev], in particular the revision the [Update] has just
    consumed. *)
Theorem write_makes_revision_current
    (d : Generic) (key val : string) (ttl preRev : Z) (c c1 : Conn) (rev : Z) :
  Create d key val ttl c = ((rev, true, None), c1)
  \/ Update d key val preRev ttl c = ((rev, true, None), c1) ->
  live_at (kine (db c1)) key rev
  /\ (forall val' ttl', miss_outcome (translate d) c1 (Create d key val' ttl' c1))
  /\ (forall p val' ttl', p <> rev ->
        miss_outcome (translate d) c1 (Update d key val' p ttl' c1)
        /\ miss_outcome (fun e => e) c1 (Delete d key p c1)).
Proof.
  intros H.
  assert (live_at (kine (db c1)) key rev) as Hlive.
  { destruct H as [HC|HU].
    - apply Create_returned in HC as (p & -> & ->).
      exists (mkRow key 1 0 0 p ttl (Some val) None). split; [|reflexivity].
      apply (insert_row_latest (db c) (mkRow key 1 0 0 p ttl (Some val) None)).
    - apply Update_returned in HU as (prev & _ & _ & -> & ->).
      exists (updated_row key val ttl preRev prev). split; [|reflexivity].
      apply (insert_row_latest (db c) (updated_row key val ttl preRev prev)). }
  split; [exact Hlive|]. split.
  - intros val' ttl'. apply Create_miss_outcome. now exists rev.
  - intros p val' ttl' Hp.
    assert (~ live_at (kine (db c1)) key p) as Hnot.
    { intros Hp'. apply Hp. now apply (live_at_unique _ _ _ _ Hp' Hlive). }
    split; [now apply Update_miss_outcome|now apply Delete_miss_outcome].
Qed.

(** X5.  After a successful [Delete] the key has no live row: every
    [Update] and every [Delete] of the key, whatever revision it expects,
    inserts nothing and returns [(0, false)], and the row with the key's
    greatest id is the tombstone, under the returned revision. *)
Theorem Delete_leaves_no_live_row
    (d : Generic) (key : string) (revision : Z) (c c1 : Conn) (rev : Z) :
  Delete d key revision c = ((rev, true, None), c1) ->
  (exists tomb, latest_row (kine (db c1)) key rev tomb /\ deleted tomb = 1)
  /\ (forall p, ~ live_at (kine (db c1)) key p)
  /\ (forall p val ttl,
        miss_outcome (translate d) c1 (Update d key val p ttl c1)
        /\ miss_outcome (fun e => e) c1 (Delete d key p c1)).
Proof.
  intros HD. apply Delete_returned in HD as (prev & (Hp & Hn & _) & _ & Hdb & ->).
  pose proof (insert_row_latest (db c) (tombstone_row revision prev)) as HL.
  cbn [name tombstone_row] in HL. rewrite Hn, <- Hdb in HL.
  assert (forall p, ~ live_at (kine (db c1)) key p) as Hnone.
  { intros p (r & Hl & Hd).
    destruct (latest_row_unique _ _ _ _ _ _ HL Hl) as [_ <-]. discriminate. }
  split; [now exists (tombstone_row revision prev)|]. split; [exact Hnone|].
  intros p val ttl.
  split; [apply Update_miss_outcome|apply Delete_miss_outcome]; apply Hnone.
Qed.

(** * Invariants of the log *)

Lemma insert_linked (r : Row) (d : DB) :
  linked (kine d) ->
  (name r <> compact_rev_key -> created r = 0 -> prev_revision r <> 0 ->
   exists x, kine d !! prev_revision r = Some x /\ name x = name r) ->
  linked (kine (insert_row r d).1).
Proof.
  intros HL Hr j r0 Hj Hn Hc Hp. simpl in Hj |- *.
  destruct (decide (next_id d = j)) as [<-|Hne].
  - rewrite lookup_insert_eq in Hj. injection Hj as <-.
    destruct (Hr Hn Hc Hp) as (x & Hx & Hnx).
    pose proof (next_id_fresh d _ _ Hx) as Hlt. split; [exact Hlt|].
    intros p. rewrite lookup_insert_ne by lia. congruence.
  - rewrite lookup_insert_ne in Hj by exact Hne.
    destruct (HL j r0 Hj Hn Hc Hp) as [Hlt Hsame]. split; [exact Hlt|].
    pose proof (next_id_fresh d _ _ Hj) as Hj'.
    intros p. rewrite lookup_insert_ne by lia. apply Hsame.
Qed.

Lemma write_linked (d : Generic) (key val : string) (ttl p : Z) (c : Conn) (s : Stmt) :
  s = CreateSQL key ttl val key \/ s = UpdateSQL key ttl val key p
  \/ s = DeleteSQL key p ->
  linked (kine (db c)) -> linked (kine (db (execute d s c).2)).
Proof.
  intros Hs HL. destruct (op_db_cases d s c) as [ -> | -> ]; [exact HL|].
  destruct (write_stmt_cases key val ttl p (db c) s Hs) as [ -> | (r & -> & Hn & Hprev)].
  - exact HL.
  - apply insert_linked; [exact HL|]. intros _ Hc Hp. rewrite Hn. now apply Hprev.
Qed.

Lemma linked_shrunk (m m' : gmap Z Row) : shrunk m m' -> linked m -> linked m'.
Proof.
  intros Hs HL j r' Hj Hn Hc Hp.
  destruct (Hs j r' Hj) as (r & Hr & Hname & Hsame).
  rewrite Hname in Hn. rewrite (Hsame Hn) in *.
  destruct (HL j r Hr Hn Hc Hp) as [Hlt Hprev]. split; [exact Hlt|].
  intros p' Hp'. destruct (Hs _ _ Hp') as (p & Hpm & Hpn & _).
  rewrite Hpn. now apply Hprev.
Qed.

Lemma gone_dec (start end_ : Z) (m : gmap Z Row) (i : Z) (r : Row) :
  (superseded start end_ m i \/ tombstone_in start end_ i r)
  \/ ~ (superseded start end_ m i \/ tombstone_in start end_ i r).
Proof.
  destruct (decide (i ∈ compact_prevs start end_ m)) as [Hin|Hnin].
  - left. left. now apply compact_prevs_spec.
  - unfold tombstone_in.
    destruct (Z.eq_dec (deleted r) 1); [|right; intros [H|H]; [|tauto]].
    + destruct (Z_lt_dec start i); [|right; intros [H|H]; [|tauto]].
      * destruct (Z_le_dec i end_); [left; right; tauto|right; intros [H|H]; [|tauto]].
        now apply compact_prevs_spec in H.
      * now apply compact_prevs_spec in H.
    + now apply compact_prevs_spec in H.
Qed.

Lemma compaction_shrunk (start end_ : Z) (m m' : gmap Z Row) :
  compaction_of start end_ m m' -> shrunk m m'.
Proof.
  intros HC i r' Hi. specialize (HC i).
  destruct (m !! i) as [r|] eqn:Hm; [|congruence].
  destruct HC as [Hgone Hstay]. exists r. split; [reflexivity|].
  destruct (gone_dec start end_ m i r) as [Hg|Hs].
  - rewrite (Hgone Hg) in Hi. discriminate.
  - rewrite (Hstay Hs) in Hi. injection Hi as <-.
    destruct (decide (name r = compact_rev_key)) as [Hmark|Hn]; [|now split].
    split; [reflexivity|]. intros H. now destruct H.
Qed.

Lemma GetCompactRevision_db (d : Generic) (c : Conn) :
  db (GetCompactRevision d c).2 = db c.
Proof.
  unfold GetCompactRevision.
  destruct (query_outcome d revisionIntervalSQL c) as [Hdb _].
  destruct (query d revisionIntervalSQL c) as [[rows err] c']. exact Hdb.
Qed.

(** What any call of [Compact] does to the table: nothing, or one
    compaction of some window. *)
Lemma Compact_kine_cases (d : Generic) (revision : Z) (c : Conn) :
  db (Compact d revision c).2 = db c
  \/ exists start end_,
       compaction_of start end_ (kine (db c)) (kine (db (Compact d revision c).2)).
Proof.
  pose proof (GetCompactRevision_db d c) as Hdb.
  destruct (GetCompactRevision d c) as [[[compact current] [e|]] c1] eqn:HG.
  - left. unfold Compact. rewrite HG. exact Hdb.
  - rewrite (Compact_cases d revision c c1 compact current HG).
    destruct (compact >=? revision); [now left|].
    destruct (compact_loop_tries d compact (Z.min revision current)
                (Z.to_nat maxRetries) 0 None c1)
      as (n & _ & _ & Ht); [unfold maxRetries; lia|unfold maxRetries; lia|].
    apply compact_tries_db in Ht. cbn [snd] in Hdb. rewrite Hdb in Ht.
    destruct Ht as [Hok Herr].
    destruct ((compact_loop d compact (Z.min revision current)
                 (Z.to_nat maxRetries) 0 None c1).1) as [e|] eqn:E.
    + left. apply Herr. discriminate.
    + right. exists compact, (Z.min revision current). now apply Hok.
Qed.

Lemma tryCompact_kine_cases (d : Generic) (start end_ : Z) (c : Conn) :
  db (tryCompact d start end_ c).2 = db c
  \/ compaction_of start end_ (kine (db c)) (kine (db (tryCompact d start end_ c).2)).
Proof.
  destruct (tryCompact_pass d start end_ c) as (Hok & Herr & _).
  destruct ((tryCompact d start end_ c).1) as [e|].
  - left. apply Herr. discriminate.
  - right. now apply Hok.
Qed.

(** X6.  The write operations and compaction keep the log linked: if
    every row that is not the marker, is not a create and has a previous
    revision points to a lower id whose row, while it exists, has the same
    name, then the same holds after [Create], [Update], [Delete],
    [tryCompact] and [Compact], whatever they return.  The empty table is
    linked. *)
Theorem log_stays_linked
    (d : Generic) (key val : string) (ttl revision start end_ : Z) (c : Conn) :
  linked (kine (db c_empty))
  /\ (linked (kine (db c)) ->
      linked (kine (db (Create d key val ttl c).2))
      /\ linked (kine (db (Update d key val revision ttl c).2))
      /\ linked (kine (db (Delete d key revision c).2))
      /\ linked (kine (db (tryCompact d start end_ c).2))
      /\ linked (kine (db (Compact d revision c).2))).
Proof.
  split.
  - intros j r Hj. simpl in Hj. rewrite lookup_empty in Hj. discriminate.
  - intros HL. split; [|split; [|split; [|split]]].
    + rewrite Create_unfold. cbn [snd].
      apply (write_linked d key val ttl revision); auto.
    + rewrite Update_unfold. cbn [snd].
      apply (write_linked d key val ttl revision); auto.
    + rewrite Delete_unfold. cbn [snd].
      apply (write_linked d key val ttl revision); auto.
    + destruct (tryCompact_kine_cases d start end_ c) as [ -> | HC]; [exact HL|].
      apply (linked_shrunk (kine (db c))); [|exact HL].
      now apply compaction_shrunk with start end_.
    + destruct (Compact_kine_cases d revision c) as [ -> | (s & e & HC)]; [exact HL|].
      apply (linked_shrunk (kine (db c))); [|exact HL].
      now apply compaction_shrunk with s e.
Qed.

Lemma compaction_keeps_latest (start end_ : Z) (m m' : gmap Z Row)
    (key : string) (i : Z) (r : Row) :
  linked m -> compaction_of start end_ m m' ->
  key <> compact_rev_key -> latest_row m key i r -> deleted r = 0 ->
  latest_row m' key i r.
Proof.
  intros HL HC Hkey (Hi & Hn & Hmax) Hd.
  pose proof (compaction_shrunk _ _ _ _ HC) as Hs.
  split; [|split; [exact Hn|]].
  - specialize (HC i). rewrite Hi in HC. destruct HC as [_ Hstay].
    rewrite Hstay.
    + destruct (decide (name r = compact_rev_key)); [congruence|reflexivity].
    + intros [(j & x & Hj & Hlo & Hhi & Hnx & Hcx & Hpx & Heq)|(Hdel & _)]; [|lia].
      destruct (HL j x Hj Hnx Hcx Hpx) as [Hlt Hsame].
      rewrite Heq in Hlt, Hsame. specialize (Hsame r Hi).
      assert (j <= i) by (apply (Hmax j x Hj); congruence). lia.
  - intros j r' Hj Hn'. destruct (Hs j r' Hj) as (x & Hx & Hname & _).
    apply (Hmax j x Hx). congruence.
Qed.

(** X7.  On a linked log, compaction never removes or changes the live
    row of a key: if a key other than the marker has a live latest row, that
    same row is still the key's latest row after [tryCompact] and after
    [Compact], whatever the window and whatever they return. *)
Theorem compaction_keeps_live_rows
    (d : Generic) (revision start end_ : Z) (c : Conn)
    (key : string) (i : Z) (r : Row) :
  linked (kine (db c)) ->
  key <> compact_rev_key ->
  latest_row (kine (db c)) key i r -> deleted r = 0 ->
  latest_row (kine (db (tryCompact d start end_ c).2)) key i r
  /\ latest_row (kine (db (Compact d revision c).2)) key i r.
Proof.
  intros HL Hkey Hl Hd. split.
  - destruct (tryCompact_kine_cases d start end_ c) as [ -> | HC]; [exact Hl|].
    now apply (compaction_keeps_latest start end_ (kine (db c))).
  - destruct (Compact_kine_cases d revision c) as [ -> | (s & e & HC)]; [exact Hl|].
    now apply (compaction_keeps_latest s e (kine (db c))).
Qed.

(** * The compact revision *)

Lemma sql_max_unique (e : Z -> Row -> Z) (m : gmap Z Row) (a : Z) :
  (exists i r, m !! i = Some r /\ e i r = a) ->
  (forall i r, m !! i = Some r -> e i r <= a) ->
  sql_max e m = Some a.
Proof.
  intros (i & r & Hi & Ha) Hmax.
  pose proof (sql_max_spec e m) as H. destruct (sql_max e m) as [b|].
  - destruct H as [(j & x & Hj & Hb) Hle].
    specialize (Hle i r Hi). specialize (Hmax j x Hj). f_equal. lia.
  - rewrite H, lookup_empty in Hi. discriminate.
Qed.

Lemma compaction_marker_rows (start end_ : Z) (m m' : gmap Z Row) (k : Z) (r' : Row) :
  compaction_of start end_ m m' ->
  m' !! k = Some r' -> name r' = compact_rev_key ->
  exists r, m !! k = Some r /\ name r = compact_rev_key
            /\ r' = advance_marker end_ r.
Proof.
  intros HC Hk Hn. specialize (HC k).
  destruct (m !! k) as [r|] eqn:Hm; [|congruence].
  destruct HC as [Hgone Hstay]. exists r. split; [reflexivity|].
  destruct (gone_dec start end_ m k r) as [Hg|Hs].
  - rewrite (Hgone Hg) in Hk. discriminate.
  - rewrite (Hstay Hs) in Hk. injection Hk as <-.
    destruct (decide (name r = compact_rev_key)) as [Hmark|Hne]; [now split|].
    contradiction.
Qed.

(** X8.  After a pass of [tryCompact] that returned nil, every marker row
    left in the table has [prev_revision >= end_].  If in addition the
    marker rows were not themselves deleted by the pass (none is referenced
    as [prev_revision] from the window, none is a tombstone of the window)
    and there is one, the compact revision afterwards is
    [max(compact revision before, end_)]: it never goes down. *)
Theorem compact_revision_advances (d : Generic) (start end_ : Z) (c : Conn) :
  (tryCompact d start end_ c).1 = None ->
  let m := kine (db c) in
  let m' := kine (db (tryCompact d start end_ c).2) in
  (forall k r', m' !! k = Some r' -> name r' = compact_rev_key ->
                end_ <= prev_revision r')
  /\ ((exists k r, m !! k = Some r /\ name r = compact_rev_key) ->
      (forall k r, m !! k = Some r -> name r = compact_rev_key ->
                   ~ (superseded start end_ m k \/ tombstone_in start end_ k r)) ->
      compact_revision m' = Z.max (compact_revision m) end_
      /\ compact_revision m <= compact_revision m').
Proof.
  intros Hnil m m'.
  destruct (tryCompact_pass d start end_ c) as (Hok & _ & _).
  destruct (Hok Hnil) as (HC & _ & _). fold m m' in HC. clear Hok. split.
  - intros k r' Hk Hn.
    destruct (compaction_marker_rows _ _ _ _ _ _ HC Hk Hn) as (r & _ & _ & ->).
    simpl. lia.
  - intros (k0 & r0 & Hk0 & Hn0) Hsurvive.
    assert (exists a, sql_max (fun _ r => prev_revision r)
                        (where_name compact_rev_key m) = Some a) as [a Ha].
    { pose proof (sql_max_spec (fun _ r => prev_revision r)
                    (where_name compact_rev_key m)) as H.
      destruct (sql_max _ _) as [a|]; [now exists a|].
      assert (where_name compact_rev_key m !! k0 = Some r0) as Hw
          by now apply where_name_lookup.
      rewrite H, lookup_empty in Hw. discriminate. }
    assert (compact_revision m = a) as Hcm by (unfold compact_revision; now rewrite Ha).
    pose proof (sql_max_spec (fun _ r => prev_revision r)
                  (where_name compact_rev_key m)) as Hspec.
    rewrite Ha in Hspec. destruct Hspec as [(k1 & r1 & Hk1 & Hp1) Hmax].
    apply where_name_lookup in Hk1 as [Hk1 Hn1].
    assert (compact_revision m' = Z.max a end_) as Hcm'.
    { unfold compact_revision.
      rewrite (sql_max_unique _ _ (Z.max a end_)); [reflexivity| |].
      - exists k1, (advance_marker end_ r1). split; [|simpl; now rewrite Hp1].
        apply where_name_lookup. split; [|exact Hn1].
        pose proof (HC k1) as HC1. rewrite Hk1 in HC1. destruct HC1 as [_ Hstay].
        rewrite Hstay by now apply Hsurvive.
        destruct (decide (name r1 = compact_rev_key)); [reflexivity|contradiction].
      - intros k r' Hk. apply where_name_lookup in Hk as [Hk Hn].
        destruct (compaction_marker_rows _ _ _ _ _ _ HC Hk Hn) as (r & Hr & Hnr & ->).
        simpl. assert (prev_revision r <= a).
        { apply (Hmax k r). now apply where_name_lookup. }
        lia. }
    rewrite Hcm', Hcm. split; [reflexivity|lia].
Qed.


(** X10.  Compaction can lower the current revision.  When the row with
    the greatest id of the table is a tombstone inside the window, a pass
    that returns nil deletes it, and [MAX(id)], which was that id, is
    strictly smaller afterwards. *)
Theorem trailing_tombstone_lowers_current_revision
    (d : Generic) (start end_ : Z) (c : Conn) (i : Z) (r : Row) :
  (tryCompact d start end_ c).1 = None ->
  kine (db c) !! i = Some r ->
  (forall j x, kine (db c) !! j = Some x -> j <= i) ->
  deleted r = 1 -> start < i -> i <= end_ -> 0 < i ->
  current_revision (kine (db c)) = i
  /\ kine (db (tryCompact d start end_ c).2) !! i = None
  /\ current_revision (kine (db (tryCompact d start end_ c).2)) < i.
Proof.
  intros Hnil Hi Hmax Hdel Hlo Hhi Hpos.
  destruct (tryCompact_pass d start end_ c) as (Hok & _ & _).
  destruct (Hok Hnil) as (HC & _ & _).
  set (m' := kine (db (tryCompact d start end_ c).2)) in *.
  assert (m' !! i = None) as Hgone.
  { specialize (HC i). rewrite Hi in HC. destruct HC as [Hg _]. apply Hg.
    right. repeat split; assumption. }
  split; [|split; [exact Hgone|]].
  - unfold current_revision. rewrite (sql_max_unique _ _ i); [reflexivity| |].
    + now exists i, r.
    + intros j x Hj. now apply (Hmax j x).
  - unfold current_revision.
    pose proof (sql_max_spec (fun i _ => i) m') as H.
    destruct (sql_max _ _) as [b|]; simpl; [|exact Hpos].
    destruct H as [(j & x & Hj & <-) _].
    destruct (compaction_shrunk _ _ _ _ HC j x Hj) as (y & Hy & _).
    specialize (Hmax j y Hy).
    destruct (Z.eq_dec j i) as [->|]; [congruence|lia].
Qed.

(** * The order of names *)

#[local] Arguments String.append : simpl nomatch.

Lemma ascii_compare_refl (a : ascii) : Ascii.compare a a = Eq.
Proof. unfold Ascii.compare. apply N.compare_refl. Qed.

Lemma string_compare_refl (s : string) : String.compare s s = Eq.
Proof.
  induction s as [|a s IH]; simpl; [reflexivity|]. now rewrite ascii_compare_refl.
Qed.

Lemma string_compare_app (p a b : string) :
  String.compare (p +:+ a) (p +:+ b) = String.compare a b.
Proof.
  induction p as [|c p IH]; simpl; [reflexivity|]. now rewrite ascii_compare_refl.
Qed.

Lemma string_compare_lt_trans (a b c : string) :
  String.compare a b = Lt -> String.compare b c <> Gt -> String.compare a c = Lt.
Proof.
  revert b c. induction a as [|x a IH]; intros [|y b] [|z c]; simpl; try congruence.
  unfold Ascii.compare.
  destruct (N.compare_spec (N_of_ascii x) (N_of_ascii y)) as [Hxy|Hxy|Hxy];
    destruct (N.compare_spec (N_of_ascii y) (N_of_ascii z)) as [Hyz|Hyz|Hyz];
    try congruence; intros H1 H2.
  - rewrite Hxy, Hyz, N.compare_refl. now apply IH with b.
  - rewrite Hxy. now apply N.compare_lt_iff in Hyz as ->.
  - rewrite <- Hyz. now apply N.compare_lt_iff in Hxy as ->.
  - assert (N_of_ascii x < N_of_ascii z)%N as Hxz by lia.
    now apply N.compare_lt_iff in Hxz as ->.
Qed.

Lemma string_lt_app_cons (s : string) (c : ascii) (t : string) :
  String.compare s (s +:+ String c t) = Lt.
Proof.
  induction s as [|a s IH]; simpl; [reflexivity|]. now rewrite ascii_compare_refl.
Qed.

Lemma string_leb_refl (s : string) : String.leb s s = true.
Proof. unfold String.leb. now rewrite string_compare_refl. Qed.

Lemma N_of_ascii_inj (a b : ascii) : N_of_ascii a = N_of_ascii b -> a = b.
Proof. intros H. rewrite <- (ascii_N_embedding a), <- (ascii_N_embedding b). now rewrite H. Qed.

(** The names between [p ++ "/"] and [p ++ "0"] are those that begin with
    [p ++ "/"]. *)
Lemma in_range_slash (p s : string) :
  in_range (p +:+ "/") (p +:+ "0") s = true <-> exists t, s = (p +:+ "/") +:+ t.
Proof.
  unfold in_range, String.leb, String.ltb. revert s.
  induction p as [|c p IH]; intros [|x s]; simpl.
  - split; [discriminate|]. intros [t Ht]. discriminate.
  - unfold Ascii.compare. change (N_of_ascii "/") with 47%N.
    change (N_of_ascii "0") with 48%N.
    destruct (N.compare_spec 47 (N_of_ascii x)) as [Hx|Hx|Hx].
    + rewrite <- Hx. simpl.
      assert (x = "/"%char) as -> by (apply N_of_ascii_inj; now rewrite <- Hx).
      split; [intros _; now exists s|]. intros _. now destruct s.
    + simpl. destruct (N.compare_spec (N_of_ascii x) 48) as [Hy|Hy|Hy]; [|lia|].
      * split; [now destruct s|]. intros [t [= -> _]]. discriminate.
      * split; [discriminate|]. intros [t [= -> _]]. discriminate.
    + simpl. split; [discriminate|]. intros [t [= -> _]].
      change (N_of_ascii "/") with 47%N in Hx. lia.
  - split; [discriminate|]. intros [t Ht]. discriminate.
  - unfold Ascii.compare.
    destruct (N.compare_spec (N_of_ascii c) (N_of_ascii x)) as [Hx|Hx|Hx].
    + apply N_of_ascii_inj in Hx as <-. rewrite N.compare_refl.
      rewrite IH. split; intros [t Ht]; exists t; [now rewrite Ht|now injection Ht].
    + pose proof Hx as Hx'. apply N.compare_gt_iff in Hx' as ->. simpl.
      split; [discriminate|]. intros [t [= -> _]]. lia.
    + simpl. split; [discriminate|]. intros [t [= -> _]]. lia.
Qed.

(** The names between [p] and [p ++ "\x01"] are [p] itself and the names
    that continue [p] with the byte [0x00]. *)
Lemma in_range_x01 (p s : string) :
  in_range p (p +:+ x01) s = true
  <-> s = p \/ exists t, s = p +:+ String zero t.
Proof.
  unfold in_range, String.leb, String.ltb, x01. revert s.
  induction p as [|c p IH]; intros [|x s]; simpl.
  - split; [now left|reflexivity].
  - unfold Ascii.compare. change (N_of_ascii (ascii_of_nat 1)) with 1%N.
    destruct (N.compare_spec (N_of_ascii x) 1) as [Hx|Hx|Hx].
    + split; [now destruct s|]. intros [H|[t [= -> _]]]; discriminate.
    + assert (x = zero) as -> by (apply N_of_ascii_inj; simpl; lia).
      split; [intros _; right; now exists s|reflexivity].
    + split; [discriminate|]. intros [H|[t [= -> _]]]; [discriminate|].
      change (N_of_ascii zero) with 0%N in Hx. lia.
  - split; [discriminate|]. intros [H|[t H]]; discriminate.
  - unfold Ascii.compare.
    destruct (N.compare_spec (N_of_ascii c) (N_of_ascii x)) as [Hx|Hx|Hx].
    + apply N_of_ascii_inj in Hx as <-. rewrite N.compare_refl.
      rewrite IH. split.
      * intros [ -> |[t ->]]; [now left|right; now exists t].
      * intros [[= ->]|[t [= ->]]]; [now left|right; now exists t].
    + pose proof Hx as Hx'. apply N.compare_gt_iff in Hx' as ->. simpl.
      split; [discriminate|]. intros [[= -> _]|[t [= -> _]]]; lia.
    + simpl. split; [discriminate|]. intros [[= -> _]|[t [= -> _]]]; lia.
Qed.

(** X11.  The range [getPrefixRange] gives covers, for a prefix that ends
    with ["/"], exactly the names that begin with the prefix; for any other
    prefix, the prefix itself and the names that continue it with the byte
    [0x00], and nothing else (so the empty prefix covers no name that
    begins with a byte other than [0x00]). *)
Theorem getPrefixRange_covers (prefix s : string) :
  in_range (getPrefixRange prefix).1 (getPrefixRange prefix).2 s = true
  <-> if GoStrings.HasSuffix prefix "/"
      then exists t, s = prefix +:+ t
      else s = prefix \/ exists t, s = prefix +:+ String zero t.
Proof.
  unfold getPrefixRange. cbn [fst snd].
  destruct (GoStrings.HasSuffix prefix "/") eqn:E.
  - apply HasSuffix_split in E as [q ->].
    change 1%nat with (String.length "/"). rewrite slice_append_l.
    apply in_range_slash.
  - apply in_range_x01.
Qed.

(** * The read path *)

Lemma ReadContext_inv {A : Type} (run : DB -> A) (c c' : Conn) (s : error + A) :
  ReadContext run c = (s, c') ->
  db c' = db c /\ tx_saved c' = tx_saved c /\ trace c' = trace c
  /\ forall r, s = inr r -> r = run (db c).
Proof.
  unfold ReadContext. destruct (call_fault c); intros [= <- <-]; cbn;
    repeat split; congruence.
Qed.

Lemma read_loop_outcome {A : Type} (d : Generic) (run : DB -> A)
    (fuel : nat) (k : Z) (last : option A * option error) (c : Conn) :
  last.2 <> None \/ ((0 < fuel)%nat /\ k < maxRetries) ->
  let out := retry_loop d (ReadContext run) fuel k last c in
  db out.2 = db c /\ tx_saved out.2 = tx_saved c /\ trace out.2 = trace c
  /\ (out.1.1.2 = None -> out.1.1.1 = Some (run (db c))).
Proof.
  cbv zeta. revert k last c.
  induction fuel as [|fuel IH]; intros k last c Hlast; cbn [retry_loop].
  - cbn [fst snd]. repeat split; try reflexivity. intros H.
    destruct Hlast as [Hl|[Hf _]]; [|lia]. now destruct Hl.
  - destruct (Z.ltb_spec k maxRetries) as [Hk|Hk].
    + destruct (ReadContext run c) as [[e|r] c'] eqn:E;
        apply ReadContext_inv in E as (Hdb & Htx & Htr & Hr).
      * destruct (retryable d e).
        -- rewrite <- Hdb, <- Htx, <- Htr. apply IH. left. discriminate.
        -- cbn [fst snd]. repeat split; try assumption. discriminate.
      * cbn [fst snd]. repeat split; try assumption. intros _. f_equal. now apply Hr.
    + cbn [fst snd]. repeat split; try reflexivity. intros H.
      destruct Hlast as [Hl|[_ Hlt]]; [now destruct Hl|lia].
Qed.

Lemma query_read_unchanged {A : Type} (d : Generic) (run : DB -> A) (c : Conn) :
  db (query_read d run c).2 = db c
  /\ tx_saved (query_read d run c).2 = tx_saved c
  /\ trace (query_read d run c).2 = trace c
  /\ ((query_read d run c).1.2 = None ->
      (query_read d run c).1.1 = Some (run (db c))).
Proof.
  unfold query_read.
  pose proof (read_loop_outcome d run (Z.to_nat maxRetries) 0 (None, None) c) as H.
  cbv zeta in H.
  destruct (retry_loop d (ReadContext run) (Z.to_nat maxRetries) 0 (None, None) c)
    as [[[rows err] k] c'].
  cbn [fst snd] in *.
  destruct H as (Hdb & Htx & Htr & Hrows); [right; unfold maxRetries; lia|].
  repeat split; try assumption. destruct err; [discriminate|]. intros _. now apply Hrows.
Qed.

Lemma retry_loop_first_success {A : Type} (d : Generic)
    (call : Conn -> (error + A) * Conn) (last : option A * option error)
    (c c' : Conn) (r : A) :
  call c = (inr r, c') ->
  retry_loop d call (Z.to_nat maxRetries) 0 last c = ((Some r, None), 0, c').
Proof.
  intros Hc. destruct (Z.to_nat maxRetries) as [|fuel] eqn:E;
    [vm_compute in E; discriminate|].
  cbn [retry_loop]. change (0 <? maxRetries) with true. cbv iota. now rewrite Hc.
Qed.

Lemma query_read_fault_free {A : Type} (d : Generic) (run : DB -> A) (c : Conn) :
  fault_free c ->
  (query_read d run c).1 = (Some (run (db c)), None)
  /\ fault_free (query_read d run c).2.
Proof.
  intros Hff. unfold query_read.
  rewrite (retry_loop_first_success d (ReadContext run) (None, None) c
             (mkConn (db c) (tx_saved c) [] (trace c)) (run (db c))).
  - now split.
  - unfold ReadContext, call_fault. now rewrite Hff.
Qed.

Lemma sql_limit_None_or_take {A : Type} (limit : Z) (rows : list A) :
  sql_limit (if limit >? 0 then Some limit else None) rows
  = if limit >? 0 then take (Z.to_nat limit) rows else rows.
Proof. now destruct (limit >? 0). Qed.

Lemma ListCurrent_fault_free (d : Generic) (prefix startKey : string) (limit : Z)
    (includeDeleted : bool) (c : Conn) :
  fault_free c ->
  (ListCurrent d prefix startKey limit includeDeleted c).1
  = (Some (sql_limit (if limit >? 0 then Some limit else None)
             (list_rows (read_start prefix startKey) (getPrefixRange prefix).2
                None includeDeleted (kine (db c)))), None).
Proof.
  intros Hff. unfold ListCurrent, read_start, getPrefixRange. cbv zeta. cbn [fst snd].
  destruct (limit >? 0);
    now rewrite (proj1 (query_read_fault_free d _ c Hff)).
Qed.

Lemma List_fault_free (d : Generic) (prefix startKey : string) (limit revision : Z)
    (includeDeleted : bool) (c : Conn) :
  fault_free c ->
  (List d prefix startKey limit revision includeDeleted c).1
  = (Some (sql_limit (if limit >? 0 then Some limit else None)
             (list_rows (read_start prefix startKey) (getPrefixRange prefix).2
                (Some revision) includeDeleted (kine (db c)))), None).
Proof.
  intros Hff. unfold List, read_start, getPrefixRange. cbv zeta. cbn [fst snd].
  destruct (String.eqb startKey ""); destruct (limit >? 0);
    now rewrite (proj1 (query_read_fault_free d _ c Hff)).
Qed.

Lemma max_id_of_Some (key : string) (f : gmap Z Row) (i : Z) :
  max_id_of key f = Some i <-> exists r, latest_row f key i r.
Proof.
  split.
  - intros H. pose proof (sql_max_spec (fun i _ => i) (where_name key f)) as Hs.
    unfold max_id_of in H. rewrite H in Hs. destruct Hs as [(j & r & Hj & <-) Hmax].
    apply where_name_lookup in Hj as [Hj Hn]. exists r. split; [exact Hj|].
    split; [exact Hn|]. intros j' r' Hj' Hn'. apply (Hmax j' r').
    now apply where_name_lookup.
  - intros (r & Hl). apply max_row_of_Some in Hl. unfold max_row_of in Hl.
    destruct (max_id_of key f) as [j|]; [|discriminate].
    destruct (f !! j); [|discriminate]. now injection Hl as -> _.
Qed.

Lemma group_max_ids_spec (f : gmap Z Row) (i : Z) :
  i ∈ group_max_ids f <-> exists r, latest_row f (name r) i r.
Proof.
  unfold group_max_ids. rewrite elem_of_list_to_set, list_elem_of_omap. split.
  - intros ([j x] & Hin & Hmax). simpl in Hmax.
    apply max_id_of_Some in Hmax as (r & Hl). exists r.
    destruct Hl as (Hi & Hn & Hm). rewrite Hn. now repeat split.
  - intros (r & Hl). exists (i, r). split.
    + apply elem_of_map_to_list. now destruct Hl.
    + simpl. apply max_id_of_Some. now exists r.
Qed.

Lemma list_rows_spec (start end_ : string) (revision : option Z)
    (includeDeleted : bool) (m : gmap Z Row) (i : Z) (r : Row) :
  (i, r) ∈ list_rows start end_ revision includeDeleted m
  <-> visible_at start end_ revision includeDeleted m i r.
Proof.
  unfold list_rows, visible_at. rewrite merge_sort_Permutation, elem_of_map_to_list.
  rewrite !map_lookup_filter_Some. cbn [fst snd].
  rewrite group_max_ids_spec. split.
  - intros ((Hi & (r' & Hf & Hn & Hmax)) & Hdel).
    apply map_lookup_filter_Some in Hf as (Hi' & Hr & Hup). cbn [fst snd] in *.
    assert (r' = r) as -> by congruence.
    repeat split; try assumption.
    intros j x Hj Hnx Hupj. apply (Hmax j x); [|exact Hnx].
    apply map_lookup_filter_Some. cbn [fst snd]. rewrite Hnx. now repeat split.
  - intros (Hi & Hr & Hup & Hmax & Hdel). split; [|exact Hdel]. split; [exact Hi|].
    exists r. split; [|split; [reflexivity|]].
    + apply map_lookup_filter_Some. now repeat split.
    + intros j x Hj Hnx. apply map_lookup_filter_Some in Hj as (Hj & _ & Hupj).
      now apply (Hmax j x).
Qed.

#[local] Instance by_name_id_total : Total by_name_id.
Proof.
  intros a b. unfold by_name_id, String.ltb.
  rewrite (String.compare_antisym (name a.2) (name b.2)).
  destruct (String.compare (name b.2) (name a.2)) eqn:E; simpl; auto.
  apply String.compare_eq_iff in E.
  destruct (Z_le_dec a.1 b.1); [left; right|right; right]; split; auto; lia.
Qed.

#[local] Instance by_id_total : Total by_id.
Proof. intros a b. unfold by_id. lia. Qed.

Lemma Sorted_strict {X : Type} (R S : relation X) (l : list X) :
  (forall a b, a ∈ l -> b ∈ l -> R a b -> a = b \/ S a b) ->
  NoDup l -> Sorted R l -> Sorted S l.
Proof.
  intros Hrs Hnd Hs. induction Hs as [|a l Hs IH Hhd]; [constructor|].
  apply NoDup_cons in Hnd as [Hna Hnd].
  constructor.
  - apply IH; [|exact Hnd]. intros x y Hx Hy. apply Hrs; now right.
  - destruct Hhd as [|b l' Hab]; constructor.
    destruct (Hrs a b) as [->|H]; [now left|right; now left|exact Hab| |exact H].
    destruct Hna. now left.
Qed.

Lemma list_rows_sorted (start end_ : string) (revision : option Z)
    (includeDeleted : bool) (m : gmap Z Row) :
  Sorted name_lt (list_rows start end_ revision includeDeleted m).
Proof.
  apply (Sorted_strict by_name_id).
  - intros [i r] [j x] Ha Hb [Hlt|[Hn Hle]]; [now right|left].
    apply list_rows_spec in Ha as (Hi & _ & Hupi & Hmi & _).
    apply list_rows_spec in Hb as (Hj & _ & Hupj & Hmj & _).
    cbn [fst snd] in *.
    assert (j <= i) by (apply (Hmi j x); auto).
    assert (i <= j) by (apply (Hmj i r); auto).
    assert (i = j) as -> by lia. congruence.
  - unfold list_rows. rewrite merge_sort_Permutation. apply NoDup_map_to_list.
  - apply Sorted_merge_sort. apply _.
Qed.

(** X12.  Without faults and without a limit, [List] returns exactly the
    rows visible in its range at the revision: for every name in
    [[start, end)] the row with the greatest id at or below the revision,
    left out when it is a tombstone and [includeDeleted] is false; [start]
    is the start of the prefix range, or [startKey ++ "\x01"] when a start
    key is given.  [ListCurrent] returns the same without the bound on the
    id.  Both return the rows in strictly ascending order of name, one row
    per name. *)
Theorem List_returns_visible_rows
    (d : Generic) (prefix startKey : string) (limit revision : Z)
    (includeDeleted : bool) (c : Conn) :
  fault_free c -> limit <= 0 ->
  let start := read_start prefix startKey in
  let end_ := (getPrefixRange prefix).2 in
  (exists rows,
     (List d prefix startKey limit revision includeDeleted c).1 = (Some rows, None)
     /\ (forall i r, (i, r) ∈ rows
                     <-> visible_at start end_ (Some revision) includeDeleted
                           (kine (db c)) i r)
     /\ Sorted name_lt rows)
  /\ (exists rows,
        (ListCurrent d prefix startKey limit includeDeleted c).1 = (Some rows, None)
        /\ (forall i r, (i, r) ∈ rows
                        <-> visible_at start end_ None includeDeleted
                              (kine (db c)) i r)
        /\ Sorted name_lt rows).
Proof.
  intros Hff Hlimit start end_. subst start end_.
  assert ((limit >? 0) = false) as Hl by (rewrite Z.gtb_ltb; apply Z.ltb_ge; lia).
  split; eexists; (split; [|split]).
  - rewrite (List_fault_free _ _ _ _ _ _ _ Hff), Hl. reflexivity.
  - intros i r. apply list_rows_spec.
  - apply list_rows_sorted.
  - rewrite (ListCurrent_fault_free _ _ _ _ _ _ Hff), Hl. reflexivity.
  - intros i r. apply list_rows_spec.
  - apply list_rows_sorted.
Qed.

Lemma after_rows_spec (range : option (string * string)) (rev : Z)
    (m : gmap Z Row) (i : Z) (r : Row) :
  (i, r) ∈ after_rows range rev m
  <-> m !! i = Some r /\ rev < i /\ in_name_range range (name r) = true.
Proof.
  unfold after_rows. rewrite merge_sort_Permutation, elem_of_map_to_list.
  rewrite map_lookup_filter_Some. reflexivity.
Qed.

Lemma after_rows_sorted (range : option (string * string)) (rev : Z) (m : gmap Z Row) :
  Sorted id_lt (after_rows range rev m).
Proof.
  apply (Sorted_strict by_id).
  - intros [i r] [j x] Ha Hb Hle. unfold by_id, id_lt in *. cbn [fst] in *.
    apply after_rows_spec in Ha as (Hi & _). apply after_rows_spec in Hb as (Hj & _).
    destruct (Z.eq_dec i j) as [->|]; [left; congruence|right; lia].
  - unfold after_rows. rewrite merge_sort_Permutation. apply NoDup_map_to_list.
  - apply Sorted_merge_sort. apply _.
Qed.

Lemma After_fault_free (d : Generic) (rev limit : Z) (c : Conn) :
  fault_free c ->
  (After d rev limit c).1
  = (Some (sql_limit (if limit >? 0 then Some limit else None)
             (after_rows None rev (kine (db c)))), None).
Proof.
  intros Hff. unfold After.
  destruct (limit >? 0); now rewrite (proj1 (query_read_fault_free d _ c Hff)).
Qed.

Lemma AfterPrefix_fault_free (d : Generic) (prefix : string) (rev limit : Z) (c : Conn) :
  fault_free c ->
  (AfterPrefix d prefix rev limit c).1
  = (Some (sql_limit (if limit >? 0 then Some limit else None)
             (after_rows (Some (getPrefixRange prefix)) rev (kine (db c)))), None).
Proof.
  intros Hff. unfold AfterPrefix, getPrefixRange. cbv zeta.
  destruct (limit >? 0); now rewrite (proj1 (query_read_fault_free d _ c Hff)).
Qed.

(** X13.  Without faults and without a limit, [After] returns exactly the
    rows with an id above [rev], tombstones and all, in strictly ascending
    order of id; [AfterPrefix] returns those of them whose name is in the
    prefix range. *)
Theorem After_returns_the_tail
    (d : Generic) (prefix : string) (rev limit : Z) (c : Conn) :
  fault_free c -> limit <= 0 ->
  (exists rows,
     (After d rev limit c).1 = (Some rows, None)
     /\ (forall i r, (i, r) ∈ rows <-> kine (db c) !! i = Some r /\ rev < i)
     /\ Sorted id_lt rows)
  /\ (exists rows,
        (AfterPrefix d prefix rev limit c).1 = (Some rows, None)
        /\ (forall i r, (i, r) ∈ rows
                        <-> kine (db c) !! i = Some r /\ rev < i
                            /\ in_range (getPrefixRange prefix).1
                                 (getPrefixRange prefix).2 (name r) = true)
        /\ Sorted id_lt rows).
Proof.
  intros Hff Hlimit.
  assert ((limit >? 0) = false) as Hl by (rewrite Z.gtb_ltb; apply Z.ltb_ge; lia).
  split; eexists; (split; [|split]).
  - rewrite (After_fault_free _ _ _ _ Hff), Hl. reflexivity.
  - intros i r. cbn [sql_limit]. rewrite after_rows_spec. cbn. tauto.
  - apply after_rows_sorted.
  - rewrite (AfterPrefix_fault_free _ _ _ _ _ Hff), Hl. reflexivity.
  - intros i r. cbn [sql_limit]. rewrite after_rows_spec. reflexivity.
  - apply after_rows_sorted.
Qed.

(** X14.  A positive [limit] cuts the result to its first [limit] rows:
    without faults, [List], [ListCurrent], [After] and [AfterPrefix] called
    with [limit > 0] return the first [limit] rows of what they return
    without a limit, in the same order. *)
Theorem limit_takes_the_first_rows
    (d : Generic) (prefix startKey : string) (limit revision : Z)
    (includeDeleted : bool) (c : Conn) :
  fault_free c -> 0 < limit ->
  (exists rows,
     (List d prefix startKey 0 revision includeDeleted c).1 = (Some rows, None)
     /\ (List d prefix startKey limit revision includeDeleted c).1
        = (Some (take (Z.to_nat limit) rows), None))
  /\ (exists rows,
        (ListCurrent d prefix startKey 0 includeDeleted c).1 = (Some rows, None)
        /\ (ListCurrent d prefix startKey limit includeDeleted c).1
           = (Some (take (Z.to_nat limit) rows), None))
  /\ (exists rows,
        (After d revision 0 c).1 = (Some rows, None)
        /\ (After d revision limit c).1 = (Some (take (Z.to_nat limit) rows), None))
  /\ (exists rows,
        (AfterPrefix d prefix revision 0 c).1 = (Some rows, None)
        /\ (AfterPrefix d prefix revision limit c).1
           = (Some (take (Z.to_nat limit) rows), None)).
Proof.
  intros Hff Hlimit.
  assert ((limit >? 0) = true) as Hl by (rewrite Z.gtb_ltb; apply Z.ltb_lt; lia).
  split; [|split; [|split]]; eexists; split.
  - rewrite (List_fault_free _ _ _ _ _ _ _ Hff). reflexivity.
  - rewrite (List_fault_free _ _ _ _ _ _ _ Hff), Hl. reflexivity.
  - rewrite (ListCurrent_fault_free _ _ _ _ _ _ Hff). reflexivity.
  - rewrite (ListCurrent_fault_free _ _ _ _ _ _ Hff), Hl. reflexivity.
  - rewrite (After_fault_free _ _ _ _ Hff). reflexivity.
  - rewrite (After_fault_free _ _ _ _ Hff), Hl. reflexivity.
  - rewrite (AfterPrefix_fault_free _ _ _ _ _ Hff). reflexivity.
  - rewrite (AfterPrefix_fault_free _ _ _ _ _ Hff), Hl. reflexivity.
Qed.

(** X15.  Without faults, [CountCurrent] returns the current revision of
    the table ([0] when it is empty) and the number of rows [ListCurrent]
    returns for the same prefix and start key, without limit and without
    tombstones.  [Count] returns the same current revision, not the
    revision it was asked about, and the number of rows of [List] at that
    revision. *)
Theorem Count_is_the_length_of_List
    (d : Generic) (prefix startKey : string) (revision : Z) (c : Conn) :
  fault_free c ->
  (exists rows,
     (ListCurrent d prefix startKey 0 false c).1 = (Some rows, None)
     /\ (CountCurrent d prefix startKey c).1
        = (current_revision (kine (db c)), Z.of_nat (length rows), None))
  /\ (exists rows,
        (List d prefix startKey 0 revision false c).1 = (Some rows, None)
        /\ (Count d prefix startKey revision c).1
           = (current_revision (kine (db c)), Z.of_nat (length rows), None)).
Proof.
  intros Hff. split; eexists; split.
  - rewrite (ListCurrent_fault_free _ _ _ _ _ _ Hff). reflexivity.
  - unfold CountCurrent, getPrefixRange. cbv zeta.
    destruct (query_read_fault_free d
                (run_count_query
                   (CountCurrentSQL
                      (if String.eqb startKey "" then prefix else startKey +:+ x01)
                      (getPrefixRange prefix).2 false)) c Hff) as [Hq _].
    unfold getPrefixRange in Hq. cbn [snd] in Hq.
    destruct (query_read d _ c) as [[rows err] c'] eqn:E. cbn [fst] in Hq.
    injection Hq as -> ->. reflexivity.
  - rewrite (List_fault_free _ _ _ _ _ _ _ Hff). reflexivity.
  - unfold Count, getPrefixRange. cbv zeta.
    destruct (query_read_fault_free d
                (run_count_query
                   (CountRevisionSQL
                      (if String.eqb startKey "" then prefix else startKey +:+ x01)
                      (getPrefixRange prefix).2 revision false)) c Hff) as [Hq _].
    unfold getPrefixRange in Hq. cbn [snd] in Hq.
    destruct (query_read d _ c) as [[rows err] c'] eqn:E. cbn [fst] in Hq.
    injection Hq as -> ->. reflexivity.
Qed.

Lemma sql_limit_elem_of {A : Type} (limit : option Z) (rows : list A) (x : A) :
  x ∈ sql_limit limit rows -> x ∈ rows.
Proof.
  destruct limit as [n|]; cbn [sql_limit]; [|trivial].
  rewrite elem_of_take. intros (i & Hi & _). eapply list_elem_of_lookup_2. exact Hi.
Qed.

Lemma read_start_after (prefix startKey : string) :
  startKey <> "" -> read_start prefix startKey = startKey +:+ x01.
Proof.
  intros Hne. unfold read_start.
  destruct (String.eqb_spec startKey ""); [contradiction|reflexivity].
Qed.

Lemma in_range_after (startKey end_ n : string) :
  in_range (startKey +:+ x01) end_ n = true ->
  String.ltb startKey n = true /\ String.ltb n end_ = true.
Proof.
  unfold in_range. rewrite andb_true_iff. intros [Hle Hlt]. split; [|exact Hlt].
  unfold String.leb in Hle. unfold String.ltb.
  rewrite (string_compare_lt_trans startKey (startKey +:+ x01) n).
  - reflexivity.
  - apply string_lt_app_cons.
  - intros Hgt. now rewrite Hgt in Hle.
Qed.

(** X16.  With a start key, [List] and [ListCurrent] resume after it:
    without faults and under any limit, every row they return has a name
    strictly above [startKey] and strictly below the end of the prefix
    range.  The start of the prefix range plays no part then. *)
Theorem List_resumes_after_startKey
    (d : Generic) (prefix startKey : string) (limit revision : Z)
    (includeDeleted : bool) (c : Conn) :
  fault_free c -> startKey <> "" ->
  (exists rows,
     (List d prefix startKey limit revision includeDeleted c).1 = (Some rows, None)
     /\ forall i r, (i, r) ∈ rows ->
          String.ltb startKey (name r) = true
          /\ String.ltb (name r) (getPrefixRange prefix).2 = true)
  /\ (exists rows,
        (ListCurrent d prefix startKey limit includeDeleted c).1 = (Some rows, None)
        /\ forall i r, (i, r) ∈ rows ->
             String.ltb startKey (name r) = true
             /\ String.ltb (name r) (getPrefixRange prefix).2 = true).
Proof.
  intros Hff Hne. split; eexists; split.
  - apply (List_fault_free _ _ _ _ _ _ _ Hff).
  - intros i r Hin. apply sql_limit_elem_of, list_rows_spec in Hin as (_ & Hr & _).
    rewrite (read_start_after _ _ Hne) in Hr. now apply in_range_after.
  - apply (ListCurrent_fault_free _ _ _ _ _ _ Hff).
  - intros i r Hin. apply sql_limit_elem_of, list_rows_spec in Hin as (_ & Hr & _).
    rewrite (read_start_after _ _ Hne) in Hr. now apply in_range_after.
Qed.

Lemma execute_fault_free (d : Generic) (s : Stmt) (c : Conn) :
  fault_free c -> fault_free (execute d s c).2.
Proof.
  intros Hff. unfold fault_free in *.
  assert (exists r c', ExecContext s c = (inr r, c') /\ faults c' = [])
    as (r & c' & Hc & Hf).
  { unfold ExecContext, call_fault. rewrite Hff.
    destruct (run_stmt s (db c)) as [d' r]. eexists _, _. split; reflexivity. }
  unfold execute. rewrite (retry_loop_first_success d _ (None, None) c c' r Hc).
  exact Hf.
Qed.

Lemma query_fault_free (d : Generic) (q : Query) (c : Conn) :
  fault_free c ->
  (query d q c).1 = (Some (run_query q (db c)), None)
  /\ fault_free (query d q c).2.
Proof.
  intros Hff. unfold fault_free in *.
  assert (exists c', QueryContext q c = (inr (run_query q (db c)), c') /\ faults c' = [])
    as (c' & Hc & Hf).
  { unfold QueryContext, call_fault. rewrite Hff. eexists. split; reflexivity. }
  unfold query. rewrite (retry_loop_first_success d _ (None, None) c c' _ Hc).
  split; [reflexivity|exact Hf].
Qed.

Lemma Create_conn (d : Generic) (key val : string) (ttl : Z) (c : Conn) :
  (Create d key val ttl c).2 = (execute d (CreateSQL key ttl val key) c).2.
Proof. now rewrite Create_unfold. Qed.

Lemma Update_conn (d : Generic) (key val : string) (preRev ttl : Z) (c : Conn) :
  (Update d key val preRev ttl c).2 = (execute d (UpdateSQL key ttl val key preRev) c).2.
Proof. now rewrite Update_unfold. Qed.

Lemma Delete_conn (d : Generic) (key : string) (revision : Z) (c : Conn) :
  (Delete d key revision c).2 = (execute d (DeleteSQL key revision) c).2.
Proof. now rewrite Delete_unfold. Qed.

(** What a successful write leaves behind: one more row, under the
    returned revision, and a connection as free of faults as before. *)
Lemma write_returned (d : Generic) (key val : string) (preRev ttl : Z)
    (c c1 : Conn) (rev : Z) :
  Create d key val ttl c = ((rev, true, None), c1)
  \/ Update d key val preRev ttl c = ((rev, true, None), c1) ->
  (exists r, name r = key /\ value r = Some val /\ deleted r = 0
             /\ db c1 = (insert_row r (db c)).1 /\ rev = next_id (db c))
  /\ (fault_free c -> fault_free c1).
Proof.
  intros [H|H]; split.
  - apply Create_returned in H as (p & Hdb & ->).
    now exists (mkRow key 1 0 0 p ttl (Some val) None).
  - intros Hff. apply (f_equal snd) in H. rewrite Create_conn in H. cbn [snd] in H.
    rewrite <- H. now apply execute_fault_free.
  - apply Update_returned in H as (prev & _ & _ & Hdb & ->).
    now exists (updated_row key val ttl preRev prev).
  - intros Hff. apply (f_equal snd) in H. rewrite Update_conn in H. cbn [snd] in H.
    rewrite <- H. now apply execute_fault_free.
Qed.

Lemma visible_latest (start end_ : string) (includeDeleted : bool)
    (m : gmap Z Row) (i : Z) (r : Row) :
  latest_row m (name r) i r ->
  in_range start end_ (name r) = true ->
  deleted r = 0 \/ includeDeleted = true ->
  visible_at start end_ None includeDeleted m i r.
Proof.
  intros (Hi & _ & Hmax) Hr Hd. unfold visible_at. cbn [up_to].
  split; [exact Hi|]. split; [exact Hr|]. split; [reflexivity|].
  split; [|exact Hd]. intros j x Hj Hn _. now apply (Hmax j x).
Qed.

Lemma visible_is_latest (start end_ : string) (includeDeleted : bool)
    (m : gmap Z Row) (i j : Z) (r x : Row) :
  latest_row m (name r) i r ->
  visible_at start end_ None includeDeleted m j x ->
  name x = name r -> j = i /\ x = r.
Proof.
  intros (Hi & _ & Hmax) (Hj & _ & _ & Hmax' & _) Hn.
  assert (j = i) as ->.
  { pose proof (Hmax j x Hj Hn). pose proof (Hmax' i r Hi (eq_sym Hn) eq_refl). lia. }
  split; [reflexivity|congruence].
Qed.

Lemma ListCurrent_unlimited (d : Generic) (prefix startKey : string)
    (includeDeleted : bool) (c : Conn) :
  fault_free c ->
  (ListCurrent d prefix startKey 0 includeDeleted c).1
  = (Some (list_rows (read_start prefix startKey) (getPrefixRange prefix).2 None
             includeDeleted (kine (db c))), None).
Proof.
  intros Hff. rewrite (ListCurrent_fault_free _ _ _ _ _ _ Hff).
  change (0 >? 0) with false. cbn [sql_limit]. reflexivity.
Qed.

(** X17.  A read sees the last write: after a [Create] or an [Update] of
    [key] that succeeded with revision [rev] on a connection without
    faults, [ListCurrent] over any range that contains [key] returns the
    row with id [rev], name [key] and the value written, and no other row
    of that name. *)
Theorem ListCurrent_shows_the_last_write
    (d : Generic) (key val prefix startKey : string) (preRev ttl : Z)
    (includeDeleted : bool) (c c1 : Conn) (rev : Z) :
  fault_free c ->
  Create d key val ttl c = ((rev, true, None), c1)
  \/ Update d key val preRev ttl c = ((rev, true, None), c1) ->
  in_range (read_start prefix startKey) (getPrefixRange prefix).2 key = true ->
  exists rows r,
    (ListCurrent d prefix startKey 0 includeDeleted c1).1 = (Some rows, None)
    /\ (rev, r) ∈ rows /\ name r = key /\ value r = Some val
    /\ forall j x, (j, x) ∈ rows -> name x = key -> j = rev /\ x = r.
Proof.
  intros Hff Hw Hr.
  destruct (write_returned _ _ _ _ _ _ _ _ Hw) as [(r & Hn & Hv & Hd & Hdb & ->) Hff1].
  specialize (Hff1 Hff).
  pose proof (insert_row_latest (db c) r) as Hl. rewrite <- Hdb in Hl.
  exists (list_rows (read_start prefix startKey) (getPrefixRange prefix).2 None
            includeDeleted (kine (db c1))), r.
  split; [apply (ListCurrent_unlimited _ _ _ _ _ Hff1)|].
  split; [|split; [exact Hn|split; [exact Hv|]]].
  - apply list_rows_spec, visible_latest; [exact Hl|now rewrite Hn|now left].
  - intros j x Hin Hx. apply list_rows_spec in Hin.
    apply (visible_is_latest _ _ _ _ _ _ _ _ Hl Hin). congruence.
Qed.

(** X18.  A read does not see a deleted key: after a [Delete] of [key] that
    succeeded with revision [rev] on a connection without faults,
    [ListCurrent] without [includeDeleted] returns no row of that name,
    and with [includeDeleted], over a range that contains [key], it
    returns the tombstone with id [rev] as the only row of that name. *)
Theorem ListCurrent_hides_a_deleted_key
    (d : Generic) (key prefix startKey : string) (revision : Z)
    (c c1 : Conn) (rev : Z) :
  fault_free c ->
  Delete d key revision c = ((rev, true, None), c1) ->
  in_range (read_start prefix startKey) (getPrefixRange prefix).2 key = true ->
  (exists rows,
     (ListCurrent d prefix startKey 0 false c1).1 = (Some rows, None)
     /\ forall j x, (j, x) ∈ rows -> name x <> key)
  /\ (exists rows r,
        (ListCurrent d prefix startKey 0 true c1).1 = (Some rows, None)
        /\ (rev, r) ∈ rows /\ name r = key /\ deleted r = 1 /\ value r = None
        /\ forall j x, (j, x) ∈ rows -> name x = key -> j = rev /\ x = r).
Proof.
  intros Hff HD Hr.
  assert (fault_free c1) as Hff1.
  { apply (f_equal snd) in HD. rewrite Delete_conn in HD. cbn [snd] in HD.
    rewrite <- HD. now apply execute_fault_free. }
  apply Delete_returned in HD as (prev & (_ & Hn & _) & _ & Hdb & ->).
  pose proof (insert_row_latest (db c) (tombstone_row revision prev)) as Hl.
  rewrite <- Hdb in Hl. cbn [tombstone_row name] in Hl. split.
  - eexists. split; [apply (ListCurrent_unlimited _ _ _ _ _ Hff1)|].
    intros j x Hin Hx. apply list_rows_spec in Hin.
    pose proof Hin as (_ & _ & _ & _ & Hd).
    destruct (visible_is_latest _ _ _ _ _ _ _ _ Hl Hin) as [_ ->];
      [cbn; congruence|].
    cbn in Hd. destruct Hd; discriminate.
  - exists (list_rows (read_start prefix startKey) (getPrefixRange prefix).2 None
              true (kine (db c1))), (tombstone_row revision prev).
    split; [apply (ListCurrent_unlimited _ _ _ _ _ Hff1)|].
    split; [|split; [exact Hn|split; [reflexivity|split; [reflexivity|]]]].
    + apply list_rows_spec, visible_latest; [exact Hl| |now right].
      cbn [tombstone_row name]. now rewrite Hn.
    + intros j x Hin Hx. apply list_rows_spec in Hin.
      apply (visible_is_latest _ _ _ _ _ _ _ _ Hl Hin). cbn. congruence.
Qed.

Lemma sql_max_empty (e : Z -> Row -> Z) : sql_max e (∅ : gmap Z Row) = None.
Proof.
  pose proof (sql_max_spec e ∅) as H. destruct (sql_max e ∅) as [a|]; [|reflexivity].
  destruct H as [(i & r & Hi & _) _]. rewrite lookup_empty in Hi. discriminate.
Qed.

Lemma sql_max_nonempty (e : Z -> Row -> Z) (m : gmap Z Row) :
  m <> ∅ -> exists a, sql_max e m = Some a.
Proof.
  intros Hne. pose proof (sql_max_spec e m) as H.
  destruct (sql_max e m) as [a|]; [now exists a|contradiction].
Qed.

Lemma CurrentRevision_unfold (d : Generic) (c : Conn) :
  CurrentRevision d c
  = (match (query d revSQL c).1.2 with
     | Some err => (0, Some err)
     | None =>
         match default [] (query d revSQL c).1.1 with
         | [] =>
             (0, Some (ErrMsg
                "can't get current revision: aggregate query returned empty set"))
         | [Some id] :: _ => (id, None)
         | [None] :: _ =>
             (0, Some (ErrMsg "sql: Scan error: converting NULL to int64 is unsupported"))
         | _ :: _ => (0, Some (ErrMsg "sql: wrong number of destination arguments in Scan"))
         end
     end, (query d revSQL c).2).
Proof.
  unfold CurrentRevision. now destruct (query d revSQL c) as [[rows err] c'].
Qed.

(** X19.  [CurrentRevision] returns a revision only for a table with rows:
    whatever the engine does, a nil error comes with the greatest id of the
    table, and on the empty table the error is never nil ([MAX(id)] is
    [NULL], which the scan into an [int64] refuses).  Without faults a
    table with rows always gives its greatest id.  The database is not
    modified.  [GetCompactRevision], which scans into nullable integers,
    does not fail on the empty table: without faults it returns the compact
    revision and the current revision, [0] standing for [NULL]. *)
Theorem CurrentRevision_needs_a_row (d : Generic) (c : Conn) :
  (forall rev, (CurrentRevision d c).1 = (rev, None) ->
     is_Some (kine (db c) !! rev)
     /\ forall i r, kine (db c) !! i = Some r -> i <= rev)
  /\ (kine (db c) = ∅ -> (CurrentRevision d c).1.2 <> None)
  /\ (kine (db c) <> ∅ -> fault_free c ->
      (CurrentRevision d c).1 = (current_revision (kine (db c)), None))
  /\ db (CurrentRevision d c).2 = db c
  /\ (fault_free c ->
      (GetCompactRevision d c).1
      = (compact_revision (kine (db c)), current_revision (kine (db c)), None)).
Proof.
  rewrite CurrentRevision_unfold. cbn [fst snd].
  destruct (query_outcome d revSQL c) as [Hdb Hrows].
  pose proof (sql_max_spec (fun i _ => i) (kine (db c))) as Hmax.
  split; [|split; [|split; [|split]]].
  - intros rev. destruct ((query d revSQL c).1.2) as [e|]; [discriminate|].
    rewrite (Hrows eq_refl). cbn [default run_query].
    destruct (sql_max _ _) as [a|]; [|discriminate].
    intros [= <-]. destruct Hmax as [(i & r & Hi & <-) Hle].
    split; [now exists r|exact Hle].
  - intros Hempty. destruct ((query d revSQL c).1.2) as [e|]; [discriminate|].
    rewrite (Hrows eq_refl). cbn [default run_query].
    rewrite Hempty, sql_max_empty. discriminate.
  - intros Hne Hff. destruct (query_fault_free d revSQL c Hff) as [Hq _].
    rewrite Hq. cbn [fst snd default run_query]. unfold current_revision.
    destruct (sql_max_nonempty (fun i _ => i) _ Hne) as [a ->]. reflexivity.
  - exact Hdb.
  - intros Hff. unfold GetCompactRevision.
    destruct (query_fault_free d revisionIntervalSQL c Hff) as [Hq _].
    destruct (query d revisionIntervalSQL c) as [[rows err] c']. cbn [fst] in Hq.
    injection Hq as -> ->. reflexivity.
Qed.

Lemma execute_db (d : Generic) (s : Stmt) (c : Conn) :
  ((execute d s c).1.2 = None -> db (execute d s c).2 = (run_stmt s (db c)).1)
  /\ ((execute d s c).1.2 <> None -> db (execute d s c).2 = db c).
Proof.
  unfold execute.
  destruct (retry_loop_run d (ExecContext s) (CallExec s)
              (ExecContext_fails s) (ExecContext_succeeds s)
              (Z.to_nat maxRetries) 0 (None, None) c)
    as (n & Hn & _ & Hres); [unfold maxRetries; lia|unfold maxRetries; lia|].
  destruct (after_failures_db (CallExec s) n c) as (Hdb & _ & _ & _).
  destruct (after_failures_db (CallExec s) (S n) c) as (Hdb' & _ & _ & _).
  destruct Hres as [(res & c' & Hf & Hc & ->)|[(e & Hf & Hr & ->)|(e & Hf & Hr & Hk & ->)]];
    cbn [fst snd annotate].
  - unfold ExecContext in Hc. rewrite fault_at_after_failures, Hf, Hdb in Hc.
    destruct (run_stmt s (db c)) as [d' r]. injection Hc as <- <-. cbn [db fst].
    split; [reflexivity|]. intros H. now destruct H.
  - split; [discriminate|]. intros _. exact Hdb'.
  - split; [discriminate|]. intros _. exact Hdb'.
Qed.

Lemma delete_shrunk (m : gmap Z Row) (i : Z) : shrunk m (delete i m).
Proof.
  intros j r Hj. apply lookup_delete_Some in Hj as [_ Hj]. exists r. now repeat split.
Qed.

(** X20.  [DeleteRevision] removes the row with the given id and nothing
    else: when it returns nil, the table is the one before without that
    id (the same table when no row has the id), and when it returns an
    error the database is unchanged.  Without faults it returns nil.  It
    keeps the log linked. *)
Theorem DeleteRevision_removes_one_row (d : Generic) (revision : Z) (c : Conn) :
  let out := DeleteRevision d revision c in
  (out.1 = None ->
   kine (db out.2) = delete revision (kine (db c))
   /\ forall i, i <> revision -> kine (db out.2) !! i = kine (db c) !! i)
  /\ (out.1 = None -> kine (db c) !! revision = None -> db out.2 = db c)
  /\ (out.1 <> None -> db out.2 = db c)
  /\ (fault_free c -> out.1 = None)
  /\ (linked (kine (db c)) -> linked (kine (db out.2))).
Proof.
  cbv zeta. unfold DeleteRevision.
  destruct (execute_db d (DeleteRevSQL revision) c) as [Hok Herr].
  pose proof (execute_fault_free d (DeleteRevSQL revision) c) as Hff.
  assert (fault_free c -> (execute d (DeleteRevSQL revision) c).1.2 = None) as Hnil.
  { intros H. unfold fault_free in H.
    assert (exists r c', ExecContext (DeleteRevSQL revision) c = (inr r, c'))
      as (r & c' & Hc).
    { unfold ExecContext, call_fault. rewrite H. cbn. eexists _, _. reflexivity. }
    unfold execute.
    now rewrite (retry_loop_first_success d _ (None, None) c c' r Hc). }
  destruct (execute d (DeleteRevSQL revision) c) as [[res err] c']. cbn [fst snd] in *.
  split; [|split; [|split; [|split]]].
  - intros ->. rewrite (Hok eq_refl). cbn [run_stmt fst kine].
    split; [reflexivity|]. intros i Hi. now apply lookup_delete_ne.
  - intros -> Hnone. rewrite (Hok eq_refl). cbn [run_stmt fst].
    rewrite delete_id by exact Hnone. now destruct (db c).
  - exact Herr.
  - exact Hnil.
  - intros HL. destruct err as [e|].
    + rewrite Herr by discriminate. exact HL.
    + rewrite (Hok eq_refl). cbn [run_stmt fst kine].
      apply (linked_shrunk (kine (db c))); [apply delete_shrunk|exact HL].
Qed.

(** * Statement texts *)

Lemma collapse_single_spaced (b : bool) (s : string) :
  single_spaced b (collapse_blanks b (remove_newlines s)) = true.
Proof.
  revert b. induction s as [|c s IH]; intros b; simpl; [reflexivity|].
  destruct (Ascii.eqb_spec c "010") as [->|Hn]; [apply IH|].
  simpl. unfold is_blank.
  destruct (Ascii.eqb_spec c "009") as [->|Ht]; simpl.
  - destruct b; [apply IH|]. simpl. apply IH.
  - destruct (Ascii.eqb_spec c " ") as [->|Hs]; simpl.
    + destruct b; [apply IH|]. simpl. apply IH.
    + destruct (Ascii.eqb_spec c "010"); [contradiction|].
      destruct (Ascii.eqb_spec c "009"); [contradiction|].
      destruct (Ascii.eqb_spec c " "); [contradiction|]. simpl. apply IH.
Qed.

Lemma single_spaced_fixed (b : bool) (s : string) :
  single_spaced b s = true ->
  remove_newlines s = s /\ collapse_blanks b s = s.
Proof.
  revert b. induction s as [|c s IH]; intros b; simpl; [now split|].
  unfold is_blank.
  destruct (Ascii.eqb_spec c "010") as [->|Hn]; simpl; [discriminate|].
  destruct (Ascii.eqb_spec c "009") as [->|Ht]; simpl; [discriminate|].
  destruct (Ascii.eqb_spec c " ") as [->|Hs]; simpl.
  - rewrite andb_true_iff. intros [Hb H]. destruct b; [discriminate|].
    destruct (IH true H) as [-> ->]. now split.
  - intros H. destruct (IH false H) as [-> ->]. now split.
Qed.

(** X21.  [Stripped.String] puts a text on one line with single spaces:
    its result has no newline, no tab and no two adjacent spaces; a text
    that is already of that form comes back unchanged, and so stripping
    twice is stripping once. *)
Theorem Stripped_String_single_spaced (s : string) :
  single_spaced false (Stripped_String s) = true
  /\ (single_spaced false s = true -> Stripped_String s = s)
  /\ Stripped_String (Stripped_String s) = Stripped_String s.
Proof.
  assert (forall t, single_spaced false t = true -> Stripped_String t = t) as Hfix.
  { intros t Ht. unfold Stripped_String.
    destruct (single_spaced_fixed false t Ht) as [-> ->]. reflexivity. }
  split; [apply collapse_single_spaced|]. split; [apply Hfix|].
  apply Hfix, collapse_single_spaced.
Qed.

Lemma string_app_assoc (a b c : string) : (a +:+ b) +:+ c = a +:+ b +:+ c.
Proof. induction a as [|x a IH]; simpl; [reflexivity|]. now rewrite IH. Qed.

Lemma count_marks_app (a b : string) :
  count_marks (a +:+ b) = count_marks a + count_marks b.
Proof. induction a as [|c a IH]; simpl; [reflexivity|]. rewrite IH. lia. Qed.

Lemma count_marks_uint (d : Decimal.uint) :
  count_marks (DecimalString.NilEmpty.string_of_uint d) = 0.
Proof. induction d; simpl; auto. Qed.

Lemma count_marks_Itoa (n : Z) : count_marks (Itoa n) = 0.
Proof.
  unfold Itoa, DecimalString.NilZero.string_of_int, DecimalString.NilZero.string_of_uint.
  destruct (Z.to_int n) as [d|d]; destruct d; simpl; rewrite ?count_marks_uint;
    reflexivity.
Qed.

Lemma Itoa_inj (n m : Z) : Itoa n = Itoa m -> n = m.
Proof.
  assert (forall z, Z.to_int z <> Decimal.Pos Decimal.Nil
                    /\ Z.to_int z <> Decimal.Neg Decimal.Nil) as Hnn.
  { intros [|p|p]; split; simpl; try discriminate; intros [= H];
      now apply DecimalPos.Unsigned.to_uint_nonnil in H. }
  unfold Itoa. intros H.
  apply (f_equal DecimalString.NilZero.int_of_string) in H.
  rewrite !DecimalString.NilZero.isi in H by apply Hnn.
  injection H as H. now apply DecimalZ.to_int_inj.
Qed.

Lemma q_replace_app (param : string) (numbered : bool) (n : Z) (a b : string) :
  q_replace param numbered n (a +:+ b)
  = q_replace param numbered n a
    +:+ q_replace param numbered (if numbered then n + count_marks a else n) b.
Proof.
  revert n. induction a as [|c a IH]; intros n; simpl.
  - destruct numbered; [now rewrite Z.add_0_r|reflexivity].
  - destruct (Ascii.eqb c "?"); destruct numbered; rewrite IH; simpl.
    + replace (n + (1 + count_marks a)) with (n + 1 + count_marks a) by lia.
      now rewrite !string_app_assoc.
    + now rewrite !string_app_assoc.
    + reflexivity.
    + reflexivity.
Qed.

Lemma q_replace_question_mark (n : Z) (sql : string) : q_replace "?" false n sql = sql.
Proof.
  induction sql as [|c sql IH]; simpl; [reflexivity|].
  destruct (Ascii.eqb_spec c "?") as [->|]; simpl; now rewrite IH.
Qed.

Lemma q_replace_no_marks (param : string) (numbered : bool) (n : Z) (sql : string) :
  count_marks param = 0 -> count_marks (q_replace param numbered n sql) = 0.
Proof.
  intros Hp. revert n. induction sql as [|c sql IH]; intros n; simpl; [reflexivity|].
  destruct (Ascii.eqb c "?") eqn:E.
  - destruct numbered; rewrite !count_marks_app, ?count_marks_Itoa, Hp, IH; reflexivity.
  - simpl. rewrite E, IH. reflexivity.
Qed.

Lemma q_numbered (sql param : string) : q sql param true = q_replace param true 0 sql.
Proof. unfold q. now rewrite andb_false_r. Qed.

(** X22.  [q] numbers the placeholders from left to right: with
    [numbered], the [?] that follows a text [a] with [k] placeholders
    becomes [param] followed by the decimal of [k + 1], what comes before
    it is translated as on its own, and two placeholders of one text never
    get the same number.  Without [numbered] every [?] becomes [param], so
    that the shortcut for [param = "?"] returns what the replacement would.
    When [param] has no [?], none is left in the result. *)
Theorem q_numbers_the_placeholders (a b param : string) (numbered : bool) :
  (exists rest,
     q (a +:+ "?" +:+ b) param true
     = q a param true +:+ param +:+ Itoa (count_marks a + 1) +:+ rest)
  /\ (forall k, Itoa (count_marks a + 1) = Itoa k -> k = count_marks a + 1)
  /\ q (a +:+ "?" +:+ b) param false = q a param false +:+ param +:+ q b param false
  /\ q a "?" false = q_replace "?" false 0 a
  /\ (count_marks a = 0 -> q a param numbered = a)
  /\ (count_marks param = 0 -> count_marks (q a param numbered) = 0).
Proof.
  split; [|split; [|split; [|split; [|split]]]].
  - exists (q_replace param true (count_marks a + 1) b).
    rewrite !q_numbered, q_replace_app. reflexivity.
  - intros k Hk. symmetry. now apply Itoa_inj.
  - unfold q. rewrite andb_true_r.
    destruct (String.eqb_spec param "?") as [->|_].
    + reflexivity.
    + rewrite q_replace_app. reflexivity.
  - now rewrite q_replace_question_mark.
  - intros Ha. unfold q. destruct (_ && _); [reflexivity|]. generalize 0 at 1.
    induction a as [|c a IH]; intros n; simpl in *; [reflexivity|].
    destruct (Ascii.eqb c "?").
    + pose proof (count_marks_app "" a). assert (0 <= count_marks a); [|lia].
      clear. induction a as [|x a IH]; simpl; [lia|]. destruct (Ascii.eqb x "?"); lia.
    + now rewrite IH.
  - intros Hp. unfold q. destruct (String.eqb_spec param "?") as [->|_].
    + discriminate.
    + apply q_replace_no_marks, Hp.
Qed.

(** * Gap rows *)

Lemma FillContext_inv (revision : Z) (c c' : Conn) (s : error + Result) :
  FillContext revision c = (s, c') ->
  faults c' = tail (faults c)
  /\ match s with
     | inl _ => db c' = db c
     | inr _ => kine (db c) !! revision = None /\ db c' = filled revision (db c)
     end.
Proof.
  unfold FillContext, run_fill. destruct (call_fault c).
  - intros [= <- <-]. now split.
  - destruct (kine (db c) !! revision) eqn:E; intros [= <- <-]; now split.
Qed.

Lemma fill_loop_outcome (d : Generic) (revision : Z)
    (fuel : nat) (k : Z) (last : option Result * option error) (c : Conn) :
  last.2 <> None \/ ((0 < fuel)%nat /\ k < maxRetries) ->
  let out := retry_loop d (FillContext revision) fuel k last c in
  (out.1.1.2 = None ->
   kine (db c) !! revision = None /\ db out.2 = filled revision (db c))
  /\ (out.1.1.2 <> None -> db out.2 = db c).
Proof.
  cbv zeta. revert k last c.
  induction fuel as [|fuel IH]; intros k last c Hlast; cbn [retry_loop].
  - cbn [fst snd]. split; [|reflexivity]. intros H.
    destruct Hlast as [Hl|[Hf _]]; [now destruct Hl|lia].
  - destruct (Z.ltb_spec k maxRetries) as [Hk|Hk].
    + destruct (FillContext revision c) as [[e|r] c'] eqn:E;
        apply FillContext_inv in E as (_ & Hdb).
      * destruct (retryable d e).
        -- rewrite <- Hdb. apply IH. left. discriminate.
        -- cbn [fst snd]. split; [discriminate|]. intros _. exact Hdb.
      * cbn [fst snd]. split; [intros _; exact Hdb|]. intros H. now destruct H.
    + cbn [fst snd]. split; [|reflexivity]. intros H.
      destruct Hlast as [Hl|[_ Hlt]]; [now destruct Hl|lia].
Qed.

Lemma Fill_outcome (d : Generic) (revision : Z) (c : Conn) :
  ((Fill d revision c).1 = None ->
   kine (db c) !! revision = None /\ db (Fill d revision c).2 = filled revision (db c))
  /\ ((Fill d revision c).1 <> None -> db (Fill d revision c).2 = db c).
Proof.
  unfold Fill.
  pose proof (fill_loop_outcome d revision (Z.to_nat maxRetries) 0 (None, None) c) as H.
  cbv zeta in H.
  destruct (retry_loop d (FillContext revision) (Z.to_nat maxRetries) 0 (None, None) c)
    as [[[res err] k] c'].
  cbn [fst snd] in *.
  destruct H as [Hok Herr]; [right; unfold maxRetries; lia|].
  destruct err as [e|]; cbn [annotate]; split; try discriminate.
  - intros _. apply Herr. discriminate.
  - intros _. now apply Hok.
  - intros H. now destruct H.
Qed.

Lemma Fill_fault_free (d : Generic) (revision : Z) (c : Conn) :
  fault_free c -> kine (db c) !! revision = None ->
  (Fill d revision c).1 = None /\ fault_free (Fill d revision c).2.
Proof.
  intros Hff Hfree. unfold fault_free in *.
  assert (exists r c', FillContext revision c = (inr r, c') /\ faults c' = [])
    as (r & c' & Hc & Hf).
  { unfold FillContext, run_fill, call_fault. rewrite Hff, Hfree.
    eexists _, _. split; reflexivity. }
  unfold Fill. rewrite (retry_loop_first_success d _ (None, None) c c' r Hc).
  split; [reflexivity|exact Hf].
Qed.

(** X23.  [Fill] inserts the gap row under the given id or nothing: when
    it returns nil, no row had the id, and the table is the one before
    with the gap row ["gap-<revision>"], a tombstone without value, under
    that id; when it returns an error the database is unchanged.  On an id
    in use it never returns nil, and without faults it returns nil on every
    free id. *)
Theorem Fill_inserts_the_gap_row (d : Generic) (revision : Z) (c : Conn) :
  let out := Fill d revision c in
  (out.1 = None ->
   kine (db c) !! revision = None
   /\ kine (db out.2) = <[revision := fill_row revision]> (kine (db c))
   /\ name (fill_row revision) = "gap-" +:+ Itoa revision
   /\ deleted (fill_row revision) = 1 /\ value (fill_row revision) = None)
  /\ (out.1 <> None -> db out.2 = db c)
  /\ (kine (db c) !! revision <> None -> out.1 <> None)
  /\ (fault_free c -> kine (db c) !! revision = None -> out.1 = None).
Proof.
  cbv zeta. destruct (Fill_outcome d revision c) as [Hok Herr].
  split; [|split; [exact Herr|split]].
  - intros H. destruct (Hok H) as [Hfree ->]. now repeat split.
  - intros Hused H. now destruct (Hok H).
  - intros Hff Hfree. now apply Fill_fault_free.
Qed.

Lemma prefix_append (p t : string) : String.prefix p (p +:+ t) = true.
Proof.
  induction p as [|c p IH]; simpl; [now destruct t|].
  destruct (ascii_dec c c); [exact IH|contradiction].
Qed.

(** X24.  [IsFill] holds of exactly the names that begin with ["gap-"],
    the name of every gap row among them, whatever the revision; and the
    name of a gap row tells its revision: two revisions never give the
    same name. *)
Theorem IsFill_recognises_gap_rows (key : string) (a b : Z) :
  (IsFill key = true <-> exists t, key = "gap-" +:+ t)
  /\ IsFill (name (fill_row a)) = true
  /\ (name (fill_row a) = name (fill_row b) -> a = b).
Proof.
  split; [|split].
  - unfold IsFill. rewrite prefix_correct. split.
    + intros H. exists (substring 4 (String.length key - 4) key).
      destruct key as [|c1 [|c2 [|c3 [|c4 key]]]]; try discriminate.
      cbn in H. injection H as -> -> -> ->. cbn.
      now rewrite Nat.sub_0_r, substring_all.
    + intros [t ->]. now destruct t.
  - apply (prefix_append "gap-").
  - cbn. intros [= H]. now apply Itoa_inj.
Qed.

(** X25.  The poller's read sees a gap row, a list without tombstones does
    not: after a [Fill] of [revision] that returned nil on a connection
    without faults, [After] from the revision before returns the gap row
    under that id, and [ListCurrent] without [includeDeleted] returns no
    row with that id. *)
Theorem After_shows_the_gap_row
    (d : Generic) (prefix startKey : string) (revision : Z) (c c1 : Conn) :
  fault_free c ->
  Fill d revision c = (None, c1) ->
  (exists rows,
     (After d (revision - 1) 0 c1).1 = (Some rows, None)
     /\ (revision, fill_row revision) ∈ rows)
  /\ (exists rows,
        (ListCurrent d prefix startKey 0 false c1).1 = (Some rows, None)
        /\ forall x, (revision, x) ∉ rows).
Proof.
  intros Hff HF.
  destruct (Fill_outcome d revision c) as [Hok _].
  rewrite HF in Hok. destruct (Hok eq_refl) as [Hfree Hdb]. cbn [snd] in Hdb.
  destruct (Fill_fault_free d revision c Hff Hfree) as [_ Hff1].
  rewrite HF in Hff1. cbn [snd] in Hff1.
  assert (kine (db c1) !! revision = Some (fill_row revision)) as Hrow.
  { rewrite Hdb. apply lookup_insert_eq. }
  split; eexists; split.
  - rewrite (After_fault_free _ _ _ _ Hff1). change (0 >? 0) with false.
    cbn [sql_limit]. reflexivity.
  - apply after_rows_spec. split; [exact Hrow|]. split; [lia|reflexivity].
  - apply (ListCurrent_unlimited _ _ _ _ _ Hff1).
  - intros x Hin. apply list_rows_spec in Hin as (Hx & _ & _ & _ & Hd).
    rewrite Hrow in Hx. injection Hx as <-. destruct Hd; discriminate.
Qed.

(** * The connection bootstrap *)

Lemma open_loop_first_success (env : Env) (k fuel i : nat)
    (last : option SqlDB * option error) :
  (k < fuel)%nat ->
  (forall j, (j < k)%nat ->
             (openAndTest env (i + j)).2 <> None /\ ctx_Done env (i + j) = false) ->
  (openAndTest env (i + k)).2 = None ->
  open_loop env fuel i last = inr (openAndTest env (i + k)).
Proof.
  revert fuel i last. induction k as [|k IH]; intros fuel i last Hk Hfail Hok;
    (destruct fuel as [|fuel]; [lia|]); cbn [open_loop].
  - rewrite Nat.add_0_r in *.
    destruct (openAndTest env i) as [db [e|]]; [discriminate|reflexivity].
  - destruct (Hfail 0%nat ltac:(lia)) as [Hf Hd]. rewrite Nat.add_0_r in Hf, Hd.
    destruct (openAndTest env i) as [db [e|]]; [|now destruct Hf].
    rewrite Hd. replace (i + S k)%nat with (S i + k)%nat in * by lia.
    apply IH; [lia| |exact Hok].
    intros j Hj. replace (S i + j)%nat with (i + S j)%nat by lia. apply Hfail. lia.
Qed.

Lemma openAndTest_ok (env : Env) (i : nat) :
  (openAndTest env i).2 = None ->
  openAndTest env i = (Some (mkSqlDB defaultMaxIdleConns 0 0 0), None)
  /\ sql_Open env i = None
  /\ forall j, (j < 3)%nat -> db_Ping env i j = None.
Proof.
  unfold openAndTest. destruct (sql_Open env i); [discriminate|].
  cbn [ping_loop].
  destruct (db_Ping env i 0) eqn:E0; [discriminate|].
  destruct (db_Ping env i 1) eqn:E1; [discriminate|].
  destruct (db_Ping env i 2) eqn:E2; [discriminate|].
  intros _. split; [reflexivity|]. split; [reflexivity|].
  intros [|[|[|j]]] Hj; try assumption. lia.
Qed.

(** X26.  [Open] stops at the first attempt that works: when the [k]-th
    attempt ([k < 300]) is the first whose [sql.Open] and pings succeed,
    and no earlier attempt finds the context done, [Open] returns a pool
    and a nil error; the pool carries the settings of the configuration,
    with the idle count normalised.  That attempt made [sql.Open] and all
    three pings succeed. *)
Theorem Open_stops_at_first_success
    (env : Env) (connPoolConfig : ConnectionPoolConfig) (k : nat) :
  (k < 300)%nat ->
  attempts_fail env k ->
  (openAndTest env k).2 = None ->
  Open env connPoolConfig
  = Returns (Some (mkSqlDB (normal_MaxIdle (MaxIdle connPoolConfig))
                     (MaxOpen connPoolConfig) (MaxLifetime connPoolConfig)
                     (MaxIdleTime connPoolConfig)), None)
  /\ sql_Open env k = None
  /\ forall j, (j < 3)%nat -> db_Ping env k j = None.
Proof.
  intros Hk Hfail Hok.
  destruct (openAndTest_ok env k Hok) as (Hdb & Hopen & Hping).
  split; [|split; [exact Hopen|exact Hping]].
  unfold Open.
  rewrite (open_loop_first_success env k 300 0 (None, None) Hk Hfail Hok).
  cbn [Nat.add]. rewrite Hdb. reflexivity.
Qed.

Lemma open_loop_cases (env : Env) (fuel i : nat) (last : option SqlDB * option error) :
  match open_loop env fuel i last with
  | inl early =>
      early = (None, Some ErrCtx)
      /\ exists j, (i <= j < i + fuel)%nat /\ ctx_Done env j = true
                   /\ forall k, (i <= k <= j)%nat -> (openAndTest env k).2 <> None
  | inr r =>
      (fuel = 0%nat /\ r = last)
      \/ (exists j, (i <= j < i + fuel)%nat /\ r = openAndTest env j /\ r.2 = None)
      \/ ((0 < fuel)%nat /\ r.1 = None /\ r.2 <> None)
  end.
Proof.
  revert i last. induction fuel as [|fuel IH]; intros i last; cbn [open_loop].
  - now left.
  - destruct (openAndTest env i) as [db [e|]] eqn:E.
    + destruct (ctx_Done env i) eqn:Hd.
      * split; [reflexivity|]. exists i. split; [lia|]. split; [exact Hd|].
        intros k Hk. assert (k = i) as -> by lia. rewrite E. discriminate.
      * specialize (IH (S i) (db, Some e)).
        destruct (open_loop env fuel (S i) (db, Some e)) as [early|r].
        -- destruct IH as (-> & j & Hj & Hdone & Hf). split; [reflexivity|].
           exists j. split; [lia|]. split; [exact Hdone|].
           intros k Hk. destruct (Nat.eq_dec k i) as [->|Hne].
           ++ rewrite E. discriminate.
           ++ apply Hf. lia.
        -- destruct IH as [(-> & ->)|[(j & Hj & -> & Hn)|(Hpos & Hr)]].
           ++ right; right. split; [lia|]. cbn [fst snd]. split; [|discriminate].
              pose proof (openAndTest_failed env i) as H. rewrite E in H.
              apply H. discriminate.
           ++ right; left. exists j. split; [lia|]. now split.
           ++ right; right. split; [lia|exact Hr].
    + right; left. exists i. split; [lia|]. rewrite E. now split.
Qed.

(** X27.  Whenever [Open] returns, it returns either a nil handle with
    [ctx.Err()], after an attempt that failed like all before it and found
    the context done, or a pool with a nil error, after an attempt that
    succeeded; never a pool together with an error, never nil twice.  The
    pool has a non-negative idle count. *)
Theorem Open_returns_pool_or_ctx_error
    (env : Env) (connPoolConfig : ConnectionPoolConfig)
    (r : option SqlDB * option error) :
  Open env connPoolConfig = Returns r ->
  (r = (None, Some ErrCtx)
   /\ exists j, (j < 300)%nat /\ ctx_Done env j = true
                /\ forall k, (k <= j)%nat -> (openAndTest env k).2 <> None)
  \/ (exists db j, r = (Some db, None) /\ (j < 300)%nat
                   /\ (openAndTest env j).2 = None
                   /\ 0 <= maxIdleConns db
                   /\ maxIdleConns db = normal_MaxIdle (MaxIdle connPoolConfig)).
Proof.
  unfold Open. pose proof (open_loop_cases env 300 0 (None, None)) as H.
  destruct (open_loop env 300 0 (None, None)) as [early|[db err]].
  - intros [= <-]. left. destruct H as (-> & j & Hj & Hd & Hf).
    split; [reflexivity|]. exists j. split; [lia|]. split; [exact Hd|].
    intros k Hk. apply Hf. lia.
  - destruct H as [(H & _)|[(j & Hj & Hr & Hn)|(_ & Hdb & _)]]; [discriminate| |].
    + cbn [snd] in Hn. subst err.
      assert ((openAndTest env j).2 = None) as Hok by now rewrite <- Hr.
      destruct (openAndTest_ok env j Hok) as (Hdb & _). rewrite Hdb in Hr.
      injection Hr as ->. cbn. intros [= <-]. right.
      eexists _, j. split; [reflexivity|]. split; [lia|]. split; [exact Hok|].
      cbn. split; [|reflexivity]. unfold normal_MaxIdle, defaultMaxIdleConns.
      destruct (Z.ltb_spec (MaxIdle connPoolConfig) 0); [lia|].
      destruct (Z.eqb_spec (MaxIdle connPoolConfig) 0); lia.
    + cbn [fst] in Hdb. subst db. cbn. discriminate.
Qed.

(** X28.  [configureConnectionPooling] writes the normalised idle count
    back into the configuration it was given: a negative count becomes
    [0], [0] becomes the default [2], a positive count stays.  The count
    written back is never negative, and it is the one the pool gets.
    Configuring again from the configuration written back changes nothing
    when the count was not negative; when it was negative, the [0] written
    back is read as "use the default" and the second pool gets [2]. *)
Theorem configureConnectionPooling_normalises
    (connPoolConfig : ConnectionPoolConfig) (db : SqlDB) :
  exists cfg' db',
    configureConnectionPooling connPoolConfig (Some db) = Returns (cfg', db')
    /\ MaxIdle cfg' = normal_MaxIdle (MaxIdle connPoolConfig)
    /\ 0 <= MaxIdle cfg'
    /\ db' = mkSqlDB (MaxIdle cfg') (MaxOpen connPoolConfig)
               (MaxLifetime connPoolConfig) (MaxIdleTime connPoolConfig)
    /\ (0 <= MaxIdle connPoolConfig ->
        configureConnectionPooling cfg' (Some db') = Returns (cfg', db'))
    /\ (MaxIdle connPoolConfig < 0 ->
        maxIdleConns db' = 0
        /\ exists cfg'' db'',
             configureConnectionPooling cfg' (Some db') = Returns (cfg'', db'')
             /\ maxIdleConns db'' = defaultMaxIdleConns).
Proof.
  destruct connPoolConfig as [idle open life idletime].
  unfold configureConnectionPooling, normal_MaxIdle, defaultMaxIdleConns.
  cbn [MaxIdle MaxOpen MaxLifetime MaxIdleTime].
  eexists _, _. split; [reflexivity|]. cbn [MaxIdle].
  destruct (Z.ltb_spec idle 0) as [Hneg|Hnn].
  - split; [reflexivity|]. split; [lia|]. split; [reflexivity|].
    split; [lia|]. intros _. split; [reflexivity|].
    eexists _, _. split; reflexivity.
  - destruct (Z.eqb_spec idle 0) as [->|Hnz].
    + split; [reflexivity|]. split; [lia|]. split; [reflexivity|].
      split; [reflexivity|lia].
    + split; [reflexivity|]. split; [lia|]. split; [reflexivity|]. split; [|lia].
      intros _.
      destruct (Z.ltb_spec idle 0); [lia|]. destruct (Z.eqb_spec idle 0); [lia|].
      reflexivity.
Qed.

(** X29.  [GetCompactInterval] and [GetPollInterval] never return a zero
    or negative duration: a positive configured value is returned as it
    is, anything else gives the default (five minutes, one second); what
    they return, configured again, is returned again. *)
Theorem interval_getters_are_positive (d : Generic) :
  0 < GetCompactInterval d
  /\ 0 < GetPollInterval d
  /\ (0 < CompactInterval d -> GetCompactInterval d = CompactInterval d)
  /\ (CompactInterval d <= 0 -> GetCompactInterval d = 5 * Duration.Minute)
  /\ (0 < PollInterval d -> GetPollInterval d = PollInterval d)
  /\ (PollInterval d <= 0 -> GetPollInterval d = Duration.Second)
  /\ (let d' := mkGeneric (LockWrites d) (Retry d) (TranslateErr d)
                  (GetCompactInterval d) (GetPollInterval d) (GetWatchQueryTimeout d) in
      GetCompactInterval d' = GetCompactInterval d
      /\ GetPollInterval d' = GetPollInterval d
      /\ GetWatchQueryTimeout d' = GetWatchQueryTimeout d).
Proof.
  unfold GetCompactInterval, GetPollInterval, GetWatchQueryTimeout.
  cbn [CompactInterval PollInterval WatchQueryTimeout]. cbv zeta.
  unfold Duration.Minute, Duration.Second, Duration.Nanosecond.
  destruct (Z.ltb_spec 0 (CompactInterval d));
    destruct (Z.ltb_spec 0 (PollInterval d));
    destruct (Z.leb_spec (5 * (1000000000 * 1)) (WatchQueryTimeout d));
    repeat split; try lia;
    repeat match goal with
           | |- context [?a <? ?b] => destruct (Z.ltb_spec a b); try lia
           | |- context [?a <=? ?b] => destruct (Z.leb_spec a b); try lia
           end.
Qed.

(** * Witnesses of the further properties *)

Lemma scenario_linked : linked (kine (db after_recreate)).
Proof.
  unfold after_recreate. rewrite Create_conn.
  apply (write_linked d0 "foo" "x" 0 0); [now left|].
  unfold after_delete. rewrite Delete_conn.
  apply (write_linked d0 "foo" "" 0 2); [now right; right|].
  unfold after_update. rewrite Update_conn.
  apply (write_linked d0 "foo" "2" 0 1); [now right; left|].
  unfold after_create. rewrite Create_conn.
  apply (write_linked d0 "foo" "1" 0 0); [now left|].
  intros j r Hj. cbn in Hj. rewrite lookup_empty in Hj. discriminate.
Qed.

Lemma scenario_latest : latest_row (kine (db after_recreate)) "foo" 4 recreated_row.
Proof.
  split; [vm_compute; reflexivity|]. split; [reflexivity|].
  intros j r Hj _. apply next_id_fresh in Hj.
  assert (next_id (db after_recreate) = 5) as E by (vm_compute; reflexivity). lia.
Qed.

Lemma scenario_fault_free :
  fault_free c_empty /\ fault_free after_create /\ fault_free after_update
  /\ fault_free after_delete /\ fault_free after_recreate.
Proof. repeat split; vm_compute; reflexivity. Qed.


Lemma Delete_witness :
  Delete d0 "foo" 2 after_update = ((3, true, None), after_delete)
  /\ live_at (kine (db after_update)) "foo" 2.
Proof.
  assert (Delete d0 "foo" 2 after_update = ((3, true, None), after_delete)) as H
    by (vm_compute; reflexivity).
  split; [exact H|].
  destruct (Delete_inserts_tombstone _ _ _ _ _ _ _ H) as [Hiff _].
  now apply Hiff.
Defined.

Lemma write_witness :
  (Create d0 "foo" "1" 0 c_empty = ((1, true, None), after_create)
   \/ Update d0 "foo" "1" 0 0 c_empty = ((1, true, None), after_create))
  /\ live_at (kine (db after_create)) "foo" 1.
Proof.
  assert (Create d0 "foo" "1" 0 c_empty = ((1, true, None), after_create)
          \/ Update d0 "foo" "1" 0 0 c_empty = ((1, true, None), after_create)) as H
    by (left; vm_compute; reflexivity).
  split; [exact H|].
  exact (proj1 (write_makes_revision_current _ _ _ _ _ _ _ _ H)).
Defined.

Lemma Delete_leaves_witness :
  Delete d0 "foo" 2 after_update = ((3, true, None), after_delete)
  /\ forall p, ~ live_at (kine (db after_delete)) "foo" p.
Proof.
  assert (Delete d0 "foo" 2 after_update = ((3, true, None), after_delete)) as H
    by (vm_compute; reflexivity).
  split; [exact H|].
  exact (proj1 (proj2 (Delete_leaves_no_live_row _ _ _ _ _ _ H))).
Defined.

Lemma compaction_keeps_witness :
  linked (kine (db after_recreate))
  /\ "foo" <> compact_rev_key
  /\ latest_row (kine (db after_recreate)) "foo" 4 recreated_row
  /\ deleted recreated_row = 0
  /\ latest_row (kine (db (Compact d0 3 after_recreate).2)) "foo" 4 recreated_row.
Proof.
  assert ("foo" <> compact_rev_key) as Hne by discriminate.
  split; [exact scenario_linked|]. split; [exact Hne|].
  split; [exact scenario_latest|]. split; [reflexivity|].
  exact (proj2 (compaction_keeps_live_rows d0 3 0 3 after_recreate "foo" 4 recreated_row
                  scenario_linked Hne scenario_latest eq_refl)).
Defined.

Lemma compact_revision_witness :
  (tryCompact d0 0 3 c_compacted_sound).1 = None
  /\ forall k r', kine (db (tryCompact d0 0 3 c_compacted_sound).2) !! k = Some r' ->
                  name r' = compact_rev_key -> 3 <= prev_revision r'.
Proof.
  assert ((tryCompact d0 0 3 c_compacted_sound).1 = None) as H
    by (vm_compute; reflexivity).
  split; [exact H|].
  exact (proj1 (compact_revision_advances d0 0 3 c_compacted_sound H)).
Defined.


Lemma trailing_tombstone_witness :
  (tryCompact d0 0 3 after_delete).1 = None
  /\ kine (db after_delete) !! 3 = Some (mkRow "foo" 0 1 1 2 0 None (Some "2"))
  /\ (forall j x, kine (db after_delete) !! j = Some x -> j <= 3)
  /\ current_revision (kine (db (tryCompact d0 0 3 after_delete).2)) < 3.
Proof.
  assert ((tryCompact d0 0 3 after_delete).1 = None) as H by (vm_compute; reflexivity).
  assert (kine (db after_delete) !! 3 = Some (mkRow "foo" 0 1 1 2 0 None (Some "2")))
    as Hrow by (vm_compute; reflexivity).
  assert (forall j x, kine (db after_delete) !! j = Some x -> j <= 3) as Hmax.
  { intros j x Hj. apply next_id_fresh in Hj.
    assert (next_id (db after_delete) = 4) as E by (vm_compute; reflexivity). lia. }
  split; [exact H|]. split; [exact Hrow|]. split; [exact Hmax|].
  refine (proj2 (proj2 (trailing_tombstone_lowers_current_revision
                          d0 0 3 after_delete 3 _ H Hrow Hmax eq_refl _ _ _))); lia.
Defined.

Lemma List_witness :
  fault_free after_recreate /\ 0 <= 0
  /\ exists rows,
       (List d0 "foo" "" 0 2 true after_recreate).1 = (Some rows, None)
       /\ Sorted name_lt rows.
Proof.
  assert (fault_free after_recreate) as Hff by (vm_compute; reflexivity).
  assert (0 <= 0) as Hl by lia.
  split; [exact Hff|]. split; [exact Hl|].
  destruct (List_returns_visible_rows d0 "foo" "" 0 2 true after_recreate Hff Hl)
    as [(rows & Hr & _ & Hs) _].
  exists rows. split; [exact Hr|exact Hs].
Defined.

Lemma After_witness :
  fault_free after_recreate /\ 0 <= 0
  /\ exists rows,
       (After d0 1 0 after_recreate).1 = (Some rows, None) /\ Sorted id_lt rows.
Proof.
  assert (fault_free after_recreate) as Hff by (vm_compute; reflexivity).
  assert (0 <= 0) as Hl by lia.
  split; [exact Hff|]. split; [exact Hl|].
  destruct (After_returns_the_tail d0 "foo" 1 0 after_recreate Hff Hl)
    as [(rows & Hr & _ & Hs) _].
  exists rows. split; [exact Hr|exact Hs].
Defined.

Lemma limit_witness :
  fault_free after_recreate /\ 0 < 2
  /\ exists rows,
       (After d0 1 0 after_recreate).1 = (Some rows, None)
       /\ (After d0 1 2 after_recreate).1 = (Some (take 2 rows), None).
Proof.
  assert (fault_free after_recreate) as Hff by (vm_compute; reflexivity).
  assert (0 < 2) as Hl by lia.
  split; [exact Hff|]. split; [exact Hl|].
  exact (proj1 (proj2 (proj2
           (limit_takes_the_first_rows d0 "foo" "" 2 1 false after_recreate Hff Hl)))).
Defined.

Lemma Count_witness :
  fault_free after_recreate
  /\ exists rows,
       (ListCurrent d0 "foo" "" 0 false after_recreate).1 = (Some rows, None)
       /\ (CountCurrent d0 "foo" "" after_recreate).1
          = (current_revision (kine (db after_recreate)), Z.of_nat (length rows), None).
Proof.
  assert (fault_free after_recreate) as Hff by (vm_compute; reflexivity).
  split; [exact Hff|].
  exact (proj1 (Count_is_the_length_of_List d0 "foo" "" 2 after_recreate Hff)).
Defined.

(** Two keys under ["/a/"]: the list that resumes after ["/a/x"] returns
    the row of ["/a/y"] and not the row of ["/a/x"]. *)
Lemma startKey_witness :
  fault_free after_two /\ "/a/x" <> ""
  /\ (ListCurrent d0 "/a/" "" 0 false after_two).1
     = (Some [(1, mkRow "/a/x" 1 0 0 0 0 (Some "1") None);
              (2, mkRow "/a/y" 1 0 0 0 0 (Some "2") None)], None)
  /\ (List d0 "/a/" "/a/x" 0 2 false after_two).1
     = (Some [(2, mkRow "/a/y" 1 0 0 0 0 (Some "2") None)], None)
  /\ exists rows,
       (ListCurrent d0 "/a/" "/a/x" 0 false after_two).1 = (Some rows, None)
       /\ rows = [(2, mkRow "/a/y" 1 0 0 0 0 (Some "2") None)]
       /\ forall i r, (i, r) ∈ rows ->
            String.ltb "/a/x" (name r) = true
            /\ String.ltb (name r) (getPrefixRange "/a/").2 = true.
Proof.
  assert (fault_free after_two) as Hff by (vm_compute; reflexivity).
  assert ("/a/x" <> "") as Hne by discriminate.
  split; [exact Hff|]. split; [exact Hne|].
  split; [vm_compute; reflexivity|]. split; [vm_compute; reflexivity|].
  destruct (List_resumes_after_startKey d0 "/a/" "/a/x" 0 2 false after_two Hff Hne)
    as [_ (rows & Hr & Hall)].
  exists rows. split; [exact Hr|]. split; [|exact Hall].
  assert ((ListCurrent d0 "/a/" "/a/x" 0 false after_two).1
          = (Some [(2, mkRow "/a/y" 1 0 0 0 0 (Some "2") None)], None)) as Hv
    by (vm_compute; reflexivity).
  rewrite Hv in Hr. now injection Hr as <-.
Defined.

Lemma last_write_witness :
  fault_free c_empty
  /\ (Create d0 "foo" "1" 0 c_empty = ((1, true, None), after_create)
      \/ Update d0 "foo" "1" 0 0 c_empty = ((1, true, None), after_create))
  /\ in_range (read_start "foo" "") (getPrefixRange "foo").2 "foo" = true
  /\ exists rows r,
       (ListCurrent d0 "foo" "" 0 false after_create).1 = (Some rows, None)
       /\ (1, r) ∈ rows /\ name r = "foo" /\ value r = Some "1".
Proof.
  assert (fault_free c_empty) as Hff by reflexivity.
  assert (Create d0 "foo" "1" 0 c_empty = ((1, true, None), after_create)
          \/ Update d0 "foo" "1" 0 0 c_empty = ((1, true, None), after_create)) as H
    by (left; vm_compute; reflexivity).
  assert (in_range (read_start "foo" "") (getPrefixRange "foo").2 "foo" = true) as Hr
    by (vm_compute; reflexivity).
  split; [exact Hff|]. split; [exact H|]. split; [exact Hr|].
  destruct (ListCurrent_shows_the_last_write d0 "foo" "1" "foo" "" 0 0 false
              c_empty after_create 1 Hff H Hr) as (rows & r & Hl & Hin & Hn & Hv & _).
  exists rows, r. split; [exact Hl|]. split; [exact Hin|]. split; [exact Hn|exact Hv].
Defined.

Lemma deleted_key_witness :
  fault_free after_update
  /\ Delete d0 "foo" 2 after_update = ((3, true, None), after_delete)
  /\ in_range (read_start "foo" "") (getPrefixRange "foo").2 "foo" = true
  /\ exists rows,
       (ListCurrent d0 "foo" "" 0 false after_delete).1 = (Some rows, None)
       /\ forall j x, (j, x) ∈ rows -> name x <> "foo".
Proof.
  assert (fault_free after_update) as Hff by (vm_compute; reflexivity).
  assert (Delete d0 "foo" 2 after_update = ((3, true, None), after_delete)) as H
    by (vm_compute; reflexivity).
  assert (in_range (read_start "foo" "") (getPrefixRange "foo").2 "foo" = true) as Hr
    by (vm_compute; reflexivity).
  split; [exact Hff|]. split; [exact H|]. split; [exact Hr|].
  exact (proj1 (ListCurrent_hides_a_deleted_key d0 "foo" "foo" "" 2
                  after_update after_delete 3 Hff H Hr)).
Defined.

Lemma gap_row_witness :
  fault_free after_recreate
  /\ Fill d0 7 after_recreate = (None, (Fill d0 7 after_recreate).2)
  /\ exists rows,
       (After d0 (7 - 1) 0 (Fill d0 7 after_recreate).2).1 = (Some rows, None)
       /\ (7, fill_row 7) ∈ rows.
Proof.
  assert (fault_free after_recreate) as Hff by (vm_compute; reflexivity).
  assert (Fill d0 7 after_recreate = (None, (Fill d0 7 after_recreate).2)) as H
    by (vm_compute; reflexivity).
  split; [exact Hff|]. split; [exact H|].
  exact (proj1 (After_shows_the_gap_row d0 "foo" "" 7 after_recreate _ Hff H)).
Defined.

Lemma env_slow_attempts : attempts_fail env_slow 2.
Proof.
  intros [|[|j]] Hj; [| |lia]; (split; [|reflexivity]); vm_compute; discriminate.
Qed.

Lemma Open_success_witness :
  (2 < 300)%nat
  /\ attempts_fail env_slow 2
  /\ (openAndTest env_slow 2).2 = None
  /\ Open env_slow pool_defaults = Returns (Some (mkSqlDB 2 0 0 0), None).
Proof.
  assert (2 < 300)%nat as Hk by lia.
  assert ((openAndTest env_slow 2).2 = None) as Hok by reflexivity.
  split; [exact Hk|]. split; [exact env_slow_attempts|]. split; [exact Hok|].
  exact (proj1 (Open_stops_at_first_success env_slow pool_defaults 2 Hk
                  env_slow_attempts Hok)).
Defined.

Lemma Open_returns_witness :
  Open env_slow pool_defaults = Returns (Some (mkSqlDB 2 0 0 0), None)
  /\ exists j, (j < 300)%nat /\ (openAndTest env_slow j).2 = None.
Proof.
  assert (Open env_slow pool_defaults = Returns (Some (mkSqlDB 2 0 0 0), None)) as H
    by (vm_compute; reflexivity).
  split; [exact H|].
  destruct (Open_returns_pool_or_ctx_error env_slow pool_defaults _ H)
    as [[Hr _]|(db & j & _ & Hj & Hok & _)]; [discriminate|].
  exists j. split; [exact Hj|exact Hok].
Defined.
